(** * RelativeTrajectoryVisualization: the physics core, embedded and verified

    The development follows [physics.h] (classes [PhysicsBody] and
    [PhysicsWorld]) and the simulation loop of [main.cpp]
    ([applyGravitationalForces] and the trajectory preview).  Scalars are
    IEEE-754 binary32 values, the C++ [float]; the tick counter is a 32-bit
    [int]; the body collection is a [std::vector], here a list addressed by
    index, and the [int] loop counters that run over it are naturals (a
    vector has far fewer than [INT_MAX] slots).  Reading a slot that does
    not exist is undefined in the source and gives the default body here.

    The coordinate frames ([Frame2D.h]) are computed on the same [float]s;
    what their transforms lose is measured against the real numbers the
    [float]s stand for, through the rounding error of the four operations,
    proved here from their definition in [SpecFloat]. *)

From Stdlib Require Import ZArith Bool Lia.
From Stdlib Require Import Floats.SpecFloat.
From Stdlib Require Import Reals Lra.
From stdpp Require Import base list gmap.

Local Open Scope Z_scope.

(** ** The C++ [float]: IEEE-754 binary32 *)

Module Float32.

Definition prec : Z := 24.
Definition emax : Z := 128.

Definition float : Type := spec_float.

Definition add (a b : float) : float := SFadd prec emax a b.
Definition sub (a b : float) : float := SFsub prec emax a b.
Definition mul (a b : float) : float := SFmul prec emax a b.
Definition div (a b : float) : float := SFdiv prec emax a b.
Definition sqrt (a : float) : float := SFsqrt prec emax a.
Definition opp (a : float) : float := SFopp a.

(** Conversion of an integer literal ([20], [66700000], [1]) to [float]. *)
Definition of_int (n : Z) : float := binary_normalize prec emax n 0 false.

Definition pzero : float := S754_zero false.
Definition pinf : float := S754_infinity false.

Definition is_zero (a : float) : bool :=
  match a with S754_zero _ => true | _ => false end.

(** Neither an infinity nor a NaN. *)
Definition is_finite (a : float) : bool :=
  match a with S754_zero _ | S754_finite _ _ _ => true | _ => false end.

(** The comparisons [<=] and [<] of the language (false on a NaN). *)
Definition leb (a b : float) : bool := SFleb a b.
Definition ltb (a b : float) : bool := SFltb a b.

(** Two floats that are the same value: identical, or both a zero (the two
    zeros differ in sign only and compare equal). *)
Definition same (a b : float) : Prop :=
  a = b \/ (is_zero a = true /\ is_zero b = true).

End Float32.

Import Float32.

(** ** Vector2D *)

Module Vector2D.

(** Modelled from the spec: [Vector2D.h] is not among the sources; only its
    uses are.  The spec gives a pair of floating-point components [(x, y)]
    with arithmetic, magnitude and normalization; the operators are taken
    componentwise, the magnitude as the Euclidean norm and the normalized
    vector as the vector divided by its magnitude. *)
Record t : Type := mk { x : float; y : float }.

(** Modelled from the spec: [Vector2D::zero()], the zero vector. *)
Definition zero : t := mk pzero pzero.

(** Modelled from the spec: [a + b] and [a += b], componentwise. *)
Definition plus (a b : t) : t := mk (add (x a) (x b)) (add (y a) (y b)).

(** Modelled from the spec: [a - b], componentwise. *)
Definition minus (a b : t) : t := mk (sub (x a) (x b)) (sub (y a) (y b)).

(** Modelled from the spec: [v * s], each component times the scalar. *)
Definition times (v : t) (s : float) : t := mk (mul (x v) s) (mul (y v) s).

(** Modelled from the spec: [v / s], each component over the scalar. *)
Definition over (v : t) (s : float) : t := mk (div (x v) s) (div (y v) s).

(** Modelled from the spec: [-v], each component negated. *)
Definition neg (v : t) : t := mk (opp (x v)) (opp (y v)).

(** Modelled from the spec: [magnitude()], the Euclidean norm. *)
Definition magnitude (v : t) : float :=
  sqrt (add (mul (x v) (x v)) (mul (y v) (y v))).

(** Modelled from the spec: [normalized()], the vector over its magnitude. *)
Definition normalized (v : t) : t := over v (magnitude v).

(** Componentwise [Float32.same]. *)
Definition same (a b : t) : Prop :=
  Float32.same (x a) (x b) /\ Float32.same (y a) (y b).

Definition is_finite (v : t) : bool :=
  Float32.is_finite (x v) && Float32.is_finite (y v).

(** Both coordinates are a zero, of either sign. *)
Definition is_zero (v : t) : bool :=
  Float32.is_zero (x v) && Float32.is_zero (y v).

End Vector2D.

(** ** PhysicsBody *)

Module PhysicsBody.

Record t : Type := mk {
  position : Vector2D.t;
  velocity : Vector2D.t;
  acceleration : Vector2D.t;
  mass : float
}.

(** [PhysicsBody()] *)
Definition default : t :=
  mk Vector2D.zero Vector2D.zero Vector2D.zero (of_int 1).

(** [PhysicsBody(position, velocity, mass)].  The constructor assigns the
    three fields it is given and nothing else; [acceleration] is left as
    its default constructor makes it ([Vector2D.h] is not among the
    sources: taken as the zero vector). *)
Definition make (position velocity : Vector2D.t) (mass : float) : t :=
  mk position velocity Vector2D.zero mass.

(** [void update(float dt)] *)
Definition update (b : t) (dt : float) : t :=
  let velocity' := Vector2D.plus (velocity b) (Vector2D.times (acceleration b) dt) in
  let position' := Vector2D.plus (position b) (Vector2D.times velocity' dt) in
  mk position' velocity' Vector2D.zero (mass b).

(** [void applyForce(Vector2D force)] *)
Definition applyForce (b : t) (force : Vector2D.t) : t :=
  mk (position b) (velocity b)
     (Vector2D.plus (acceleration b) (Vector2D.over force (mass b)))
     (mass b).

(** [void applyAcceleration(Vector2D acceleration)].  Inside the body the
    name [acceleration] is the by-value parameter, which hides the member:
    [acceleration += acceleration] doubles the local copy, and the object is
    left as it was. *)
Definition applyAcceleration (b : t) (acceleration : Vector2D.t) : t :=
  let acceleration := Vector2D.plus acceleration acceleration in
  b.

(** [void setMass(float mass)] *)
Definition setMass (b : t) (m : float) : t :=
  mk (position b) (velocity b) (acceleration b) m.

Definition getMass (b : t) : float := mass b.

(** [void setVelocity(Vector2D velocity)] *)
Definition setVelocity (b : t) (v : Vector2D.t) : t :=
  mk (position b) v (acceleration b) (mass b).

Definition getVelocity (b : t) : Vector2D.t := velocity b.

(** [void setPosition(Vector2D position)] *)
Definition setPosition (b : t) (p : Vector2D.t) : t :=
  mk p (velocity b) (acceleration b) (mass b).

Definition getPosition (b : t) : Vector2D.t := position b.

Definition getAcceleration (b : t) : Vector2D.t := acceleration b.

(** [PhysicsBody clone()] *)
Definition clone (b : t) : t := make (position b) (velocity b) (mass b).

End PhysicsBody.

#[global] Instance PhysicsBody_inhabited : Inhabited PhysicsBody.t :=
  populate PhysicsBody.default.

(** ** PhysicsWorld *)

Module PhysicsWorld.

Record t : Type := mk {
  ticks : Z;
  bodies : list PhysicsBody.t
}.

Definition INT_MAX : Z := 2147483647.
Definition INT_MIN : Z := -2147483648.

(** The value an [int] holds after an arithmetic result [n]: [n] itself
    inside the range, and the two's-complement wrap outside it (signed
    overflow is undefined in the language; the wrap is what the increment
    instruction of the target does). *)
Definition int_wrap (n : Z) : Z := (n + 2 ^ 31) mod 2 ^ 32 - 2 ^ 31.

(** [PhysicsWorld()] *)
Definition empty : t := mk 0 [].

(** [void addBody(PhysicsBody body)] *)
Definition addBody (w : t) (body : PhysicsBody.t) : t :=
  mk (ticks w) (bodies w ++ [body]).

(** Where objects live.  [&bodies[i]] is the address of slot [i] of the
    vector's buffer, [data + i * sizeof(PhysicsBody)]; [&body] is the
    address of the by-value parameter of [removeBody], an object of its own
    for the duration of the call. *)
Record layout : Type := mkLayout { data : Z; param : Z }.

Definition sizeof_PhysicsBody : Z := 28.

Definition slot_address (L : layout) (i : nat) : Z :=
  data L + Z.of_nat i * sizeof_PhysicsBody.

(** The parameter object does not overlap the buffer of [n] slots: two
    objects alive at the same time occupy disjoint storage. *)
Definition separate (L : layout) (n : nat) : Prop :=
  param L + sizeof_PhysicsBody <= data L
  \/ data L + Z.of_nat n * sizeof_PhysicsBody <= param L.

(** The loop of [removeBody] from index [i], with [remaining] slots to
    visit: [if (&bodies[i] == &body) { bodies.erase(begin() + i); return; }] *)
Fixpoint removeBody_loop (L : layout) (remaining i : nat)
    (bs : list PhysicsBody.t) : list PhysicsBody.t :=
  match remaining with
  | O => bs
  | S r =>
      if Z.eqb (slot_address L i) (param L) then delete i bs
      else removeBody_loop L r (S i) bs
  end.

(** [void removeBody(PhysicsBody body)]: only the address of [body] is
    used, never its value. *)
Definition removeBody (L : layout) (w : t) (body : PhysicsBody.t) : t :=
  mk (ticks w) (removeBody_loop L (length (bodies w)) 0 (bodies w)).

(** The loop of [update] from index [i]: [bodies[i].update(dt)] in place. *)
Fixpoint update_loop (dt : float) (remaining i : nat)
    (bs : list PhysicsBody.t) : list PhysicsBody.t :=
  match remaining with
  | O => bs
  | S r =>
      update_loop dt r (S i) (alter (fun b => PhysicsBody.update b dt) i bs)
  end.

(** [void update(float dt)] *)
Definition update (w : t) (dt : float) : t :=
  mk (int_wrap (ticks w + 1))
     (update_loop dt (length (bodies w)) 0 (bodies w)).

(** The loop of [clone] from index [i]:
    [world.addBody(bodies[i].clone())]. *)
Fixpoint clone_loop (src : list PhysicsBody.t) (remaining i : nat)
    (world : t) : t :=
  match remaining with
  | O => world
  | S r =>
      clone_loop src r (S i) (addBody world (PhysicsBody.clone (src !!! i)))
  end.

(** [PhysicsWorld clone()] *)
Definition clone (w : t) : t :=
  clone_loop (bodies w) (length (bodies w)) 0 (mk (ticks w) []).

End PhysicsWorld.

(** ** main.cpp: gravity and the trajectory preview *)

Definition GRAVITATIONAL_CONSTANT : float := of_int 66700000.

(** Lines 91-94 of [applyGravitationalForces]: the force on [body1]. *)
Definition gravitational_force (strength : float)
    (body1 body2 : PhysicsBody.t) : Vector2D.t :=
  let distance :=
    Vector2D.minus (PhysicsBody.getPosition body2)
                   (PhysicsBody.getPosition body1) in
  let distanceMagnitude := Vector2D.magnitude distance in
  let forceMagnitude :=
    div strength (mul distanceMagnitude distanceMagnitude) in
  Vector2D.times (Vector2D.normalized distance) forceMagnitude.

(** The divisor of line 93. *)
Definition force_divisor (body1 body2 : PhysicsBody.t) : float :=
  let distance :=
    Vector2D.minus (PhysicsBody.getPosition body2)
                   (PhysicsBody.getPosition body1) in
  let distanceMagnitude := Vector2D.magnitude distance in
  mul distanceMagnitude distanceMagnitude.

(** The body of the inner loop for slots [i] and [j]: both bodies are
    references into the vector and are updated in place. *)
Definition interact (strength : float) (i j : nat)
    (bs : list PhysicsBody.t) : list PhysicsBody.t :=
  let body1 := bs !!! i in
  let body2 := bs !!! j in
  let force := gravitational_force strength body1 body2 in
  let bs := alter (fun b => PhysicsBody.applyForce b force) i bs in
  alter (fun b => PhysicsBody.applyForce b (Vector2D.neg force)) j bs.

(** [for (int j = i + 1; j < size; j++)], from index [j]. *)
Fixpoint gravity_inner (strength : float) (i remaining j : nat)
    (bs : list PhysicsBody.t) : list PhysicsBody.t :=
  match remaining with
  | O => bs
  | S r => gravity_inner strength i r (S j) (interact strength i j bs)
  end.

(** [for (int i = 0; i < size; i++)], from index [i]. *)
Fixpoint gravity_outer (strength : float) (remaining i : nat)
    (bs : list PhysicsBody.t) : list PhysicsBody.t :=
  match remaining with
  | O => bs
  | S r =>
      gravity_outer strength r (S i)
        (gravity_inner strength i (length bs - S i) (S i) bs)
  end.

(** [void applyGravitationalForces(float strength, PhysicsWorld &world)] *)
Definition applyGravitationalForces (strength : float)
    (world : PhysicsWorld.t) : PhysicsWorld.t :=
  PhysicsWorld.mk (PhysicsWorld.ticks world)
    (gravity_outer strength (length (PhysicsWorld.bodies world)) 0
       (PhysicsWorld.bodies world)).

(** One pass of the preview loop of [main] (lines 142-144) on the copy, for
    a sampling distance, a strength and the index of the body that is
    followed: the new copy and the point that is recorded. *)
Definition preview_step (samplingDistance strength : float) (target : nat)
    (world_copy : PhysicsWorld.t) : PhysicsWorld.t * Vector2D.t :=
  let speed :=
    Vector2D.magnitude
      (PhysicsBody.getVelocity (PhysicsWorld.bodies world_copy !!! target)) in
  let stepped := PhysicsWorld.update world_copy (div samplingDistance speed) in
  let forced := applyGravitationalForces strength stepped in
  (forced, PhysicsBody.getPosition (PhysicsWorld.bodies forced !!! target)).

(** [horizon] passes from a copy; the points in the order they are added. *)
Fixpoint preview_loop (samplingDistance strength : float) (target : nat)
    (horizon : nat) (world_copy : PhysicsWorld.t)
    : PhysicsWorld.t * list Vector2D.t :=
  match horizon with
  | O => (world_copy, [])
  | S h =>
      let '(next, point) :=
        preview_step samplingDistance strength target world_copy in
      let '(final, points) :=
        preview_loop samplingDistance strength target h next in
      (final, point :: points)
  end.

(** Lines 139-145: clear the trajectory, clone the world, run the loop. *)
Definition preview (samplingDistance strength : float) (target horizon : nat)
    (world : PhysicsWorld.t) : list Vector2D.t :=
  snd (preview_loop samplingDistance strength target horizon
         (PhysicsWorld.clone world)).

(** The preview as [main] calls it: body [1], [100] points, [20] units. *)
Definition main_preview (world : PhysicsWorld.t) : list Vector2D.t :=
  preview (of_int 20) GRAVITATIONAL_CONSTANT 1 100 world.

(** The same pass in the order the specification words it, for comparison
    with [preview_step]: the step size from the current speed, then the
    force law on the copy, then the step, then the point. *)
Definition preview_step_as_specified (samplingDistance strength : float)
    (target : nat) (world_copy : PhysicsWorld.t)
    : PhysicsWorld.t * Vector2D.t :=
  let speed :=
    Vector2D.magnitude
      (PhysicsBody.getVelocity (PhysicsWorld.bodies world_copy !!! target)) in
  let forced := applyGravitationalForces strength world_copy in
  let stepped := PhysicsWorld.update forced (div samplingDistance speed) in
  (stepped, PhysicsBody.getPosition (PhysicsWorld.bodies stepped !!! target)).

Fixpoint preview_loop_as_specified (samplingDistance strength : float)
    (target : nat) (horizon : nat) (world_copy : PhysicsWorld.t)
    : PhysicsWorld.t * list Vector2D.t :=
  match horizon with
  | O => (world_copy, [])
  | S h =>
      let '(next, point) :=
        preview_step_as_specified samplingDistance strength target
          world_copy in
      let '(final, points) :=
        preview_loop_as_specified samplingDistance strength target h next in
      (final, point :: points)
  end.

Definition preview_as_specified (samplingDistance strength : float)
    (target horizon : nat) (world : PhysicsWorld.t) : list Vector2D.t :=
  snd (preview_loop_as_specified samplingDistance strength target horizon
         (PhysicsWorld.clone world)).

(** The copy after [n] passes of the preview loop. *)
Fixpoint preview_world (samplingDistance strength : float) (target : nat)
    (n : nat) (world_copy : PhysicsWorld.t) : PhysicsWorld.t :=
  match n with
  | O => world_copy
  | S k =>
      preview_world samplingDistance strength target k
        (fst (preview_step samplingDistance strength target world_copy))
  end.

(** A run of steps, one [dt] after the other. *)
Definition steps (w : PhysicsWorld.t) (dts : list float) : PhysicsWorld.t :=
  foldl PhysicsWorld.update w dts.

(** The pairs [(i, j)] with [i < j < n], in the order the two loops of
    [applyGravitationalForces] visit them. *)
Definition index_pairs (n : nat) : list (nat * nat) :=
  flat_map (fun i => map (fun j => (i, j)) (seq (S i) (n - S i))) (seq 0 n).

(** What a body keeps through a force: where it is, how fast, how heavy. *)
Definition kinematics (b : PhysicsBody.t) : Vector2D.t * Vector2D.t * float :=
  (PhysicsBody.position b, PhysicsBody.velocity b, PhysicsBody.mass b).

(** ** World objects by identity

    [main] holds two [PhysicsWorld] objects, [world] and [world_copy]; each
    owns its vector of bodies.  The store maps the identity of an object to
    its current value, and an action reaches exactly the object it is called
    on. *)

Module Store.

(** What a caller can do to a world object through its public members. *)
Inductive action : Type :=
  | SetPosition (i : nat) (p : Vector2D.t)
  | SetVelocity (i : nat) (v : Vector2D.t)
  | SetMass (i : nat) (m : float)
  | ApplyForce (i : nat) (force : Vector2D.t)
  | ApplyAcceleration (i : nat) (a : Vector2D.t)
  | AddBody (body : PhysicsBody.t)
  | RemoveBody (L : PhysicsWorld.layout) (body : PhysicsBody.t)
  | Update (dt : float)
  | Gravity (strength : float).

Definition on_body (f : PhysicsBody.t -> PhysicsBody.t) (i : nat)
    (w : PhysicsWorld.t) : PhysicsWorld.t :=
  PhysicsWorld.mk (PhysicsWorld.ticks w) (alter f i (PhysicsWorld.bodies w)).

Definition perform (a : action) (w : PhysicsWorld.t) : PhysicsWorld.t :=
  match a with
  | SetPosition i p => on_body (fun b => PhysicsBody.setPosition b p) i w
  | SetVelocity i v => on_body (fun b => PhysicsBody.setVelocity b v) i w
  | SetMass i m => on_body (fun b => PhysicsBody.setMass b m) i w
  | ApplyForce i f => on_body (fun b => PhysicsBody.applyForce b f) i w
  | ApplyAcceleration i a =>
      on_body (fun b => PhysicsBody.applyAcceleration b a) i w
  | AddBody body => PhysicsWorld.addBody w body
  | RemoveBody L body => PhysicsWorld.removeBody L w body
  | Update dt => PhysicsWorld.update w dt
  | Gravity strength => applyGravitationalForces strength w
  end.

(** The action [a] on the object [id]. *)
Definition act (id : nat) (a : action)
    (s : gmap nat PhysicsWorld.t) : gmap nat PhysicsWorld.t :=
  alter (perform a) id s.

Definition run (id : nat) (acts : list action)
    (s : gmap nat PhysicsWorld.t) : gmap nat PhysicsWorld.t :=
  foldl (fun s a => act id a s) s acts.

(** [PhysicsWorld dst = src.clone();] *)
Definition clone_to (src dst : nat)
    (s : gmap nat PhysicsWorld.t) : gmap nat PhysicsWorld.t :=
  match s !! src with
  | Some w => <[dst := PhysicsWorld.clone w]> s
  | None => s
  end.

(** The preview loop of [main] on the object [copy]. *)
Fixpoint preview_on (samplingDistance strength : float) (target : nat)
    (horizon : nat) (copy : nat) (s : gmap nat PhysicsWorld.t)
    : gmap nat PhysicsWorld.t * list Vector2D.t :=
  match horizon with
  | O => (s, [])
  | S h =>
      match s !! copy with
      | None => (s, [])
      | Some c =>
          let speed :=
            Vector2D.magnitude
              (PhysicsBody.getVelocity (PhysicsWorld.bodies c !!! target)) in
          let s1 := act copy (Update (div samplingDistance speed)) s in
          let s2 := act copy (Gravity strength) s1 in
          let point :=
            match s2 !! copy with
            | Some c' =>
                PhysicsBody.getPosition (PhysicsWorld.bodies c' !!! target)
            | None => Vector2D.zero
            end in
          let '(final, points) :=
            preview_on samplingDistance strength target h copy s2 in
          (final, point :: points)
      end
  end.

(** Lines 140-145 of [main]: [world_copy] is a clone of [world]. *)
Definition run_preview (samplingDistance strength : float)
    (target horizon : nat) (world world_copy : nat)
    (s : gmap nat PhysicsWorld.t)
    : gmap nat PhysicsWorld.t * list Vector2D.t :=
  preview_on samplingDistance strength target horizon world_copy
    (clone_to world world_copy s).

End Store.

(** ** Inputs used below *)

Definition vec (a b : Z) : Vector2D.t := Vector2D.mk (of_int a) (of_int b).

(** The two bodies of [initWorld]. *)
Definition body_A : PhysicsBody.t :=
  PhysicsBody.make (vec 320 240) (vec 40 0) (of_int 10).
Definition body_B : PhysicsBody.t :=
  PhysicsBody.make (vec 320 60) (vec (-400) 0) (of_int 1).

(** [initWorld] on a new world. *)
Definition initWorld : PhysicsWorld.t :=
  PhysicsWorld.addBody (PhysicsWorld.addBody PhysicsWorld.empty body_A) body_B.

(** A body at the origin moving right with unit speed. *)
Definition unit_mover : PhysicsBody.t :=
  PhysicsBody.make (vec 0 0) (vec 1 0) (of_int 1).

(** A world whose counter is at the top of the [int] range. *)
Definition last_tick_world : PhysicsWorld.t :=
  PhysicsWorld.mk PhysicsWorld.INT_MAX [unit_mover].

(** A body built with mass zero, and the world it is added to. *)
Definition massless_body : PhysicsBody.t :=
  PhysicsBody.make (vec 0 0) (vec 0 0) (of_int 0).
Definition massless_world : PhysicsWorld.t :=
  PhysicsWorld.addBody PhysicsWorld.empty massless_body.

(** Every body of the world has a mass above zero. *)
Definition positive_masses (w : PhysicsWorld.t) : Prop :=
  forall b : PhysicsBody.t,
    In b (PhysicsWorld.bodies w) ->
    Float32.ltb pzero (PhysicsBody.mass b) = true.

(** A program state with one world object, [initWorld], under identity 0. *)
Definition one_world_store : gmap nat PhysicsWorld.t :=
  {[ 0%nat := initWorld ]}.

(** Moving and re-weighing bodies of a world, then stepping it. *)
Definition sample_actions : list Store.action :=
  [Store.SetPosition 0 (vec 1 1); Store.SetVelocity 1 (vec 0 7);
   Store.SetMass 1 (of_int 5); Store.Update (of_int 1)].

(** The buffer at address 4096, the parameter on the stack at 65536. *)
Definition sample_layout : PhysicsWorld.layout :=
  PhysicsWorld.mkLayout 4096 65536.

(** ** The real number a [float] stands for *)

Module Real32.

Local Open Scope R_scope.

(** The power of two [2^e], for an exponent of either sign. *)
Definition bpow (e : Z) : R := powerRZ 2 e.

(** The real number a finite [float] stands for; [0] for the others. *)
Definition F2R (a : float) : R :=
  match a with
  | S754_finite s m e =>
      (if s then - IZR (Z.pos m) else IZR (Z.pos m)) * bpow e
  | _ => 0
  end.

(** [t] lies in [[m, m + 1)] at the place [l] says: on [m], below the
    middle, on the middle or above it. *)
Definition located (t : R) (m : Z) (l : location) : Prop :=
  match l with
  | loc_Exact => t = IZR m
  | loc_Inexact Lt => IZR m < t < IZR m + / 2
  | loc_Inexact Eq => t = IZR m + / 2
  | loc_Inexact Gt => IZR m + / 2 < t < IZR m + 1
  end.

(** [r] is [v] rounded: within a relative error of [2^-24] of the result
    and an absolute error of [2^-150], the error of an underflow. *)
Definition rounds_to (r v : R) : Prop :=
  Rabs (r - v) <= bpow (-24) * Rabs r + bpow (-150).

(** What one rounding can add to a result of magnitude at most [M]. *)
Definition rounding (M : R) : R := bpow (-24) * M + bpow (-150).

(** A finite value of magnitude at most [M]. *)
Definition small (M : R) (a : float) : Prop :=
  is_finite a = true /\ Rabs (F2R a) <= M.

(** The value of a [float] as a numerator and a denominator. *)
Definition ratio (a : float) : Z * Z :=
  match a with
  | S754_finite s m e =>
      if (0 <=? e)%Z then (cond_Zopp s (Z.pos m) * 2 ^ e, 1)%Z
      else (cond_Zopp s (Z.pos m), 2 ^ (- e))%Z
  | _ => (0, 1)%Z
  end.

End Real32.

Import Real32.

(** ** Frame2D *)

Module Frame2D.

Local Open Scope R_scope.

(** The cosine and the sine of the C library on [float].  The library is
    not part of the repository: its two functions are a parameter of the
    transforms. *)
Record trig : Type := mkTrig {
  cosine : float -> float;
  sine : float -> float
}.

(** Modelled from the spec: [Frame2D.h] is not among the sources.  A frame
    has an optional parent, a position, a rotation in radians and a scale
    per axis, all in floating point.  A value of this type is a finite
    chain towards the root, so no frame is its own ancestor. *)
#[local] Unset Elimination Schemes.
Inductive t : Type :=
  | Frame (parent : option t) (position : Vector2D.t) (rotation : float)
      (scale : Vector2D.t).
#[local] Set Elimination Schemes.

(** Modelled from the spec: the scale step, per axis. *)
Definition scaled (s p : Vector2D.t) : Vector2D.t :=
  Vector2D.mk (mul (Vector2D.x p) (Vector2D.x s))
    (mul (Vector2D.y p) (Vector2D.y s)).

(** The four products of a rotation by the angle [a]. *)
Definition products (T : trig) (a : float) (p : Vector2D.t) : list float :=
  [ mul (Vector2D.x p) (cosine T a); mul (Vector2D.y p) (sine T a);
    mul (Vector2D.x p) (sine T a); mul (Vector2D.y p) (cosine T a) ].

(** Modelled from the spec: the rotation step, by the angle [a]. *)
Definition rotated (T : trig) (a : float) (p : Vector2D.t) : Vector2D.t :=
  Vector2D.mk
    (sub (mul (Vector2D.x p) (cosine T a)) (mul (Vector2D.y p) (sine T a)))
    (add (mul (Vector2D.x p) (sine T a)) (mul (Vector2D.y p) (cosine T a))).

(** Modelled from the spec: the translation step. *)
Definition translated (d p : Vector2D.t) : Vector2D.t := Vector2D.plus p d.

(** Modelled from the spec: inverse-translate. *)
Definition untranslated (d p : Vector2D.t) : Vector2D.t :=
  Vector2D.minus p d.

(** Modelled from the spec: inverse-rotate, the rotation by the opposite
    angle. *)
Definition unrotated (T : trig) (a : float) (p : Vector2D.t) : Vector2D.t :=
  rotated T (opp a) p.

(** Modelled from the spec: inverse-scale, per axis. *)
Definition unscaled (s p : Vector2D.t) : Vector2D.t :=
  Vector2D.mk (div (Vector2D.x p) (Vector2D.x s))
    (div (Vector2D.y p) (Vector2D.y s)).

(** Modelled from the spec: [toGlobal] applies this frame's scale, then its
    rotation, then its translation, and then the parent's [toGlobal] when
    there is a parent. *)
Fixpoint toGlobal (T : trig) (f : t) (p : Vector2D.t) : Vector2D.t :=
  match f with
  | Frame parent position rotation scale =>
      let q := translated position (rotated T rotation (scaled scale p)) in
      match parent with
      | Some g => toGlobal T g q
      | None => q
      end
  end.

(** Modelled from the spec: [toLocal] walks from the root down to this
    frame, applying inverse-translate, inverse-rotate and inverse-scale at
    each level. *)
Fixpoint toLocal (T : trig) (f : t) (p : Vector2D.t) : Vector2D.t :=
  match f with
  | Frame parent position rotation scale =>
      let q :=
        match parent with
        | Some g => toLocal T g p
        | None => p
        end in
      unscaled scale (unrotated T rotation (untranslated position q))
  end.

(** Number of frames on the chain up to the root. *)
Fixpoint depth (f : t) : nat :=
  match f with
  | Frame (Some g) _ _ _ => S (depth g)
  | Frame None _ _ _ => 1
  end.

Definition coordinates (v : Vector2D.t) : list float :=
  [Vector2D.x v; Vector2D.y v].

(** The values one level computes on the way to the global coordinates:
    the scaled point, the four products, the rotated point and the
    translated point. *)
Definition outward (T : trig) (d : Vector2D.t) (a : float)
    (s p : Vector2D.t) : list float :=
  coordinates (scaled s p) ++ products T a (scaled s p)
  ++ coordinates (rotated T a (scaled s p))
  ++ coordinates (translated d (rotated T a (scaled s p))).

(** The values one level computes on the way back. *)
Definition inward (T : trig) (d : Vector2D.t) (a : float)
    (s q : Vector2D.t) : list float :=
  coordinates (untranslated d q) ++ products T (opp a) (untranslated d q)
  ++ coordinates (unrotated T a (untranslated d q))
  ++ coordinates (unscaled s (unrotated T a (untranslated d q))).

(** Every value computed by [toLocal f (toGlobal f p)], level by level. *)
Fixpoint computed (T : trig) (f : t) (p : Vector2D.t) : list float :=
  match f with
  | Frame parent d a s =>
      let q := translated d (rotated T a (scaled s p)) in
      match parent with
      | Some g =>
          outward T d a s p ++ computed T g q
          ++ inward T d a s (toLocal T g (toGlobal T g q))
      | None => outward T d a s p ++ inward T d a s q
      end
  end.

(** No value computed on the way there and back overflows, and [M] bounds
    them all. *)
Definition bounded_run (T : trig) (M : R) (f : t) (p : Vector2D.t) : Prop :=
  Forall (small M) (computed T f p).

(** How well the library's cosine and sine at [-a] undo the rotation by
    [a]: the product of the two rotations is the identity up to [tau]. *)
Definition accurate_at (T : trig) (tau : R) (a : float) : Prop :=
  let c := F2R (cosine T a) in
  let s := F2R (sine T a) in
  let c' := F2R (cosine T (opp a)) in
  let s' := F2R (sine T (opp a)) in
  Rabs c' <= 1 /\ Rabs s' <= 1
  /\ Rabs (c * c' - s * s' - 1) <= tau
  /\ Rabs (s * c' + c * s') <= tau.

Fixpoint accurate (T : trig) (tau : R) (f : t) : Prop :=
  match f with
  | Frame parent _ a _ =>
      accurate_at T tau a /\
      match parent with
      | Some g => accurate T tau g
      | None => True
      end
  end.

(** No scale factor on the chain is zero (or an infinity or a NaN). *)
Fixpoint nonzero_scales (f : t) : Prop :=
  match f with
  | Frame parent _ _ scale =>
      F2R (Vector2D.x scale) <> 0 /\ F2R (Vector2D.y scale) <> 0 /\
      match parent with
      | Some g => nonzero_scales g
      | None => True
      end
  end.

(** The tolerance of the way there and back: at each level twice the
    tolerance of the parent, fourteen roundings and the error of the
    library's cosine and sine, over the smaller scale factor, and one more
    rounding. *)
Fixpoint tolerance (M tau : R) (f : t) : R :=
  match f with
  | Frame parent _ _ s =>
      let e :=
        match parent with
        | Some g => tolerance M tau g
        | None => 0
        end in
      (2 * e + 14 * rounding M + 2 * tau * M)
      / Rmin (Rabs (F2R (Vector2D.x s))) (Rabs (F2R (Vector2D.y s)))
      + rounding M
  end.

(** Induction along the chain, from the root to the frame. *)
Fixpoint chain_ind (P : t -> Prop)
    (Hroot : forall position rotation scale,
       P (Frame None position rotation scale))
    (Hchild : forall g position rotation scale,
       P g -> P (Frame (Some g) position rotation scale))
    (f : t) : P f :=
  match f with
  | Frame None position rotation scale => Hroot position rotation scale
  | Frame (Some g) position rotation scale =>
      Hchild g position rotation scale (chain_ind P Hroot Hchild g)
  end.

(** Two finite points with both coordinates within [tol] of each other. *)
Definition within (tol : R) (a b : Vector2D.t) : Prop :=
  Vector2D.is_finite a = true /\ Vector2D.is_finite b = true
  /\ Rabs (F2R (Vector2D.x a) - F2R (Vector2D.x b)) <= tol
  /\ Rabs (F2R (Vector2D.y a) - F2R (Vector2D.y b)) <= tol.

(** The library at an angle of magnitude at most [2^-13], a zero included:
    there the cosine rounds to [1] and the sine to the angle itself. *)
Definition small_angle : trig := mkTrig (fun _ => of_int 1) (fun a => a).

(** [0.01f] *)
Definition hundredth : float := div (of_int 1) (of_int 100).

(** A root frame far from the origin with a small scale. *)
Definition far_frame : t :=
  Frame None (vec 1000 0) pzero (Vector2D.mk hundredth hundredth).

(** A root frame at [2^25] from the origin, with the scale [1]. *)
Definition remote_frame : t :=
  Frame None (vec 33554432 0) pzero (vec 1 1).

(** A root frame that flattens the first axis. *)
Definition flat_frame : t :=
  Frame None (vec 0 0) pzero (vec 0 1).

(** Three nested frames with different positions, rotations and scales. *)
Definition chain3 : t :=
  Frame
    (Some (Frame
       (Some (Frame None (vec 1 2) pzero (vec 2 3)))
       (vec (-4) 5) (div (of_int 1) (of_int 8192))
       (Vector2D.mk (div (of_int 1) (of_int 2)) (of_int (-7)))))
    (vec 10 (-3)) (div (of_int (-1)) (of_int 16384))
    (Vector2D.mk (of_int 3) (div (of_int 1) (of_int 4))).

End Frame2D.

(** ** More of physics.h and main.cpp *)

#[global] Instance Vector2D_inhabited : Inhabited Vector2D.t :=
  populate Vector2D.zero.

(** The vector whose two coordinates are NaN. *)
Definition nan_vector : Vector2D.t := Vector2D.mk S754_nan S754_nan.

(** [Vector2D getTotalForce()] of [PhysicsBody]: [acceleration * mass]. *)
Definition getTotalForce (b : PhysicsBody.t) : Vector2D.t :=
  Vector2D.times (PhysicsBody.acceleration b) (PhysicsBody.mass b).

(** Lines 136-137 of [main]: one pass of the live loop on [world]. *)
Definition main_tick (world : PhysicsWorld.t) (deltaTime : float)
    : PhysicsWorld.t :=
  applyGravitationalForces GRAVITATIONAL_CONSTANT
    (PhysicsWorld.update world deltaTime).

(** The live loop of [main] over a run of frame times. *)
Definition main_run (world : PhysicsWorld.t) (deltaTimes : list float)
    : PhysicsWorld.t :=
  foldl main_tick world deltaTimes.

(** At least one coordinate is a NaN. *)
Definition has_nan (v : Vector2D.t) : Prop :=
  Vector2D.x v = S754_nan \/ Vector2D.y v = S754_nan.

(** ** graphics.h: colours and what a drawable asks of the camera *)

Module Color.

Record t : Type := mk { r : Z; g : Z; b : Z; a : Z }.

(** [Color(int r, int g, int b)] *)
Definition rgb (r g b : Z) : t := mk r g b 255.

Definition gray : t := rgb 128 128 128.
Definition darkGray : t := rgb 64 64 64.

End Color.

(** The calls a drawable makes on the [Camera] it is given. *)
Inductive camera_call : Type :=
  | SetDrawColor (color : Color.t)
  | DrawLine (start finish : Vector2D.t)
  | DrawCircle (center : Vector2D.t) (radius : float)
  | DrawArrow (start finish : Vector2D.t).

(** ** main.cpp: TrajectoryDrawable *)

Module TrajectoryDrawable.

(** [void addPoint(Vector2D point)] on the [points] of the object. *)
Definition addPoint (points : list Vector2D.t) (point : Vector2D.t)
    : list Vector2D.t :=
  points ++ [point].

(** [void clear()] *)
Definition clear (points : list Vector2D.t) : list Vector2D.t := [].

(** [for (int i = 0; i < points.size() - 1; ++i)], from index [i]:
    [camera->drawLine(points[i], points[i + 1])]. *)
Fixpoint draw_loop (remaining i : nat) (points : list Vector2D.t)
    : list camera_call :=
  match remaining with
  | O => []
  | S r =>
      DrawLine (points !!! i) (points !!! S i) :: draw_loop r (S i) points
  end.

(** [void draw(Camera *camera)]: the colour is set first, then fewer than
    two points end the call, and only then is [points.size() - 1] formed. *)
Definition draw (points : list Vector2D.t) : list camera_call :=
  SetDrawColor Color.gray ::
  (if (length points <? 2)%nat then []
   else draw_loop (length points - 1) 0 points).

End TrajectoryDrawable.

(** Lines 139-145 of [main] as seen by [trajectoryDrawable1]: [clear()],
    then one [addPoint] for each point of the preview. *)
Definition main_trajectory (old : list Vector2D.t) (world : PhysicsWorld.t)
    : list Vector2D.t :=
  foldl TrajectoryDrawable.addPoint (TrajectoryDrawable.clear old)
    (main_preview world).

(** ** graphics.h: the pool of drawables of [Camera] *)

Module Camera.

(** A [Drawable*] is the identity of the object it points to; [depth p] is
    the field [depth] of the object [p] at the time of the call. *)
Fixpoint addDrawable_loop (depth : nat -> Z) (drawable : nat)
    (remaining i : nat) (drawables : list nat) : list nat :=
  match remaining with
  | O => drawables
  | S r =>
      if Z.gtb (depth (drawables !!! i)) (depth drawable)
      then take i drawables ++ drawable :: drop i drawables
      else addDrawable_loop depth drawable r (S i) drawables
  end.

(** [static void addDrawable(Drawable* drawable)] *)
Definition addDrawable (depth : nat -> Z) (drawables : list nat)
    (drawable : nat) : list nat :=
  let drawables :=
    if Nat.eqb (length drawables) 0 then drawables ++ [drawable]
    else drawables in
  addDrawable_loop depth drawable (length drawables) 0 drawables.

Fixpoint removeDrawable_loop (drawable : nat) (remaining i : nat)
    (drawables : list nat) : list nat :=
  match remaining with
  | O => drawables
  | S r =>
      if Nat.eqb (drawables !!! i) drawable then delete i drawables
      else removeDrawable_loop drawable r (S i) drawables
  end.

(** [static void removeDrawable(Drawable* drawable)] *)
Definition removeDrawable (drawables : list nat) (drawable : nat)
    : list nat :=
  removeDrawable_loop drawable (length drawables) 0 drawables.

(** The drawables of the program: the [depth] field of each object and the
    static pool. *)
Record registry : Type := mkRegistry {
  depth_of : nat -> Z;
  pool : list nat
}.

Definition set_depth (this : nat) (d : Z) (depth : nat -> Z) : nat -> Z :=
  fun p => if Nat.eqb p this then d else depth p.

(** [Drawable::Drawable()] on the object [this]: the member initializer
    [int depth = 0], then [Camera::addDrawable(this)]. *)
Definition Drawable_constructor (this : nat) (R : registry) : registry :=
  let depth := set_depth this 0 (depth_of R) in
  mkRegistry depth (addDrawable depth (pool R) this).

(** The constructor of a class derived from [Drawable] ([BodyDrawable],
    [GridDrawable], [TrajectoryDrawable]): the base constructor runs first,
    then the body assigns [this->depth]. *)
Definition derived_constructor (class_depth : Z) (this : nat)
    (R : registry) : registry :=
  let R1 := Drawable_constructor this R in
  mkRegistry (set_depth this class_depth (depth_of R1)) (pool R1).

(** [Drawable::~Drawable()] *)
Definition Drawable_destructor (this : nat) (R : registry) : registry :=
  mkRegistry (depth_of R) (removeDrawable (pool R) this).

(** The pool in non-decreasing order of depth: no drawable is deeper than
    one that comes after it. *)
Fixpoint depth_sorted (depth : nat -> Z) (drawables : list nat) : Prop :=
  match drawables with
  | [] => True
  | p :: rest =>
      Forall (fun q => depth p <= depth q) rest /\ depth_sorted depth rest
  end.

End Camera.

(** ** main.cpp: GridDrawable *)

Module GridDrawable.

(** [for (int x = 0; x < width; x += spacing)], from [x], at most [fuel]
    passes: [camera->drawLine(Vector2D(x, 0), Vector2D(x, height))].  The
    result is [None] when the loop has not ended within [fuel] passes. *)
Fixpoint vertical_lines (fuel : nat) (width height spacing x : Z)
    : option (list camera_call) :=
  match fuel with
  | O => None
  | S f =>
      if x <? width then
        option_map (cons (DrawLine (vec x 0) (vec x height)))
          (vertical_lines f width height spacing
             (PhysicsWorld.int_wrap (x + spacing)))
      else Some []
  end.

(** [for (int y = 0; y < height; y += spacing)], from [y]:
    [camera->drawLine(Vector2D(0, y), Vector2D(width, y))]. *)
Fixpoint horizontal_lines (fuel : nat) (width height spacing y : Z)
    : option (list camera_call) :=
  match fuel with
  | O => None
  | S f =>
      if y <? height then
        option_map (cons (DrawLine (vec 0 y) (vec width y)))
          (horizontal_lines f width height spacing
             (PhysicsWorld.int_wrap (y + spacing)))
      else Some []
  end.

(** [void draw(Camera *camera)] of a grid built with [width], [height] and
    [spacing]. *)
Definition draw (fuel : nat) (width height spacing : Z)
    : option (list camera_call) :=
  match vertical_lines fuel width height spacing 0 with
  | Some vs =>
      match horizontal_lines fuel width height spacing 0 with
      | Some hs => Some (SetDrawColor Color.darkGray :: vs ++ hs)
      | None => None
      end
  | None => None
  end.

(** How many multiples of [spacing], from [0] on, are below [limit]. *)
Definition line_count (limit spacing : Z) : nat :=
  Z.to_nat ((limit + spacing - 1) / spacing).

End GridDrawable.

(** ** graphics.h: the drawing routines of namespace [draw] *)

(** The calls made on the renderer.  An argument that the source computes
    as a [float] is kept as that [float]; the call itself takes [int]. *)
Inductive sdl_call : Type :=
  | RenderDrawPoint (x y : float)
  | RenderDrawLine (x1 y1 x2 y2 : float).

Module draw.

(** The conversion of [int x = radius]: the fraction is dropped.  A value
    outside the range of [int], an infinity or a NaN has no defined result
    in the language; the conversion instruction of the target answers
    [INT_MIN]. *)
Definition to_int (a : float) : Z :=
  match a with
  | S754_zero _ => 0
  | S754_finite s m e =>
      let magnitude :=
        if 0 <=? e then Z.pos m * 2 ^ e else Z.pos m / 2 ^ (- e) in
      let v := if s then - magnitude else magnitude in
      if (PhysicsWorld.INT_MIN <=? v) && (v <=? PhysicsWorld.INT_MAX)
      then v else PhysicsWorld.INT_MIN
  | _ => PhysicsWorld.INT_MIN
  end.

(** [void line(renderer, start, end)] *)
Definition line (start finish : Vector2D.t) : sdl_call :=
  RenderDrawLine (Vector2D.x start) (Vector2D.y start)
    (Vector2D.x finish) (Vector2D.y finish).

(** The eight points of one pass of the loop of [circle]. *)
Definition circle_points (center : Vector2D.t) (x y : Z) : list sdl_call :=
  [ RenderDrawPoint (add (Vector2D.x center) (of_int x))
      (add (Vector2D.y center) (of_int y));
    RenderDrawPoint (add (Vector2D.x center) (of_int y))
      (add (Vector2D.y center) (of_int x));
    RenderDrawPoint (sub (Vector2D.x center) (of_int y))
      (add (Vector2D.y center) (of_int x));
    RenderDrawPoint (sub (Vector2D.x center) (of_int x))
      (add (Vector2D.y center) (of_int y));
    RenderDrawPoint (sub (Vector2D.x center) (of_int x))
      (sub (Vector2D.y center) (of_int y));
    RenderDrawPoint (sub (Vector2D.x center) (of_int y))
      (sub (Vector2D.y center) (of_int x));
    RenderDrawPoint (add (Vector2D.x center) (of_int y))
      (sub (Vector2D.y center) (of_int x));
    RenderDrawPoint (add (Vector2D.x center) (of_int x))
      (sub (Vector2D.y center) (of_int y)) ].

(** The two tests at the end of a pass, on the [int] variables [x], [y] and
    [err]: [if (err <= 0) { y += 1; err += 2*y + 1; }] and then
    [if (err > 0) { x -= 1; err -= 2*x + 1; }]. *)
Definition circle_step (x y err : Z) : Z * Z * Z :=
  let '(y, err) :=
    if err <=? 0 then
      let y := PhysicsWorld.int_wrap (y + 1) in
      (y,
       PhysicsWorld.int_wrap
         (err + PhysicsWorld.int_wrap (PhysicsWorld.int_wrap (2 * y) + 1)))
    else (y, err) in
  if err >? 0 then
    let x := PhysicsWorld.int_wrap (x - 1) in
    (x, y,
     PhysicsWorld.int_wrap
       (err - PhysicsWorld.int_wrap (PhysicsWorld.int_wrap (2 * x) + 1)))
  else (x, y, err).

(** [while (x >= y)], at most [fuel] passes; [None] when the loop has not
    ended within them. *)
Fixpoint circle_loop (fuel : nat) (center : Vector2D.t) (x y err : Z)
    : option (list sdl_call) :=
  match fuel with
  | O => None
  | S f =>
      if x >=? y then
        let '(x', y', err') := circle_step x y err in
        option_map (app (circle_points center x y))
          (circle_loop f center x' y' err')
      else Some []
  end.

(** [void circle(renderer, center, radius)] *)
Definition circle (fuel : nat) (center : Vector2D.t) (radius : float)
    : option (list sdl_call) :=
  circle_loop fuel center (to_int radius) 0 0.


(** [void arrow(renderer, start, end)].  [perpendicular] stands for the
    member of [Vector2D.h], not among the sources, that the routine calls;
    [dir /= m] is taken as the division of both coordinates. *)
Definition arrow (perpendicular : Vector2D.t -> Vector2D.t)
    (start finish : Vector2D.t) : list sdl_call :=
  let dir := Vector2D.minus finish start in
  let dir := Vector2D.over dir (Vector2D.magnitude dir) in
  let perp := perpendicular dir in
  let arrow1 :=
    Vector2D.plus
      (Vector2D.minus finish (Vector2D.times dir (of_int 10)))
      (Vector2D.times perp (of_int 5)) in
  let arrow2 :=
    Vector2D.minus
      (Vector2D.minus finish (Vector2D.times dir (of_int 10)))
      (Vector2D.times perp (of_int 5)) in
  [line start finish; line finish arrow1; line finish arrow2].

End draw.

(** * Properties *)

(** ** Arithmetic of binary32 around zero *)

Section Float32Facts.

Lemma same_refl (a : float) : Float32.same a a.
Proof. left; reflexivity. Qed.

(** A zero times a finite number is a zero. *)
Lemma mul_zero_finite (z dt : float) :
  is_zero z = true -> Float32.is_finite dt = true ->
  is_zero (mul z dt) = true.
Proof.
  destruct z as [sz|sz| |sz mz ez]; try discriminate.
  destruct dt as [sd|sd| |sd md ed]; try discriminate; reflexivity.
Qed.

(** Adding a zero gives the number back, except that a zero may come back
    with the other sign. *)
Lemma add_zero_r (v z : float) :
  is_zero z = true ->
  add v z = v \/ (is_zero v = true /\ is_zero (add v z) = true).
Proof.
  destruct z as [sz|sz| |sz mz ez]; try discriminate. intros _.
  destruct v as [sv|sv| |sv mv ev].
  - right. split; [reflexivity|]. destruct sv, sz; reflexivity.
  - left; reflexivity.
  - left; reflexivity.
  - left; reflexivity.
Qed.

(** Adding one zero or another makes no difference but the sign of a zero. *)
Lemma add_zeros_same (p z1 z2 : float) :
  is_zero z1 = true -> is_zero z2 = true ->
  Float32.same (add p z1) (add p z2).
Proof.
  destruct z1 as [s1|s1| |s1 m1 e1]; try discriminate.
  destruct z2 as [s2|s2| |s2 m2 e2]; try discriminate. intros _ _.
  destruct p as [sp|sp| |sp mp ep].
  - right. split; destruct sp, s1, s2; reflexivity.
  - left; reflexivity.
  - left; reflexivity.
  - left; reflexivity.
Qed.

(** A number minus itself is the positive zero, when the number is finite. *)
Lemma sub_diag_finite (a : float) :
  Float32.is_finite a = true -> sub a a = pzero.
Proof.
  destruct a as [s|s| |s m e]; try discriminate; intros _.
  - destruct s; reflexivity.
  - unfold sub, SFsub. rewrite Z.sub_diag. reflexivity.
Qed.

(** The square of the negation is the square. *)
Lemma mul_opp_opp (a : float) : mul (opp a) (opp a) = mul a a.
Proof. destruct a as [s|s| |s m e]; try destruct s; reflexivity. Qed.

Lemma magnitude_neg (v : Vector2D.t) :
  Vector2D.magnitude (Vector2D.neg v) = Vector2D.magnitude v.
Proof.
  unfold Vector2D.magnitude, Vector2D.neg; simpl.
  rewrite !mul_opp_opp. reflexivity.
Qed.

(** Rounding does not look at the sign. *)
Lemma opp_binary_round_aux (s : bool) (m e : Z) (l : location) :
  opp (binary_round_aux prec emax s m e l)
  = binary_round_aux prec emax (negb s) m e l.
Proof.
  unfold binary_round_aux.
  destruct (shr_fexp prec emax m e l) as [mrs' e'].
  destruct (shr_fexp prec emax _ e' loc_Exact) as [mrs'' e''].
  destruct (shr_m mrs''); [reflexivity| |reflexivity].
  destruct (Z.leb e'' (Z.sub emax prec)); reflexivity.
Qed.

Lemma opp_binary_round (s : bool) (m : positive) (e : Z) :
  opp (binary_round prec emax s m e) = binary_round prec emax (negb s) m e.
Proof.
  unfold binary_round.
  destruct (shl_align m e _) as [mz ez]. apply opp_binary_round_aux.
Qed.

(** [b - a] is the negation of [a - b], up to the sign of a zero. *)
Lemma sub_swap (a b : float) : Float32.same (sub b a) (opp (sub a b)).
Proof.
  destruct a as [sa|sa| |sa ma ea], b as [sb|sb| |sb mb eb];
    try (left; reflexivity);
    try (destruct sa, sb; first [left; reflexivity | right; split; reflexivity]).
  unfold sub, SFsub. rewrite (Z.min_comm eb ea).
  set (ez := Z.min ea eb).
  set (A := cond_Zopp sa (Z.pos (fst (shl_align ma ea ez)))).
  set (B := cond_Zopp sb (Z.pos (fst (shl_align mb eb ez)))).
  replace (Z.sub B A) with (Z.opp (Z.sub A B)) by lia.
  destruct (Z.sub A B) as [|p|p]; simpl.
  - right; split; reflexivity.
  - left. symmetry. apply (opp_binary_round false).
  - left. symmetry. apply (opp_binary_round true).
Qed.

Lemma mul_opp_l (a f : float) : mul (opp a) f = opp (mul a f).
Proof.
  destruct a as [sa|sa| |sa ma ea], f as [sf|sf| |sf mf ef];
    try reflexivity; try (destruct sa, sf; reflexivity).
  unfold mul, SFmul, opp at 1, SFopp.
  rewrite opp_binary_round_aux. destruct sa, sf; reflexivity.
Qed.

Lemma div_opp_l (a m : float) : div (opp a) m = opp (div a m).
Proof.
  destruct a as [sa|sa| |sa ma ea], m as [sm|sm| |sm mm em];
    try reflexivity; try (destruct sa, sm; reflexivity).
  unfold div, SFdiv, opp at 1, SFopp.
  destruct (SFdiv_core_binary prec emax _ ea _ em) as [[mz ez] lz].
  rewrite opp_binary_round_aux. destruct sa, sm; reflexivity.
Qed.

Lemma mul_zero_kind (z1 z2 f : float) :
  is_zero z1 = true -> is_zero z2 = true ->
  Float32.same (mul z1 f) (opp (mul z2 f)).
Proof.
  destruct z1 as [s1|s1| |s1 m1 e1]; try discriminate.
  destruct z2 as [s2|s2| |s2 m2 e2]; try discriminate. intros _ _.
  destruct f as [sf|sf| |sf mf ef];
    first [left; reflexivity | right; split; reflexivity].
Qed.

Lemma div_zero_kind (z1 z2 m : float) :
  is_zero z1 = true -> is_zero z2 = true ->
  Float32.same (div z1 m) (opp (div z2 m)).
Proof.
  destruct z1 as [s1|s1| |s1 m1 e1]; try discriminate.
  destruct z2 as [s2|s2| |s2 m2 e2]; try discriminate. intros _ _.
  destruct m as [sm|sm| |sm mm em];
    first [left; reflexivity | right; split; reflexivity].
Qed.

Lemma is_zero_opp (a : float) : is_zero (opp a) = is_zero a.
Proof. destruct a; reflexivity. Qed.

Lemma mul_same_opp (a b f : float) :
  Float32.same a (opp b) -> Float32.same (mul a f) (opp (mul b f)).
Proof.
  intros [E | [Ha Hb]].
  - subst a. left. apply mul_opp_l.
  - rewrite is_zero_opp in Hb. apply mul_zero_kind; assumption.
Qed.

Lemma div_same_opp (a b m : float) :
  Float32.same a (opp b) -> Float32.same (div a m) (opp (div b m)).
Proof.
  intros [E | [Ha Hb]].
  - subst a. left. apply div_opp_l.
  - rewrite is_zero_opp in Hb. apply div_zero_kind; assumption.
Qed.

Lemma square_same_opp (a b : float) :
  Float32.same a (opp b) -> mul a a = mul b b.
Proof.
  intros [E | [Ha Hb]].
  - subst a. apply mul_opp_opp.
  - rewrite is_zero_opp in Hb.
    destruct a as [sa|sa| |sa ma ea]; try discriminate.
    destruct b as [sb|sb| |sb mb eb]; try discriminate.
    destruct sa, sb; reflexivity.
Qed.

(** One coordinate of a step with no acceleration and a finite [dt]. *)
Lemma euler_coordinate (p v a dt : float) :
  is_zero a = true -> Float32.is_finite dt = true ->
  Float32.same (add v (mul a dt)) v
  /\ Float32.same (add p (mul (add v (mul a dt)) dt)) (add p (mul v dt)).
Proof.
  intros Ha Hdt.
  pose proof (mul_zero_finite a dt Ha Hdt) as Hz.
  destruct (add_zero_r v (mul a dt) Hz) as [E | [Hv Hv']].
  - rewrite E. split; apply same_refl.
  - split.
    + right. split; assumption.
    + apply add_zeros_same; apply mul_zero_finite; assumption.
Qed.

End Float32Facts.

(** ** PhysicsBody::update *)

(** C1, amended: for every body and every [dt], [update] sets the velocity
    to [velocity + acceleration * dt], then the position to
    [position + velocity' * dt] with that new velocity, and resets the
    acceleration to the zero vector, the mass being kept.  For a body whose
    accumulated acceleration is zero and a finite [dt] (neither
    an infinity nor a NaN), the new velocity is the old one and the new
    position is [position + velocity * dt], as floating-point values (equal,
    except that a zero coordinate may change sign). *)
Theorem update_semi_implicit_euler (b : PhysicsBody.t) (dt : float) :
  PhysicsBody.update b dt =
    PhysicsBody.mk
      (Vector2D.plus (PhysicsBody.position b)
         (Vector2D.times
            (Vector2D.plus (PhysicsBody.velocity b)
               (Vector2D.times (PhysicsBody.acceleration b) dt)) dt))
      (Vector2D.plus (PhysicsBody.velocity b)
         (Vector2D.times (PhysicsBody.acceleration b) dt))
      Vector2D.zero
      (PhysicsBody.mass b)
  /\ (Float32.is_finite dt = true ->
      Vector2D.is_zero (PhysicsBody.acceleration b) = true ->
      Vector2D.same (PhysicsBody.velocity (PhysicsBody.update b dt))
        (PhysicsBody.velocity b)
      /\ Vector2D.same (PhysicsBody.position (PhysicsBody.update b dt))
           (Vector2D.plus (PhysicsBody.position b)
              (Vector2D.times (PhysicsBody.velocity b) dt))).
Proof.
  split; [reflexivity|].
  intros Hdt Ha.
  destruct b as [[px py] [vx vy] [ax ay] m].
  apply andb_prop in Ha. simpl in Ha. destruct Ha as [Hax Hay].
  unfold Vector2D.same; simpl.
  destruct (euler_coordinate px vx ax dt Hax Hdt) as [Hvx Hpx].
  destruct (euler_coordinate py vy ay dt Hay Hdt) as [Hvy Hpy].
  repeat split; assumption.
Qed.

(** The theorem at [unit_mover] and [dt = 2]: the body keeps its velocity
    and moves by twice its velocity. *)
Lemma update_semi_implicit_euler_witness :
  Float32.is_finite (of_int 2) = true
  /\ Vector2D.is_zero (PhysicsBody.acceleration unit_mover) = true
  /\ Vector2D.same
       (PhysicsBody.velocity (PhysicsBody.update unit_mover (of_int 2)))
       (PhysicsBody.velocity unit_mover)
  /\ Vector2D.same
       (PhysicsBody.position (PhysicsBody.update unit_mover (of_int 2)))
       (Vector2D.plus (PhysicsBody.position unit_mover)
          (Vector2D.times (PhysicsBody.velocity unit_mover) (of_int 2))).
Proof.
  split; [reflexivity|]. split; [reflexivity|].
  exact (proj2 (update_semi_implicit_euler unit_mover (of_int 2))
           eq_refl eq_refl).
Defined.

(** C1 as stated fails at an infinite [dt]: the acceleration is zero, yet
    [0 * inf] is a NaN, so the velocity is lost and the position is not
    [position + velocity * dt]. *)
Lemma update_infinite_dt :
  PhysicsBody.acceleration unit_mover = Vector2D.zero
  /\ PhysicsBody.velocity (PhysicsBody.update unit_mover pinf)
       = Vector2D.mk S754_nan S754_nan
  /\ ~ Vector2D.same
         (PhysicsBody.velocity (PhysicsBody.update unit_mover pinf))
         (PhysicsBody.velocity unit_mover)
  /\ ~ Vector2D.same
         (PhysicsBody.position (PhysicsBody.update unit_mover pinf))
         (Vector2D.plus (PhysicsBody.position unit_mover)
            (Vector2D.times (PhysicsBody.velocity unit_mover) pinf)).
Proof.
  split; [reflexivity|]. split; [reflexivity|].
  split; intros [[H | [H _]] _]; vm_compute in H; discriminate.
Qed.

(** ** PhysicsWorld::update *)

Section WorldUpdate.

Lemma int_wrap_in_range (n : Z) :
  PhysicsWorld.INT_MIN <= n <= PhysicsWorld.INT_MAX ->
  PhysicsWorld.int_wrap n = n.
Proof.
  unfold PhysicsWorld.int_wrap, PhysicsWorld.INT_MIN, PhysicsWorld.INT_MAX.
  intros H. rewrite Z.mod_small; lia.
Qed.

(** The loop has integrated exactly the slots it has visited. *)
Lemma update_loop_visits (dt : float) (rest pre post : list PhysicsBody.t) :
  PhysicsWorld.update_loop dt (length rest) (length pre)
    (pre ++ rest ++ post)
  = pre ++ ((fun b => PhysicsBody.update b dt) <$> rest) ++ post.
Proof.
  revert pre. induction rest as [|b rest IH]; intros pre; [reflexivity|].
  cbn [length PhysicsWorld.update_loop].
  replace (alter (fun b0 => PhysicsBody.update b0 dt) (length pre)
             (pre ++ (b :: rest) ++ post))
    with ((pre ++ [PhysicsBody.update b dt]) ++ rest ++ post).
  - replace (S (length pre))
      with (length (pre ++ [PhysicsBody.update b dt]))
      by (rewrite length_app; simpl; lia).
    rewrite IH. rewrite <- app_assoc. reflexivity.
  - rewrite <- app_assoc. simpl.
    replace (length pre) with (length pre + 0)%nat at 1 by lia.
    rewrite (alter_app_r _ pre). reflexivity.
Qed.

Lemma update_loop_prefix (dt : float) (k : nat) (bs : list PhysicsBody.t) :
  (k <= length bs)%nat ->
  PhysicsWorld.update_loop dt k 0 bs
  = ((fun b => PhysicsBody.update b dt) <$> take k bs) ++ drop k bs.
Proof.
  intros Hk.
  pose proof (update_loop_visits dt (take k bs) [] (drop k bs)) as H.
  rewrite length_take, Nat.min_l in H by exact Hk.
  simpl in H. rewrite take_drop in H. exact H.
Qed.

Lemma update_bodies (w : PhysicsWorld.t) (dt : float) :
  PhysicsWorld.bodies (PhysicsWorld.update w dt)
  = (fun b => PhysicsBody.update b dt) <$> PhysicsWorld.bodies w.
Proof.
  simpl. rewrite update_loop_prefix by lia.
  rewrite firstn_all, drop_all. apply app_nil_r.
Qed.

Lemma update_ticks (w : PhysicsWorld.t) (dt : float) :
  PhysicsWorld.INT_MIN <= PhysicsWorld.ticks w < PhysicsWorld.INT_MAX ->
  PhysicsWorld.ticks (PhysicsWorld.update w dt) = PhysicsWorld.ticks w + 1.
Proof.
  intros H. simpl. apply int_wrap_in_range.
  unfold PhysicsWorld.INT_MIN, PhysicsWorld.INT_MAX in *. lia.
Qed.

Lemma steps_ticks (dts : list float) (w : PhysicsWorld.t) :
  PhysicsWorld.INT_MIN <= PhysicsWorld.ticks w ->
  PhysicsWorld.ticks w + Z.of_nat (length dts) <= PhysicsWorld.INT_MAX ->
  PhysicsWorld.ticks (steps w dts)
  = PhysicsWorld.ticks w + Z.of_nat (length dts).
Proof.
  revert w. induction dts as [|dt dts IH]; intros w Hlo Hhi.
  - simpl. lia.
  - cbn [length] in Hhi. rewrite Nat2Z.inj_succ in Hhi.
    unfold steps in *. cbn [foldl].
    assert (Ht : PhysicsWorld.ticks (PhysicsWorld.update w dt)
                 = PhysicsWorld.ticks w + 1)
      by (apply update_ticks; lia).
    rewrite IH; rewrite Ht; cbn [length]; lia.
Qed.

End WorldUpdate.

(** C2, amended: for every world whose tick counter is below [INT_MAX] and
    every [dt], one step increments the counter by exactly one, and over a
    run of steps that stays within the [int] range the counter grows by
    the number of steps, so it never decreases; the step then integrates
    every body in collection order (after [k] passes of the loop exactly
    the first [k] bodies are integrated), each body by its own
    [PhysicsBody::update] and with no force between bodies. *)
Theorem world_update_step (w : PhysicsWorld.t) (dt : float) :
  (PhysicsWorld.INT_MIN <= PhysicsWorld.ticks w < PhysicsWorld.INT_MAX ->
   PhysicsWorld.ticks (PhysicsWorld.update w dt) = PhysicsWorld.ticks w + 1)
  /\ (forall dts : list float,
        PhysicsWorld.INT_MIN <= PhysicsWorld.ticks w ->
        PhysicsWorld.ticks w + Z.of_nat (length dts)
          <= PhysicsWorld.INT_MAX ->
        PhysicsWorld.ticks (steps w dts)
          = PhysicsWorld.ticks w + Z.of_nat (length dts)
        /\ PhysicsWorld.ticks w <= PhysicsWorld.ticks (steps w dts))
  /\ PhysicsWorld.bodies (PhysicsWorld.update w dt)
     = (fun b => PhysicsBody.update b dt) <$> PhysicsWorld.bodies w
  /\ (forall k : nat,
        (k <= length (PhysicsWorld.bodies w))%nat ->
        PhysicsWorld.update_loop dt k 0 (PhysicsWorld.bodies w)
        = ((fun b => PhysicsBody.update b dt)
             <$> take k (PhysicsWorld.bodies w))
          ++ drop k (PhysicsWorld.bodies w)).
Proof.
  split; [apply update_ticks|].
  split; [|split; [apply update_bodies | intros k; apply update_loop_prefix]].
  intros dts Hlo Hhi. rewrite steps_ticks by assumption. lia.
Qed.

(** The theorem at the world of [initWorld], whose counter is [0]. *)
Lemma world_update_step_witness :
  PhysicsWorld.INT_MIN <= PhysicsWorld.ticks initWorld < PhysicsWorld.INT_MAX
  /\ PhysicsWorld.ticks (PhysicsWorld.update initWorld (of_int 1)) = 1
  /\ PhysicsWorld.ticks (steps initWorld [of_int 1; of_int 2; of_int 1]) = 3.
Proof.
  assert (H : PhysicsWorld.INT_MIN <= PhysicsWorld.ticks initWorld
              < PhysicsWorld.INT_MAX) by (vm_compute; split; congruence).
  split; [exact H|]. split.
  - exact (proj1 (world_update_step initWorld (of_int 1)) H).
  - refine (proj1 (proj1 (proj2 (world_update_step initWorld (of_int 1)))
                     [of_int 1; of_int 2; of_int 1] _ _));
      vm_compute; congruence.
Defined.

(** C2 as stated fails when the counter is [INT_MAX]: the increment leaves
    the range of [int] and the counter comes back as [INT_MIN], below where
    it was. *)
Lemma world_update_at_INT_MAX :
  PhysicsWorld.ticks last_tick_world = PhysicsWorld.INT_MAX
  /\ PhysicsWorld.ticks (PhysicsWorld.update last_tick_world (of_int 1))
     = PhysicsWorld.INT_MIN
  /\ PhysicsWorld.ticks (PhysicsWorld.update last_tick_world (of_int 1))
     <> PhysicsWorld.ticks last_tick_world + 1
  /\ PhysicsWorld.ticks (PhysicsWorld.update last_tick_world (of_int 1))
     < PhysicsWorld.ticks last_tick_world.
Proof. vm_compute. repeat split; congruence. Qed.

(** ** PhysicsWorld::removeBody *)

Section RemoveBody.

Lemma removeBody_loop_no_match (L : PhysicsWorld.layout) (r i : nat)
    (bs : list PhysicsBody.t) :
  (forall k : nat, (i <= k < i + r)%nat ->
     PhysicsWorld.slot_address L k <> PhysicsWorld.param L) ->
  PhysicsWorld.removeBody_loop L r i bs = bs.
Proof.
  revert i. induction r as [|r IH]; intros i H; [reflexivity|].
  cbn [PhysicsWorld.removeBody_loop].
  destruct (Z.eqb_spec (PhysicsWorld.slot_address L i) (PhysicsWorld.param L))
    as [E|_].
  - exfalso. apply (H i); [lia | exact E].
  - apply IH. intros k Hk. apply H. lia.
Qed.

(** Storage that does not overlap starts at different addresses. *)
Lemma separate_addresses (L : PhysicsWorld.layout) (n k : nat) :
  PhysicsWorld.separate L n -> (k < n)%nat ->
  PhysicsWorld.slot_address L k <> PhysicsWorld.param L.
Proof.
  unfold PhysicsWorld.separate, PhysicsWorld.slot_address,
    PhysicsWorld.sizeof_PhysicsBody.
  intros [H|H] Hk; lia.
Qed.

End RemoveBody.

(** C10: for every world and every body passed to [removeBody], the
    parameter being an object of its own whose storage does not overlap the
    vector's buffer, no slot address equals the parameter's address, the
    erase is never reached, and the world (bodies and ticks) is returned
    unchanged; this holds whatever the value of the argument, a copy of a
    stored body included. *)
Theorem removeBody_is_a_no_op (L : PhysicsWorld.layout) (w : PhysicsWorld.t)
    (body : PhysicsBody.t) :
  PhysicsWorld.separate L (length (PhysicsWorld.bodies w)) ->
  (forall k : nat, (k < length (PhysicsWorld.bodies w))%nat ->
     PhysicsWorld.slot_address L k <> PhysicsWorld.param L)
  /\ PhysicsWorld.removeBody L w body = w.
Proof.
  intros Hsep.
  assert (Hne : forall k : nat, (k < length (PhysicsWorld.bodies w))%nat ->
                  PhysicsWorld.slot_address L k <> PhysicsWorld.param L)
    by (intros k Hk; exact (separate_addresses L _ k Hsep Hk)).
  split; [exact Hne|].
  destruct w as [t bs]. unfold PhysicsWorld.removeBody. simpl in *.
  f_equal. apply removeBody_loop_no_match. intros k Hk. apply Hne. lia.
Qed.

(** The theorem at the world of [initWorld], called with a copy of the body
    in its first slot. *)
Lemma removeBody_is_a_no_op_witness :
  PhysicsWorld.bodies initWorld !! 0%nat = Some body_A
  /\ PhysicsWorld.separate sample_layout
       (length (PhysicsWorld.bodies initWorld))
  /\ PhysicsWorld.removeBody sample_layout initWorld body_A = initWorld.
Proof.
  assert (H : PhysicsWorld.separate sample_layout
                (length (PhysicsWorld.bodies initWorld)))
    by (right; vm_compute; congruence).
  split; [reflexivity|]. split; [exact H|].
  exact (proj2 (removeBody_is_a_no_op sample_layout initWorld body_A H)).
Defined.

(** ** Mass *)

(** C9, amended: the constructor and [setMass] store whatever mass they are
    given, positive or not, and never fail; [addBody] stores whatever body
    it is given; so a body with a mass of zero or below can be built, can be
    made from a valid one, and can be in a world. *)
Theorem mass_is_stored_unchecked (position velocity : Vector2D.t)
    (m : float) (b : PhysicsBody.t) (w : PhysicsWorld.t) :
  PhysicsBody.make position velocity m
    = PhysicsBody.mk position velocity Vector2D.zero m
  /\ PhysicsBody.getMass (PhysicsBody.make position velocity m) = m
  /\ PhysicsBody.setMass b m
     = PhysicsBody.mk (PhysicsBody.position b) (PhysicsBody.velocity b)
         (PhysicsBody.acceleration b) m
  /\ PhysicsBody.getMass (PhysicsBody.setMass b m) = m
  /\ PhysicsWorld.bodies (PhysicsWorld.addBody w b)
     = PhysicsWorld.bodies w ++ [b]
  /\ In (PhysicsBody.setMass b m)
       (PhysicsWorld.bodies
          (PhysicsWorld.addBody w (PhysicsBody.setMass b m))).
Proof.
  repeat split. simpl. apply in_or_app. right. left. reflexivity.
Qed.

(** C9 as stated fails: a body is built with mass zero and added to a new
    world, which then holds a body whose mass is not above zero; and
    [setMass] turns the mass of a body of [initWorld] negative. *)
Lemma non_positive_mass_is_accepted :
  In massless_body (PhysicsWorld.bodies massless_world)
  /\ Float32.leb (PhysicsBody.getMass massless_body) pzero = true
  /\ ~ positive_masses massless_world
  /\ Float32.leb
       (PhysicsBody.getMass (PhysicsBody.setMass body_A (of_int (-1))))
       pzero = true.
Proof.
  split; [left; reflexivity|]. split; [reflexivity|]. split; [|reflexivity].
  intros H. specialize (H massless_body (or_introl eq_refl)).
  vm_compute in H. discriminate.
Qed.

(** ** PhysicsBody::applyAcceleration *)

(** C5 (the code departs from it): [applyAcceleration] returns the body as
    it was, for every body and every argument; on the default body and the
    acceleration [(1, 0)] the accumulated acceleration stays [(0, 0)],
    whereas the sum with the argument is [(1, 0)]. *)
Theorem applyAcceleration_changes_nothing :
  (forall (b : PhysicsBody.t) (a : Vector2D.t),
     PhysicsBody.applyAcceleration b a = b)
  /\ PhysicsBody.getAcceleration
       (PhysicsBody.applyAcceleration PhysicsBody.default (vec 1 0))
     = Vector2D.zero
  /\ Vector2D.plus (PhysicsBody.getAcceleration PhysicsBody.default)
       (vec 1 0) = vec 1 0
  /\ vec 1 0 <> Vector2D.zero.
Proof.
  split; [reflexivity|]. split; [reflexivity|]. split; [reflexivity|].
  vm_compute. discriminate.
Qed.

(** ** applyGravitationalForces *)

Section Gravity.

Lemma interact_length (s : float) (i j : nat) (bs : list PhysicsBody.t) :
  length (interact s i j bs) = length bs.
Proof. unfold interact. rewrite !length_alter. reflexivity. Qed.

Lemma gravity_inner_fold (s : float) (i r j : nat)
    (bs : list PhysicsBody.t) :
  gravity_inner s i r j bs
  = foldl (fun acc k => interact s i k acc) bs (seq j r).
Proof.
  revert j bs. induction r as [|r IH]; intros j bs; [reflexivity|].
  cbn [gravity_inner seq foldl]. apply IH.
Qed.

Lemma foldl_pairs_of_row (s : float) (i : nat) (js : list nat)
    (bs : list PhysicsBody.t) :
  foldl (fun acc p => interact s (fst p) (snd p) acc) bs
    (map (fun j => (i, j)) js)
  = foldl (fun acc k => interact s i k acc) bs js.
Proof.
  revert bs. induction js as [|j js IH]; intros bs; [reflexivity|].
  cbn [map foldl fst snd]. apply IH.
Qed.

Lemma foldl_interact_length (s : float) (ps : list (nat * nat))
    (bs : list PhysicsBody.t) :
  length (foldl (fun acc p => interact s (fst p) (snd p) acc) bs ps)
  = length bs.
Proof.
  revert bs. induction ps as [|p ps IH]; intros bs; [reflexivity|].
  cbn [foldl]. rewrite IH. apply interact_length.
Qed.

Lemma gravity_outer_fold (s : float) (r i : nat) (bs : list PhysicsBody.t) :
  gravity_outer s r i bs
  = foldl (fun acc p => interact s (fst p) (snd p) acc) bs
      (flat_map
         (fun a => map (fun j => (a, j)) (seq (S a) (length bs - S a)))
         (seq i r)).
Proof.
  revert i bs. induction r as [|r IH]; intros i bs; [reflexivity|].
  cbn [gravity_outer seq flat_map].
  rewrite foldl_app, foldl_pairs_of_row, <- gravity_inner_fold.
  rewrite IH. f_equal.
  rewrite gravity_inner_fold, <- foldl_pairs_of_row, foldl_interact_length.
  reflexivity.
Qed.

(** The routine is the pair interaction, once for each pair of slots
    [i < j], in the order of the two loops. *)
Lemma applyGravitationalForces_pairs (s : float) (w : PhysicsWorld.t) :
  PhysicsWorld.bodies (applyGravitationalForces s w)
  = foldl (fun acc p => interact s (fst p) (snd p) acc)
      (PhysicsWorld.bodies w)
      (index_pairs (length (PhysicsWorld.bodies w))).
Proof. simpl. apply gravity_outer_fold. Qed.

Lemma index_pairs_spec (n i j : nat) :
  In (i, j) (index_pairs n) <-> (i < j < n)%nat.
Proof.
  unfold index_pairs. rewrite in_flat_map. split.
  - intros [a [Ha Hin]]. apply in_map_iff in Hin.
    destruct Hin as [b [E Hb]]. inversion E; subst.
    apply in_seq in Ha. apply in_seq in Hb. lia.
  - intros H. exists i. split; [apply in_seq; lia|].
    apply in_map_iff. exists j. split; [reflexivity|]. apply in_seq. lia.
Qed.

Lemma interact_first (s : float) (i j : nat) (bs : list PhysicsBody.t)
    (body1 body2 : PhysicsBody.t) :
  i <> j -> bs !! i = Some body1 -> bs !! j = Some body2 ->
  interact s i j bs !! i
  = Some (PhysicsBody.applyForce body1 (gravitational_force s body1 body2)).
Proof.
  intros Hij H1 H2. unfold interact.
  rewrite (list_lookup_total_correct _ _ _ H1).
  rewrite (list_lookup_total_correct _ _ _ H2).
  rewrite list_lookup_alter_ne by congruence.
  rewrite list_lookup_alter_eq, H1. reflexivity.
Qed.

Lemma interact_second (s : float) (i j : nat) (bs : list PhysicsBody.t)
    (body1 body2 : PhysicsBody.t) :
  i <> j -> bs !! i = Some body1 -> bs !! j = Some body2 ->
  interact s i j bs !! j
  = Some (PhysicsBody.applyForce body2
            (Vector2D.neg (gravitational_force s body1 body2))).
Proof.
  intros Hij H1 H2. unfold interact.
  rewrite (list_lookup_total_correct _ _ _ H1).
  rewrite (list_lookup_total_correct _ _ _ H2).
  rewrite list_lookup_alter_eq.
  rewrite list_lookup_alter_ne by congruence.
  rewrite H2. reflexivity.
Qed.

Lemma interact_others (s : float) (i j k : nat) (bs : list PhysicsBody.t) :
  k <> i -> k <> j -> interact s i j bs !! k = bs !! k.
Proof.
  intros Hi Hj. unfold interact.
  rewrite !list_lookup_alter_ne by congruence. reflexivity.
Qed.

(** Two bodies at one finite position: the separation is the zero vector. *)
Lemma coincident_separation (body1 body2 : PhysicsBody.t) :
  PhysicsBody.position body1 = PhysicsBody.position body2 ->
  Vector2D.is_finite (PhysicsBody.position body1) = true ->
  Vector2D.minus (PhysicsBody.getPosition body2)
    (PhysicsBody.getPosition body1) = Vector2D.zero.
Proof.
  unfold PhysicsBody.getPosition, Vector2D.is_finite, Vector2D.minus.
  intros E Hfin. rewrite <- E.
  apply andb_prop in Hfin. destruct Hfin as [Hx Hy].
  rewrite !sub_diag_finite by assumption. reflexivity.
Qed.

(** The force computed with the two bodies exchanged is the negation of
    the force, up to the sign of a zero coordinate. *)
Lemma gravitational_force_swap (s : float) (b1 b2 : PhysicsBody.t) :
  Vector2D.same (gravitational_force s b2 b1)
    (Vector2D.neg (gravitational_force s b1 b2)).
Proof.
  unfold gravitational_force, PhysicsBody.getPosition.
  destruct (PhysicsBody.position b1) as [x1 y1].
  destruct (PhysicsBody.position b2) as [x2 y2].
  unfold Vector2D.normalized, Vector2D.magnitude, Vector2D.minus,
    Vector2D.over, Vector2D.times, Vector2D.neg, Vector2D.same; simpl.
  pose proof (sub_swap x2 x1) as Hx. pose proof (sub_swap y2 y1) as Hy.
  rewrite (square_same_opp _ _ Hx), (square_same_opp _ _ Hy).
  split; apply mul_same_opp, div_same_opp; assumption.
Qed.

End Gravity.

(** C3: for every pair of slots [i < j] of a world, the pair interaction
    of the gravity routine applies the force [F] computed at lines 91-94 to
    the first body and its negation [-F] to the second, every other body
    being left alone; [-F] has each coordinate of [F] with the sign flipped
    and the same magnitude; the force law evaluated with the two bodies
    exchanged gives that same [-F] (as floating-point values: a zero
    coordinate may come with either sign); and the routine is this
    interaction, once for each pair [i < j], so for every pair the two
    contributions are exact negatives of each other, whatever the positions
    and the masses. *)
Theorem gravity_third_law (strength : float) (w : PhysicsWorld.t)
    (i j : nat) (body1 body2 : PhysicsBody.t) :
  (i < j)%nat ->
  PhysicsWorld.bodies w !! i = Some body1 ->
  PhysicsWorld.bodies w !! j = Some body2 ->
  interact strength i j (PhysicsWorld.bodies w) !! i
    = Some (PhysicsBody.applyForce body1
              (gravitational_force strength body1 body2))
  /\ interact strength i j (PhysicsWorld.bodies w) !! j
     = Some (PhysicsBody.applyForce body2
               (Vector2D.neg (gravitational_force strength body1 body2)))
  /\ (forall k : nat, k <> i -> k <> j ->
        interact strength i j (PhysicsWorld.bodies w) !! k
        = PhysicsWorld.bodies w !! k)
  /\ Vector2D.neg (gravitational_force strength body1 body2)
     = Vector2D.mk
         (opp (Vector2D.x (gravitational_force strength body1 body2)))
         (opp (Vector2D.y (gravitational_force strength body1 body2)))
  /\ Vector2D.magnitude
       (Vector2D.neg (gravitational_force strength body1 body2))
     = Vector2D.magnitude (gravitational_force strength body1 body2)
  /\ Vector2D.same (gravitational_force strength body2 body1)
       (Vector2D.neg (gravitational_force strength body1 body2))
  /\ In (i, j) (index_pairs (length (PhysicsWorld.bodies w)))
  /\ PhysicsWorld.bodies (applyGravitationalForces strength w)
     = foldl (fun acc p => interact strength (fst p) (snd p) acc)
         (PhysicsWorld.bodies w)
         (index_pairs (length (PhysicsWorld.bodies w))).
Proof.
  intros Hij H1 H2.
  assert (Hne : i <> j) by lia.
  split; [exact (interact_first strength i j _ _ _ Hne H1 H2)|].
  split; [exact (interact_second strength i j _ _ _ Hne H1 H2)|].
  split; [intros k Hi Hj; apply interact_others; assumption|].
  split; [reflexivity|].
  split; [apply magnitude_neg|].
  split; [apply gravitational_force_swap|].
  split; [|apply applyGravitationalForces_pairs].
  apply index_pairs_spec. split; [exact Hij|].
  apply lookup_lt_Some in H2. exact H2.
Qed.

(** The theorem at the world of [initWorld] and its two bodies. *)
Lemma gravity_third_law_witness :
  (0 < 1)%nat
  /\ PhysicsWorld.bodies initWorld !! 0%nat = Some body_A
  /\ PhysicsWorld.bodies initWorld !! 1%nat = Some body_B
  /\ interact GRAVITATIONAL_CONSTANT 0 1 (PhysicsWorld.bodies initWorld)
       !! 1%nat
     = Some (PhysicsBody.applyForce body_B
               (Vector2D.neg
                  (gravitational_force GRAVITATIONAL_CONSTANT
                     body_A body_B))).
Proof.
  split; [lia|]. split; [reflexivity|]. split; [reflexivity|].
  exact (proj1 (proj2
    (gravity_third_law GRAVITATIONAL_CONSTANT initWorld 0 1 body_A body_B
       (Nat.lt_0_succ 0) eq_refl eq_refl))).
Defined.

(** The scenario of [initWorld]: the separation is [(0, -180)], the force
    magnitude is [66700000 / 180^2], about 2058.6; the first body gets the
    acceleration [(0, -205.86...)] and the second [(0, +2058.6...)]. *)
Example initWorld_forces :
  PhysicsBody.getAcceleration <$>
    PhysicsWorld.bodies
      (applyGravitationalForces GRAVITATIONAL_CONSTANT initWorld)
  = [Vector2D.mk pzero (S754_finite true 13491517 (-16));
     Vector2D.mk pzero (S754_finite false 8432198 (-12))].
Proof. vm_compute. reflexivity. Qed.

(** C8, amended: the force magnitude is the strength divided by the square
    of the separation magnitude as it is, with no clamp and no guard before
    the division; for two bodies at the same finite position the divisor is
    zero, the normalized separation and hence the force are NaN in both
    coordinates. *)
Theorem gravity_divisor_unclamped (strength : float)
    (body1 body2 : PhysicsBody.t) :
  gravitational_force strength body1 body2
    = Vector2D.times
        (Vector2D.normalized
           (Vector2D.minus (PhysicsBody.getPosition body2)
              (PhysicsBody.getPosition body1)))
        (div strength (force_divisor body1 body2))
  /\ force_divisor body1 body2
     = mul
         (Vector2D.magnitude
            (Vector2D.minus (PhysicsBody.getPosition body2)
               (PhysicsBody.getPosition body1)))
         (Vector2D.magnitude
            (Vector2D.minus (PhysicsBody.getPosition body2)
               (PhysicsBody.getPosition body1)))
  /\ (PhysicsBody.position body1 = PhysicsBody.position body2 ->
      Vector2D.is_finite (PhysicsBody.position body1) = true ->
      force_divisor body1 body2 = pzero
      /\ gravitational_force strength body1 body2
         = Vector2D.mk S754_nan S754_nan).
Proof.
  split; [reflexivity|]. split; [reflexivity|].
  intros E Hfin.
  unfold gravitational_force, force_divisor.
  rewrite (coincident_separation body1 body2 E Hfin).
  split; reflexivity.
Qed.

(** The theorem at two copies of the first body of [initWorld]. *)
Lemma gravity_divisor_unclamped_witness :
  PhysicsBody.position body_A = PhysicsBody.position body_A
  /\ Vector2D.is_finite (PhysicsBody.position body_A) = true
  /\ force_divisor body_A body_A = pzero
  /\ gravitational_force GRAVITATIONAL_CONSTANT body_A body_A
     = Vector2D.mk S754_nan S754_nan.
Proof.
  split; [reflexivity|]. split; [reflexivity|].
  exact (proj2 (proj2
    (gravity_divisor_unclamped GRAVITATIONAL_CONSTANT body_A body_A))
    eq_refl eq_refl).
Defined.

(** C8 as stated fails: with two bodies at the same position the divisor
    of the force magnitude is zero, the division is carried out all the
    same and gives an infinity, and the accelerations that the routine
    leaves in the world are NaN. *)
Lemma gravity_divides_by_zero :
  force_divisor body_A body_A = pzero
  /\ div GRAVITATIONAL_CONSTANT (force_divisor body_A body_A) = pinf
  /\ PhysicsBody.getAcceleration <$>
       PhysicsWorld.bodies
         (applyGravitationalForces GRAVITATIONAL_CONSTANT
            (PhysicsWorld.addBody
               (PhysicsWorld.addBody PhysicsWorld.empty body_A) body_A))
     = [Vector2D.mk S754_nan S754_nan; Vector2D.mk S754_nan S754_nan].
Proof. vm_compute. repeat split. Qed.

(** ** The trajectory preview *)

Section Preview.

Lemma kinematics_alter (f : PhysicsBody.t -> PhysicsBody.t) (i : nat)
    (bs : list PhysicsBody.t) :
  (forall b, kinematics (f b) = kinematics b) ->
  kinematics <$> alter f i bs = kinematics <$> bs.
Proof.
  intros Hf. revert i. induction bs as [|b bs IH]; intros i; [reflexivity|].
  destruct i as [|i]; simpl.
  - rewrite Hf. reflexivity.
  - f_equal. apply IH.
Qed.

Lemma kinematics_interact (s : float) (i j : nat) (bs : list PhysicsBody.t) :
  kinematics <$> interact s i j bs = kinematics <$> bs.
Proof.
  unfold interact. rewrite !kinematics_alter; reflexivity.
Qed.

(** The gravity routine moves no body and changes no velocity or mass. *)
Lemma kinematics_gravity (s : float) (w : PhysicsWorld.t) :
  kinematics <$> PhysicsWorld.bodies (applyGravitationalForces s w)
  = kinematics <$> PhysicsWorld.bodies w.
Proof.
  rewrite applyGravitationalForces_pairs.
  generalize (index_pairs (length (PhysicsWorld.bodies w))).
  generalize (PhysicsWorld.bodies w).
  intros bs ps. revert bs.
  induction ps as [|p ps IH]; intros bs; [reflexivity|].
  cbn [foldl]. rewrite IH. apply kinematics_interact.
Qed.

Lemma kinematics_total_lookup (l1 l2 : list PhysicsBody.t) (k : nat) :
  kinematics <$> l1 = kinematics <$> l2 ->
  kinematics (l1 !!! k) = kinematics (l2 !!! k).
Proof.
  intros E. rewrite !list_lookup_total_alt.
  assert (H : kinematics <$> (l1 !! k) = kinematics <$> (l2 !! k))
    by (rewrite <- !list_lookup_fmap, E; reflexivity).
  destruct (l1 !! k), (l2 !! k); simpl in *; congruence.
Qed.

Lemma gravity_keeps_position (s : float) (w : PhysicsWorld.t) (k : nat) :
  PhysicsBody.getPosition
    (PhysicsWorld.bodies (applyGravitationalForces s w) !!! k)
  = PhysicsBody.getPosition (PhysicsWorld.bodies w !!! k).
Proof.
  pose proof (kinematics_total_lookup _ _ k (kinematics_gravity s w)) as H.
  unfold kinematics in H. unfold PhysicsBody.getPosition. congruence.
Qed.

Lemma preview_loop_points (sd s : float) (target horizon : nat)
    (c : PhysicsWorld.t) :
  length (snd (preview_loop sd s target horizon c)) = horizon
  /\ forall k : nat, (k < horizon)%nat ->
       snd (preview_loop sd s target horizon c) !! k
       = Some (PhysicsBody.getPosition
                 (PhysicsWorld.bodies (preview_world sd s target (S k) c)
                    !!! target)).
Proof.
  revert c. induction horizon as [|h IH]; intros c.
  - split; [reflexivity | intros k Hk; lia].
  - cbn [preview_loop].
    destruct (preview_step sd s target c) as [next point] eqn:Estep.
    specialize (IH next).
    destruct (preview_loop sd s target h next) as [final points].
    cbn [snd] in *. destruct IH as [Hlen Hpts]. split.
    + cbn [length]. rewrite Hlen. reflexivity.
    + intros [|k] Hk.
      * cbn [preview_world]. rewrite Estep. cbn [fst].
        unfold preview_step in Estep. inversion Estep. reflexivity.
      * change (preview_world sd s target (S (S k)) c)
          with (preview_world sd s target (S k)
                  (fst (preview_step sd s target c))).
        rewrite Estep. apply Hpts. lia.
Qed.

End Preview.

(** C6, amended: each pass of the preview loop derives
    [dt = samplingDistance / speed] from the current speed of the followed
    body, calls [update(dt)] on the copy first, applies the pairwise force
    law to the copy after that, and records the position of the followed
    body, which is its position after the step since the force law moves no
    body; the polyline holds [horizon] points, the [k]-th being the
    position in the copy after [k + 1] passes, each pass with its own
    [dt]. *)
Theorem preview_pass_steps_then_forces (samplingDistance strength : float)
    (target : nat) (world_copy : PhysicsWorld.t) :
  preview_step samplingDistance strength target world_copy
  = (applyGravitationalForces strength
       (PhysicsWorld.update world_copy
          (div samplingDistance
             (Vector2D.magnitude
                (PhysicsBody.getVelocity
                   (PhysicsWorld.bodies world_copy !!! target))))),
     PhysicsBody.getPosition
       (PhysicsWorld.bodies
          (PhysicsWorld.update world_copy
             (div samplingDistance
                (Vector2D.magnitude
                   (PhysicsBody.getVelocity
                      (PhysicsWorld.bodies world_copy !!! target)))))
          !!! target))
  /\ (forall (horizon : nat) (world : PhysicsWorld.t),
        length (preview samplingDistance strength target horizon world)
        = horizon
        /\ forall k : nat, (k < horizon)%nat ->
             preview samplingDistance strength target horizon world !! k
             = Some (PhysicsBody.getPosition
                       (PhysicsWorld.bodies
                          (preview_world samplingDistance strength target
                             (S k) (PhysicsWorld.clone world))
                          !!! target))).
Proof.
  split.
  - unfold preview_step. f_equal. apply gravity_keeps_position.
  - intros horizon world. apply preview_loop_points.
Qed.

(** C6 as stated fails on the world of [initWorld]: the first point of the
    preview is [(300, 60)], the body moved by its velocity alone since the
    step comes before the forces; in the order of the statement, forces
    first, the first point is another one. *)
Lemma preview_order_differs :
  snd (preview_step (of_int 20) GRAVITATIONAL_CONSTANT 1 initWorld)
    = vec 300 60
  /\ snd (preview_step_as_specified (of_int 20) GRAVITATIONAL_CONSTANT 1
            initWorld) <> vec 300 60
  /\ preview (of_int 20) GRAVITATIONAL_CONSTANT 1 1 initWorld = [vec 300 60]
  /\ preview_as_specified (of_int 20) GRAVITATIONAL_CONSTANT 1 1 initWorld
     <> [vec 300 60]
  /\ main_preview initWorld
     <> preview_as_specified (of_int 20) GRAVITATIONAL_CONSTANT 1 100
          initWorld.
Proof.
  split; [vm_compute; reflexivity|].
  split; [intros H; vm_compute in H; discriminate|].
  split; [vm_compute; reflexivity|].
  split; intros H; vm_compute in H; discriminate.
Qed.

(** The theorem on the world of [initWorld]: the second of two points is
    the position of the second body after two passes. *)
Lemma preview_pass_steps_then_forces_witness :
  (1 < 2)%nat
  /\ preview (of_int 20) GRAVITATIONAL_CONSTANT 1 2 initWorld !! 1%nat
     = Some (PhysicsBody.getPosition
               (PhysicsWorld.bodies
                  (preview_world (of_int 20) GRAVITATIONAL_CONSTANT 1 2
                     (PhysicsWorld.clone initWorld)) !!! 1%nat)).
Proof.
  split; [lia|].
  exact (proj2 (proj2 (preview_pass_steps_then_forces (of_int 20)
                         GRAVITATIONAL_CONSTANT 1 initWorld) 2%nat initWorld)
           1%nat (Nat.lt_succ_diag_r 1)).
Defined.

(** ** PhysicsWorld::clone *)

Section Clone.

Lemma clone_loop_spec (src : list PhysicsBody.t) (r i : nat)
    (world : PhysicsWorld.t) :
  (i + r <= length src)%nat ->
  PhysicsWorld.clone_loop src r i world
  = PhysicsWorld.mk (PhysicsWorld.ticks world)
      (PhysicsWorld.bodies world
         ++ (PhysicsBody.clone <$> take r (drop i src))).
Proof.
  revert i world. induction r as [|r IH]; intros i world Hr.
  - simpl. rewrite app_nil_r. destruct world; reflexivity.
  - cbn [PhysicsWorld.clone_loop].
    destruct (lookup_lt_is_Some_2 src i) as [b Hb]; [lia|].
    rewrite (list_lookup_total_correct _ _ _ Hb).
    rewrite IH by lia.
    cbn [PhysicsWorld.addBody PhysicsWorld.ticks PhysicsWorld.bodies].
    rewrite (drop_S _ _ _ Hb). cbn [take fmap list_fmap].
    rewrite <- app_assoc. reflexivity.
Qed.

Lemma clone_spec (w : PhysicsWorld.t) :
  PhysicsWorld.clone w
  = PhysicsWorld.mk (PhysicsWorld.ticks w)
      (PhysicsBody.clone <$> PhysicsWorld.bodies w).
Proof.
  unfold PhysicsWorld.clone. rewrite clone_loop_spec by (simpl; lia).
  cbn [PhysicsWorld.ticks PhysicsWorld.bodies app].
  rewrite drop_0, firstn_all. reflexivity.
Qed.

Lemma clone_kinematics (w : PhysicsWorld.t) :
  kinematics <$> PhysicsWorld.bodies (PhysicsWorld.clone w)
  = kinematics <$> PhysicsWorld.bodies w.
Proof.
  rewrite clone_spec. cbn [PhysicsWorld.bodies].
  rewrite <- list_fmap_compose. apply list_fmap_ext.
  intros i b _. reflexivity.
Qed.

Lemma act_other (id id' : nat) (a : Store.action)
    (s : gmap nat PhysicsWorld.t) :
  id <> id' -> Store.act id a s !! id' = s !! id'.
Proof. intros H. unfold Store.act. apply lookup_alter_ne. exact H. Qed.

Lemma act_same (id : nat) (a : Store.action) (s : gmap nat PhysicsWorld.t)
    (w : PhysicsWorld.t) :
  s !! id = Some w -> Store.act id a s !! id = Some (Store.perform a w).
Proof.
  intros H. unfold Store.act. rewrite lookup_alter_eq, H. reflexivity.
Qed.

Lemma run_other (id id' : nat) (acts : list Store.action)
    (s : gmap nat PhysicsWorld.t) :
  id <> id' -> Store.run id acts s !! id' = s !! id'.
Proof.
  intros H. revert s. induction acts as [|a acts IH]; intros s.
  - reflexivity.
  - unfold Store.run in *. cbn [foldl]. rewrite IH. apply act_other, H.
Qed.

Lemma preview_on_other (sd st : float) (target horizon copy id : nat)
    (s : gmap nat PhysicsWorld.t) :
  copy <> id ->
  fst (Store.preview_on sd st target horizon copy s) !! id = s !! id.
Proof.
  intros H. revert s. induction horizon as [|h IH]; intros s.
  - reflexivity.
  - cbn [Store.preview_on]. destruct (s !! copy) as [c|]; [|reflexivity].
    cbv zeta. specialize (IH (Store.act copy (Store.Gravity st)
      (Store.act copy (Store.Update (div sd (Vector2D.magnitude
         (PhysicsBody.getVelocity (PhysicsWorld.bodies c !!! target))))) s))).
    destruct (Store.preview_on sd st target h copy _) as [final points].
    cbn [fst] in *. rewrite IH, !act_other by exact H. reflexivity.
Qed.

(** On the store the loop records the points of [preview_loop]. *)
Lemma preview_on_points (sd st : float) (target horizon copy : nat)
    (s : gmap nat PhysicsWorld.t) (c : PhysicsWorld.t) :
  s !! copy = Some c ->
  snd (Store.preview_on sd st target horizon copy s)
  = snd (preview_loop sd st target horizon c).
Proof.
  revert s c. induction horizon as [|h IH]; intros s c Hc.
  - reflexivity.
  - cbn [Store.preview_on preview_loop]. rewrite Hc. cbv zeta.
    unfold preview_step.
    set (dt := div sd (Vector2D.magnitude
      (PhysicsBody.getVelocity (PhysicsWorld.bodies c !!! target)))).
    assert (H2 : Store.act copy (Store.Gravity st)
                   (Store.act copy (Store.Update dt) s) !! copy
                 = Some (applyGravitationalForces st
                           (PhysicsWorld.update c dt))).
    { rewrite (act_same copy (Store.Gravity st) _ (PhysicsWorld.update c dt)).
      - reflexivity.
      - apply (act_same copy (Store.Update dt) s c Hc). }
    rewrite H2. specialize (IH _ _ H2).
    destruct (Store.preview_on sd st target h copy _) as [final points].
    destruct (preview_loop sd st target h _) as [final' points'].
    cbn [snd] in *. rewrite IH. reflexivity.
Qed.

End Clone.

(** C4: for every world object, [clone()] gives a world with the same tick
    and, slot by slot, a body with the same position, velocity and mass,
    stored in an object of its own; whatever is then done to the clone
    (moving, re-weighing or forcing its bodies, adding, stepping, applying
    gravity), the original object keeps its tick and its bodies, and
    whatever is done to the original leaves the clone as it was; the
    preview of [main], for any horizon, works on the clone only, leaves the
    live world as it was and yields the points of [preview]. *)
Theorem clone_is_isolated (s : gmap nat PhysicsWorld.t)
    (world world_copy : nat) (w : PhysicsWorld.t) :
  s !! world = Some w ->
  world_copy <> world ->
  PhysicsWorld.ticks (PhysicsWorld.clone w) = PhysicsWorld.ticks w
  /\ PhysicsWorld.bodies (PhysicsWorld.clone w)
     = PhysicsBody.clone <$> PhysicsWorld.bodies w
  /\ kinematics <$> PhysicsWorld.bodies (PhysicsWorld.clone w)
     = kinematics <$> PhysicsWorld.bodies w
  /\ Store.clone_to world world_copy s !! world_copy
     = Some (PhysicsWorld.clone w)
  /\ (forall acts : list Store.action,
        Store.run world_copy acts (Store.clone_to world world_copy s)
          !! world = Some w)
  /\ (forall acts : list Store.action,
        Store.run world acts (Store.clone_to world world_copy s)
          !! world_copy = Some (PhysicsWorld.clone w))
  /\ (forall (samplingDistance strength : float) (target horizon : nat),
        fst (Store.run_preview samplingDistance strength target horizon
               world world_copy s) !! world = Some w
        /\ snd (Store.run_preview samplingDistance strength target horizon
                  world world_copy s)
           = preview samplingDistance strength target horizon w).
Proof.
  intros Hw Hne.
  assert (Hcopy : Store.clone_to world world_copy s !! world_copy
                  = Some (PhysicsWorld.clone w))
    by (unfold Store.clone_to; rewrite Hw; apply lookup_insert_eq).
  assert (Hworld : Store.clone_to world world_copy s !! world = Some w)
    by (unfold Store.clone_to; rewrite Hw, lookup_insert_ne; assumption).
  split; [rewrite clone_spec; reflexivity|].
  split; [rewrite clone_spec; reflexivity|].
  split; [apply clone_kinematics|].
  split; [exact Hcopy|].
  split; [intros acts; rewrite run_other; assumption|].
  split; [intros acts; rewrite run_other; [assumption | congruence]|].
  intros sd st target horizon. unfold Store.run_preview. split.
  - rewrite preview_on_other; assumption.
  - apply preview_on_points. exact Hcopy.
Qed.

(** The theorem on the store that holds [initWorld] under identity 0, the
    clone under identity 1. *)
Lemma clone_is_isolated_witness :
  one_world_store !! 0%nat = Some initWorld
  /\ 1%nat <> 0%nat
  /\ Store.run 1 sample_actions (Store.clone_to 0 1 one_world_store)
       !! 0%nat = Some initWorld
  /\ fst (Store.run_preview (of_int 20) GRAVITATIONAL_CONSTANT 1 100 0 1
            one_world_store) !! 0%nat = Some initWorld.
Proof.
  assert (H0 : one_world_store !! 0%nat = Some initWorld) by reflexivity.
  assert (H1 : 1%nat <> 0%nat) by lia.
  pose proof (clone_is_isolated one_world_store 0 1 initWorld H0 H1) as H.
  split; [exact H0|]. split; [exact H1|]. split.
  - exact (proj1 (proj2 (proj2 (proj2 (proj2 H)))) sample_actions).
  - exact (proj1 (proj2 (proj2 (proj2 (proj2 (proj2 (proj2 H)))))
                    (of_int 20) GRAVITATIONAL_CONSTANT 1%nat 100%nat)).
Defined.

(** ** Arithmetic of binary32: the rounding of the operations

    Each operation of [SpecFloat] computes its exact result as a mantissa,
    an exponent and the place of the remainder, and rounds it to nearest,
    ties to even.  The lemmas below follow the rounding through its shifts
    and bound its error: a finite result differs from the exact value by
    at most [2^-24] of its magnitude, plus [2^-150] where it underflows. *)

Section Bpow.

Local Open Scope R_scope.

Lemma bpow_pos (e : Z) : 0 < bpow e.
Proof. apply powerRZ_lt. lra. Qed.

Lemma bpow_add (a b : Z) : bpow (a + b) = bpow a * bpow b.
Proof. apply powerRZ_add. lra. Qed.

Lemma bpow_0 : bpow 0 = 1.
Proof. reflexivity. Qed.

Lemma bpow_1 : bpow 1 = 2.
Proof. unfold bpow. simpl. lra. Qed.

Lemma bpow_m1 : bpow (-1) = / 2.
Proof. unfold bpow. simpl. f_equal. lra. Qed.

Lemma bpow_opp (a : Z) : bpow (- a) = / bpow a.
Proof. apply powerRZ_neg'. Qed.

Lemma bpow_cancel (a : Z) : bpow a * bpow (- a) = 1.
Proof. rewrite <- bpow_add, Z.add_opp_diag_r. apply bpow_0. Qed.

Lemma bpow_succ (a : Z) : bpow (a + 1) = 2 * bpow a.
Proof. rewrite bpow_add, bpow_1. ring. Qed.

Lemma bpow_IZR (n : Z) : (0 <= n)%Z -> bpow n = IZR (2 ^ n).
Proof.
  intros H. unfold bpow. rewrite <- (Z2Nat.id n H) at 2.
  rewrite <- pow_IZR. rewrite <- (Z2Nat.id n H) at 1.
  symmetry. apply pow_powerRZ.
Qed.

Lemma bpow_le (a b : Z) : (a <= b)%Z -> bpow a <= bpow b.
Proof.
  intros H. replace b with (a + (b - a))%Z by lia.
  rewrite bpow_add. rewrite (bpow_IZR (b - a)) by lia.
  assert (1 <= IZR (2 ^ (b - a))).
  { apply IZR_le. pose proof (Z.pow_pos_nonneg 2 (b - a)). lia. }
  pose proof (bpow_pos a). nra.
Qed.

Lemma bpow_lt (a b : Z) : (a < b)%Z -> bpow a < bpow b.
Proof.
  intros H. replace b with (a + 1 + (b - a - 1))%Z by lia.
  pose proof (bpow_le (a + 1) (a + 1 + (b - a - 1)) ltac:(lia)) as L.
  rewrite bpow_succ in L at 1. pose proof (bpow_pos a). lra.
Qed.

End Bpow.

Section Digits.

Lemma digits2_pos_bounds (p : positive) :
  (2 ^ (Z.pos (digits2_pos p) - 1) <= Z.pos p < 2 ^ Z.pos (digits2_pos p))%Z.
Proof.
  induction p as [p IH | p IH |]; cbn [digits2_pos].
  - rewrite Pos2Z.inj_succ.
    replace (Z.succ (Z.pos (digits2_pos p)) - 1)%Z
      with (Z.succ (Z.pos (digits2_pos p) - 1)) by lia.
    rewrite !Z.pow_succ_r by lia. lia.
  - rewrite Pos2Z.inj_succ.
    replace (Z.succ (Z.pos (digits2_pos p)) - 1)%Z
      with (Z.succ (Z.pos (digits2_pos p) - 1)) by lia.
    rewrite !Z.pow_succ_r by lia. lia.
  - simpl. lia.
Qed.

Lemma Zdigits2_nonneg (m : Z) : (0 <= Zdigits2 m)%Z.
Proof. destruct m; simpl; lia. Qed.

Lemma Zdigits2_upper (m : Z) : (0 <= m -> m < 2 ^ Zdigits2 m)%Z.
Proof.
  destruct m as [|p|p]; intros H; [simpl; lia | | lia].
  apply digits2_pos_bounds.
Qed.

Lemma Zdigits2_lower (m : Z) : (0 < m -> 2 ^ (Zdigits2 m - 1) <= m)%Z.
Proof.
  destruct m as [|p|p]; intros H; [lia | | lia].
  apply digits2_pos_bounds.
Qed.

Lemma Zdigits2_le (m k : Z) :
  (0 <= m -> 0 <= k -> m < 2 ^ k -> Zdigits2 m <= k)%Z.
Proof.
  intros Hm Hk H.
  destruct (Z.eq_dec m 0) as [->|Hz]; [simpl; lia|].
  pose proof (Zdigits2_lower m ltac:(lia)) as L.
  destruct (Z.le_gt_cases (Zdigits2 m) k) as [|G]; [assumption|].
  assert (2 ^ k <= 2 ^ (Zdigits2 m - 1))%Z
    by (apply Z.pow_le_mono_r; lia).
  lia.
Qed.

End Digits.

Section Shift.

Local Open Scope R_scope.

Lemma located_bounds (t : R) (m : Z) (l : location) :
  located t m l -> IZR m <= t < IZR m + 1.
Proof. destruct l as [|[| |]]; simpl; lra. Qed.

Lemma located_exact (t : R) (m : Z) (l : location) :
  located t m l -> t = IZR m -> l = loc_Exact.
Proof. destruct l as [|[| |]]; simpl; intros; try reflexivity; lra. Qed.

(** One step of the right shift halves the value and keeps its place. *)
Lemma shr_1_located (t : R) (r : shr_record) :
  (0 <= shr_m r)%Z ->
  located t (shr_m r) (loc_of_shr_record r) ->
  located (t / 2) (shr_m (shr_1 r)) (loc_of_shr_record (shr_1 r))
  /\ (0 <= shr_m (shr_1 r))%Z.
Proof.
  destruct r as [m rb sb]. cbn [shr_m].
  intros Hm H.
  destruct m as [|[p|p|]|p]; try lia.
  - destruct rb, sb; cbn [located loc_of_shr_record shr_1 shr_m orb] in *;
      split; try lia; lra.
  - assert (E : IZR (Z.pos p~1) = 2 * IZR (Z.pos p) + 1)
      by (rewrite Pos2Z.inj_xI, plus_IZR, mult_IZR; reflexivity).
    destruct rb, sb; cbn [located loc_of_shr_record shr_1 shr_m orb] in *;
      rewrite E in H; split; try lia; lra.
  - assert (E : IZR (Z.pos p~0) = 2 * IZR (Z.pos p))
      by (rewrite Pos2Z.inj_xO, mult_IZR; reflexivity).
    destruct rb, sb; cbn [located loc_of_shr_record shr_1 shr_m orb] in *;
      rewrite E in H; split; try lia; lra.
  - destruct rb, sb; cbn [located loc_of_shr_record shr_1 shr_m orb] in *;
      split; try lia; lra.
Qed.

Lemma iter_shr_1_located (p : positive) :
  forall (t : R) (r : shr_record),
    (0 <= shr_m r)%Z ->
    located t (shr_m r) (loc_of_shr_record r) ->
    located (t * bpow (- Z.pos p)) (shr_m (SpecFloat.iter_pos shr_1 p r))
      (loc_of_shr_record (SpecFloat.iter_pos shr_1 p r))
    /\ (0 <= shr_m (SpecFloat.iter_pos shr_1 p r))%Z.
Proof.
  induction p as [p IH | p IH |]; intros t r Hm H; cbn [SpecFloat.iter_pos].
  - destruct (shr_1_located t r Hm H) as [H1 M1].
    destruct (IH _ _ M1 H1) as [H2 M2].
    destruct (IH _ _ M2 H2) as [H3 M3].
    split; [|exact M3].
    replace (t * bpow (- Z.pos p~1))
      with (t / 2 * bpow (- Z.pos p) * bpow (- Z.pos p)); [exact H3|].
    replace (- Z.pos p~1)%Z with (- Z.pos p + - Z.pos p + - 1)%Z by lia.
    rewrite !bpow_add, bpow_m1. field.
  - destruct (IH _ _ Hm H) as [H2 M2].
    destruct (IH _ _ M2 H2) as [H3 M3].
    split; [|exact M3].
    replace (t * bpow (- Z.pos p~0))
      with (t * bpow (- Z.pos p) * bpow (- Z.pos p)); [exact H3|].
    replace (- Z.pos p~0)%Z with (- Z.pos p + - Z.pos p)%Z by lia.
    rewrite !bpow_add. ring.
  - destruct (shr_1_located t r Hm H) as [H1 M1].
    split; [|exact M1].
    replace (t * bpow (- Z.pos 1)) with (t / 2); [exact H1|].
    change (- Z.pos 1)%Z with (-1)%Z.
    rewrite bpow_m1. field.
Qed.

End Shift.

Section Round.

Local Open Scope R_scope.

Lemma fexp_32 (e : Z) : fexp prec emax e = Z.max (e - 24) (-149).
Proof. reflexivity. Qed.

Lemma shr_record_of_loc_m (m : Z) (l : location) :
  shr_m (shr_record_of_loc m l) = m.
Proof. destruct l as [|[| |]]; reflexivity. Qed.

Lemma shr_record_of_loc_loc (m : Z) (l : location) :
  loc_of_shr_record (shr_record_of_loc m l) = l.
Proof. destruct l as [|[| |]]; reflexivity. Qed.

(** The first shift of [binary_round_aux]: the mantissa comes down to at
    most 24 bits at an exponent of at least [-149], and the place of the
    value is kept. *)
Lemma shr_fexp_located (mx ex : Z) (lx : location) (v : R)
    (r : shr_record) (e' : Z) :
  (0 <= mx)%Z -> located (v * bpow (- ex)) mx lx ->
  (lx = loc_Exact \/ (ex <= fexp prec emax (Zdigits2 mx + ex))%Z) ->
  shr_fexp prec emax mx ex lx = (r, e') ->
  located (v * bpow (- e')) (shr_m r) (loc_of_shr_record r)
  /\ (0 <= shr_m r < 2 ^ 24)%Z /\ (-149 <= e')%Z
  /\ (loc_of_shr_record r = loc_Exact \/ e' = (-149)%Z
      \/ (2 ^ 23 <= shr_m r)%Z).
Proof.
  intros Hm Hloc Hcase. unfold shr_fexp, shr.
  pose proof (Zdigits2_nonneg mx) as Hd0.
  pose proof (Zdigits2_upper mx Hm) as Hup.
  rewrite fexp_32 in *.
  destruct (Z.max (Zdigits2 mx + ex - 24) (-149) - ex)%Z as [|p|p] eqn:En;
    intros E; injection E as <- <-;
    rewrite ?shr_record_of_loc_m, ?shr_record_of_loc_loc.
  - split; [exact Hloc|]. split.
    + split; [exact Hm|].
      apply Z.lt_le_trans with (1 := Hup). apply Z.pow_le_mono_r; lia.
    + split; [lia|].
      destruct Hcase as [->|Hle]; [left; reflexivity|right].
      destruct (Z.eq_dec ex (-149)%Z) as [|Hne]; [left; assumption|right].
      assert (Hd : Zdigits2 mx = 24%Z) by lia.
      assert (0 < mx)%Z by (destruct mx; simpl in Hd; lia).
      pose proof (Zdigits2_lower mx ltac:(assumption)) as L.
      rewrite Hd in L. exact L.
  - destruct (iter_shr_1_located p (v * bpow (- ex))
                (shr_record_of_loc mx lx)) as [H1 M1].
    { rewrite shr_record_of_loc_m. exact Hm. }
    { rewrite shr_record_of_loc_m, shr_record_of_loc_loc. exact Hloc. }
    set (r := SpecFloat.iter_pos shr_1 p (shr_record_of_loc mx lx)) in *.
    assert (Hv : v * bpow (- ex) * bpow (- Z.pos p)
                 = v * bpow (- (ex + Z.pos p))).
    { replace (- (ex + Z.pos p))%Z with (- ex + - Z.pos p)%Z by lia.
      rewrite bpow_add. ring. }
    rewrite Hv in H1.
    pose proof (located_bounds _ _ _ H1) as [B1 B2].
    pose proof (located_bounds _ _ _ Hloc) as [C1 C2].
    pose proof (bpow_pos (- Z.pos p)) as Hp.
    rewrite <- Hv in B1, B2.
    split; [exact H1|]. split; [split; [exact M1|] |].
    + apply lt_IZR.
      apply Rle_lt_trans with (1 := B1).
      apply Rlt_le_trans with ((IZR mx + 1) * bpow (- Z.pos p)).
      { apply Rmult_lt_compat_r; assumption. }
      rewrite <- (bpow_IZR 24) by lia.
      apply Rle_trans with (bpow (Zdigits2 mx) * bpow (- Z.pos p)).
      { apply Rmult_le_compat_r; [lra|].
        rewrite bpow_IZR by assumption. rewrite <- plus_IZR.
        apply IZR_le. lia. }
      rewrite <- bpow_add. apply bpow_le. lia.
    + split; [lia|].
      destruct (Z.eq_dec (ex + Z.pos p)%Z (-149)%Z) as [|Hne];
        [right; left; assumption | right; right].
      assert (Hd : (Z.pos p = Zdigits2 mx - 24)%Z) by lia.
      assert (0 < mx)%Z by (destruct mx; simpl in Hd; lia).
      pose proof (Zdigits2_lower mx ltac:(assumption)) as L.
      assert (IZR (2 ^ 23) < IZR (shr_m r + 1)).
      { rewrite plus_IZR. apply Rle_lt_trans with (2 := B2).
        rewrite <- (bpow_IZR 23) by lia.
        apply Rle_trans with (bpow (Zdigits2 mx - 1) * bpow (- Z.pos p)).
        { rewrite <- bpow_add. apply bpow_le. lia. }
        apply Rmult_le_compat_r; [lra|].
        apply Rle_trans with (2 := C1).
        rewrite bpow_IZR by lia. apply IZR_le. exact L. }
      apply lt_IZR in H0. lia.
  - split; [exact Hloc|]. split.
    + split; [exact Hm|].
      apply Z.lt_le_trans with (1 := Hup). apply Z.pow_le_mono_r; lia.
    + split; [lia|].
      destruct Hcase as [->|Hle]; [left; reflexivity|]. lia.
Qed.

Lemma round_nearest_even_spec (t : R) (m : Z) (l : location) :
  located t m l ->
  (m <= round_nearest_even m l <= m + 1)%Z
  /\ Rabs (IZR (round_nearest_even m l) - t) <= / 2
  /\ (l = loc_Exact -> IZR (round_nearest_even m l) = t).
Proof.
  intros H.
  destruct l as [|[| |]]; cbn [located round_nearest_even] in *.
  - split; [lia|]. split; [|intros _; symmetry; exact H].
    rewrite H. unfold Rminus. rewrite Rplus_opp_r, Rabs_R0. lra.
  - destruct (Z.even m).
    + split; [lia|]. split; [|discriminate].
      rewrite H. apply Rabs_le. lra.
    + split; [lia|]. split; [|discriminate].
      rewrite plus_IZR, H. apply Rabs_le. lra.
  - split; [lia|]. split; [|discriminate]. apply Rabs_le. lra.
  - split; [lia|]. split; [|discriminate].
    rewrite plus_IZR. apply Rabs_le. lra.
Qed.

(** The second shift of [binary_round_aux] only renormalizes a mantissa
    that the rounding carried to [2^24]; the value is kept. *)
Lemma shr_fexp_again (m e : Z) (r : shr_record) (e' : Z) :
  (0 <= m <= 2 ^ 24)%Z -> (-149 <= e)%Z ->
  shr_fexp prec emax m e loc_Exact = (r, e') ->
  (0 <= shr_m r)%Z /\ IZR (shr_m r) * bpow e' = IZR m * bpow e.
Proof.
  intros Hm He. unfold shr_fexp. rewrite fexp_32.
  destruct (Z.eq_dec m (2 ^ 24)%Z) as [->|Hne].
  - change (Zdigits2 (2 ^ 24)) with 25%Z.
    replace (Z.max (25 + e - 24) (-149) - e)%Z with 1%Z by lia.
    change (shr (shr_record_of_loc (2 ^ 24) loc_Exact) e 1)
      with ({| shr_m := 8388608; shr_r := false; shr_s := false |},
            (e + 1)%Z).
    intros E. injection E as <- <-. cbn [shr_m].
    split; [lia|]. rewrite bpow_succ.
    change (2 ^ 24)%Z with (2 * 8388608)%Z. rewrite mult_IZR. ring.
  - assert (Hd : (Zdigits2 m <= 24)%Z) by (apply Zdigits2_le; lia).
    unfold shr.
    destruct (Z.max (Zdigits2 m + e - 24) (-149) - e)%Z eqn:En; try lia;
      intros E; injection E as <- <-; cbn [shr_m shr_record_of_loc];
      (split; [lia | reflexivity]).
Qed.

(** The rounding of [binary_round_aux]: unless it overflows to an infinity,
    the result is the value up to a relative error of [2^-24] and an
    absolute error of [2^-150]. *)
Lemma binary_round_aux_error (s : bool) (mx ex : Z) (lx : location)
    (v : R) :
  (0 <= mx)%Z -> located (v * bpow (- ex)) mx lx ->
  (lx = loc_Exact \/ (ex <= fexp prec emax (Zdigits2 mx + ex))%Z) ->
  binary_round_aux prec emax s mx ex lx = S754_infinity s
  \/ exists mag : R,
       is_finite (binary_round_aux prec emax s mx ex lx) = true
       /\ F2R (binary_round_aux prec emax s mx ex lx)
          = (if s then - mag else mag)
       /\ 0 <= mag
       /\ Rabs (mag - v) <= bpow (-24) * mag + bpow (-150).
Proof.
  intros Hm Hloc Hcase. unfold binary_round_aux.
  destruct (shr_fexp prec emax mx ex lx) as [r1 e1] eqn:E1.
  destruct (shr_fexp_located mx ex lx v r1 e1 Hm Hloc Hcase E1)
    as [L1 [[M0 M1] [He1 Htri]]].
  destruct (round_nearest_even_spec _ _ _ L1) as [[N0 N1] [Nerr Nex]].
  set (m2 := round_nearest_even (shr_m r1) (loc_of_shr_record r1)) in *.
  destruct (shr_fexp prec emax m2 e1 loc_Exact) as [r2 e2] eqn:E2.
  destruct (shr_fexp_again m2 e1 r2 e2 ltac:(lia) He1 E2) as [P0 Pv].
  pose proof (bpow_pos e1) as Hb1.
  assert (Herr : Rabs (IZR m2 * bpow e1 - v) <= / 2 * bpow e1).
  { replace (IZR m2 * bpow e1 - v)
      with ((IZR m2 - v * bpow (- e1)) * bpow e1).
    - rewrite Rabs_mult, (Rabs_pos_eq (bpow e1)) by lra.
      apply Rmult_le_compat_r; lra.
    - rewrite Rmult_minus_distr_r, Rmult_assoc.
      replace (bpow (- e1) * bpow e1) with 1
        by (rewrite Rmult_comm, bpow_cancel; reflexivity).
      ring. }
  assert (Hbound : Rabs (IZR m2 * bpow e1 - v)
                   <= bpow (-24) * (IZR m2 * bpow e1) + bpow (-150)).
  { pose proof (bpow_pos (-150)) as H150.
    pose proof (bpow_pos (-24)) as H24.
    assert (0 <= IZR m2) by (apply IZR_le; lia).
    assert (Hmag : 0 <= IZR m2 * bpow e1) by (apply Rmult_le_pos; lra).
    assert (Hrel : 0 <= bpow (-24) * (IZR m2 * bpow e1))
      by (apply Rmult_le_pos; lra).
    destruct Htri as [Hex | [-> | Hbig]].
    - replace (IZR m2 * bpow e1 - v) with 0.
      + rewrite Rabs_R0. lra.
      + rewrite (Nex Hex), Rmult_assoc.
        replace (bpow (- e1) * bpow e1) with 1
          by (rewrite Rmult_comm, bpow_cancel; reflexivity).
        ring.
    - apply Rle_trans with (1 := Herr).
      replace (/ 2 * bpow (-149)) with (bpow (-150)).
      + lra.
      + change (-150)%Z with (-149 + -1)%Z. rewrite bpow_add, bpow_m1. ring.
    - apply Rle_trans with (1 := Herr).
      assert (IZR (2 ^ 23) <= IZR m2) by (apply IZR_le; lia).
      rewrite <- (bpow_IZR 23) in H0 by lia.
      assert (Hk : bpow (-24) * bpow 23 = / 2).
      { rewrite <- bpow_add. change (-24 + 23)%Z with (-1)%Z.
        apply bpow_m1. }
      apply Rle_trans with (bpow (-24) * (bpow 23 * bpow e1)).
      { rewrite <- Rmult_assoc, Hk. lra. }
      apply Rle_trans with (bpow (-24) * (IZR m2 * bpow e1)); [|lra].
      apply Rmult_le_compat_l; [lra|].
      apply Rmult_le_compat_r; lra. }
  destruct (shr_m r2) as [|p|p] eqn:Er2; [| |lia].
  - right. exists 0. split; [reflexivity|]. split.
    { simpl. destruct s; lra. }
    split; [lra|].
    assert (Hz : IZR m2 * bpow e1 = 0) by (rewrite <- Pv; simpl; lra).
    rewrite Hz in Hbound. lra.
  - destruct (e2 <=? emax - prec)%Z.
    + right. exists (IZR (Z.pos p) * bpow e2).
      split; [reflexivity|]. split.
      { simpl. destruct s; ring. }
      split.
      { pose proof (bpow_pos e2). assert (0 < IZR (Z.pos p))
          by (apply IZR_lt; lia). nra. }
      rewrite Pv. exact Hbound.
    + left. reflexivity.
Qed.

End Round.

Section Operations.

Local Open Scope R_scope.

Lemma signed_round (s : bool) (mx ex : Z) (lx : location) (v : R) :
  (0 <= mx)%Z -> located (v * bpow (- ex)) mx lx ->
  (lx = loc_Exact \/ (ex <= fexp prec emax (Zdigits2 mx + ex))%Z) ->
  is_finite (binary_round_aux prec emax s mx ex lx) = true ->
  rounds_to (F2R (binary_round_aux prec emax s mx ex lx))
    (if s then - v else v).
Proof.
  intros Hm Hloc Hcase Hfin.
  destruct (binary_round_aux_error s mx ex lx v Hm Hloc Hcase)
    as [E | [mag [_ [E [Hpos Hb]]]]].
  - rewrite E in Hfin. discriminate.
  - unfold rounds_to. rewrite E. destruct s.
    + replace (- mag - - v) with (- (mag - v)) by ring.
      rewrite !Rabs_Ropp, (Rabs_pos_eq mag) by assumption. exact Hb.
    + rewrite (Rabs_pos_eq mag) by assumption. exact Hb.
Qed.

Lemma iter_xO (m d : positive) :
  Z.pos (Pos.iter xO m d) = (Z.pos m * 2 ^ Z.pos d)%Z.
Proof.
  induction d as [|d IH] using Pos.peano_ind.
  - simpl. lia.
  - rewrite Pos.iter_succ, Pos2Z.inj_xO, IH, Pos2Z.inj_succ.
    rewrite Z.pow_succ_r by lia. ring.
Qed.

Lemma shl_align_value (mx : positive) (ex ez : Z) :
  IZR (Z.pos (fst (shl_align mx ex ez))) * bpow (snd (shl_align mx ex ez))
  = IZR (Z.pos mx) * bpow ex
  /\ snd (shl_align mx ex ez) = Z.min ex ez.
Proof.
  unfold shl_align. destruct (ez - ex)%Z as [|d|d] eqn:E; cbn [fst snd].
  - split; [reflexivity | lia].
  - split; [reflexivity | lia].
  - split; [|lia]. rewrite iter_xO, mult_IZR.
    rewrite <- (bpow_IZR (Z.pos d)) by lia.
    rewrite Rmult_assoc, <- bpow_add. f_equal. f_equal. lia.
Qed.

Lemma binary_round_error (s : bool) (m : positive) (e : Z) :
  is_finite (binary_round prec emax s m e) = true ->
  rounds_to (F2R (binary_round prec emax s m e))
    (if s then - (IZR (Z.pos m) * bpow e) else IZR (Z.pos m) * bpow e).
Proof.
  unfold binary_round.
  pose proof (shl_align_value m e
                (fexp prec emax (Z.pos (digits2_pos m) + e))) as [V _].
  destruct (shl_align m e (fexp prec emax (Z.pos (digits2_pos m) + e)))
    as [mz ez]. cbn [fst snd] in V.
  intros Hfin. apply signed_round; [lia | | left; reflexivity | exact Hfin].
  cbn [located]. rewrite <- V, Rmult_assoc, bpow_cancel. ring.
Qed.

Lemma binary_normalize_error (m e : Z) (sz : bool) :
  is_finite (binary_normalize prec emax m e sz) = true ->
  rounds_to (F2R (binary_normalize prec emax m e sz)) (IZR m * bpow e).
Proof.
  destruct m as [|p|p]; cbn [binary_normalize].
  - intros _. unfold rounds_to. simpl.
    replace (0 - 0 * bpow e) with 0 by ring.
    rewrite Rabs_R0. pose proof (bpow_pos (-150)). lra.
  - apply binary_round_error.
  - intros H. pose proof (binary_round_error true p e H) as B.
    replace (IZR (Z.neg p) * bpow e) with (- (IZR (Z.pos p) * bpow e));
      [exact B|].
    change (Z.neg p) with (- Z.pos p)%Z. rewrite opp_IZR. ring.
Qed.

Lemma F2R_finite (s : bool) (m : positive) (e : Z) :
  F2R (S754_finite s m e) = IZR (cond_Zopp s (Z.pos m)) * bpow e.
Proof. destruct s; simpl; [rewrite <- opp_IZR|]; reflexivity. Qed.

Lemma aligned_value (s : bool) (m : positive) (e ez : Z) :
  (ez <= e)%Z ->
  IZR (cond_Zopp s (Z.pos (fst (shl_align m e ez)))) * bpow ez
  = F2R (S754_finite s m e).
Proof.
  intros H. destruct (shl_align_value m e ez) as [V E].
  rewrite Z.min_r in E by assumption. rewrite E in V.
  rewrite F2R_finite. destruct s; cbn [cond_Zopp].
  - rewrite !opp_IZR. rewrite <- !Ropp_mult_distr_l, V. reflexivity.
  - exact V.
Qed.

Lemma rounds_to_refl (r : R) : rounds_to r r.
Proof.
  unfold rounds_to. unfold Rminus. rewrite Rplus_opp_r, Rabs_R0.
  pose proof (bpow_pos (-24)). pose proof (bpow_pos (-150)).
  pose proof (Rabs_pos r). nra.
Qed.

(** The cases of an operation with an operand that is a zero, an infinity
    or a NaN: the result is not finite, or it is exact. *)
Ltac special_case H :=
  repeat match goal with s : bool |- _ => destruct s end;
  simpl in H; try discriminate H;
  repeat split;
  match goal with
  | |- rounds_to ?x ?y =>
      replace y with x by (simpl; ring); apply rounds_to_refl
  end.

(** [a + b] in binary32: a finite result is the rounded sum. *)
Lemma add_error (a b : float) :
  is_finite (add a b) = true ->
  is_finite a = true /\ is_finite b = true
  /\ rounds_to (F2R (add a b)) (F2R a + F2R b).
Proof.
  unfold add.
  destruct a as [sa|sa| |sa ma ea], b as [sb|sb| |sb mb eb]; intros H;
    [special_case H .. |]; revert H.
  cbn [SFadd]. intros H. split; [reflexivity|]. split; [reflexivity|].
  pose proof (binary_normalize_error _ _ _ H) as B.
  rewrite plus_IZR, Rmult_plus_distr_r in B.
  rewrite !aligned_value in B by lia. exact B.
Qed.

(** [a - b] in binary32: a finite result is the rounded difference. *)
Lemma sub_error (a b : float) :
  is_finite (sub a b) = true ->
  is_finite a = true /\ is_finite b = true
  /\ rounds_to (F2R (sub a b)) (F2R a - F2R b).
Proof.
  unfold sub.
  destruct a as [sa|sa| |sa ma ea], b as [sb|sb| |sb mb eb]; intros H;
    [special_case H .. |]; revert H.
  cbn [SFsub]. intros H. split; [reflexivity|]. split; [reflexivity|].
  pose proof (binary_normalize_error _ _ _ H) as B.
  rewrite minus_IZR, Rmult_minus_distr_r in B.
  rewrite !aligned_value in B by lia. exact B.
Qed.

(** [a * b] in binary32: a finite result is the rounded product. *)
Lemma mul_error (a b : float) :
  is_finite (mul a b) = true ->
  is_finite a = true /\ is_finite b = true
  /\ rounds_to (F2R (mul a b)) (F2R a * F2R b).
Proof.
  unfold mul.
  destruct a as [sa|sa| |sa ma ea], b as [sb|sb| |sb mb eb]; intros H;
    [special_case H .. |]; revert H.
  cbn [SFmul]. intros H. split; [reflexivity|]. split; [reflexivity|].
  pose proof (signed_round (xorb sa sb) (Z.pos (ma * mb)) (ea + eb)
                loc_Exact
                (IZR (Z.pos ma) * IZR (Z.pos mb) * bpow (ea + eb))) as B.
  replace (F2R (S754_finite sa ma ea) * F2R (S754_finite sb mb eb))
    with (if xorb sa sb
          then - (IZR (Z.pos ma) * IZR (Z.pos mb) * bpow (ea + eb))
          else IZR (Z.pos ma) * IZR (Z.pos mb) * bpow (ea + eb)).
  - apply B; [lia | | left; reflexivity | exact H].
    cbn [located]. rewrite Pos2Z.inj_mul, mult_IZR.
    rewrite Rmult_assoc, bpow_cancel. ring.
  - rewrite bpow_add. destruct sa, sb; simpl; ring.
Qed.

Lemma new_location_located (q r m2 : Z) :
  (0 <= r < m2)%Z ->
  located (IZR q + IZR r / IZR m2) q (new_location m2 r).
Proof.
  intros [Hr Hm].
  assert (Hy : 0 < IZR m2) by (apply IZR_lt; lia).
  assert (Hz : 0 < / IZR m2) by (apply Rinv_0_lt_compat; exact Hy).
  assert (Hyz : IZR m2 * / IZR m2 = 1) by (apply Rinv_r; lra).
  assert (Hx : 0 <= IZR r) by (apply IZR_le; exact Hr).
  assert (Hxy : IZR r < IZR m2) by (apply IZR_lt; exact Hm).
  unfold new_location, Rdiv.
  destruct (Z.even m2) eqn:Ev.
  - change (new_location_even m2 r)
      with (if (r =? 0)%Z then loc_Exact else loc_Inexact (2 * r ?= m2)%Z).
    destruct (Z.eqb_spec r 0%Z) as [->|Hnz]; [cbn [located]; ring|].
    assert (Hx' : 0 < IZR r) by (apply IZR_lt; lia).
    destruct (Z.compare_spec (2 * r) m2) as [E|L|G]; cbn [located].
    + assert (E' : IZR m2 = 2 * IZR r)
        by (rewrite <- E, mult_IZR; reflexivity).
      nra.
    + apply IZR_lt in L. rewrite mult_IZR in L. nra.
    + apply IZR_lt in G. rewrite mult_IZR in G. nra.
  - change (new_location_odd m2 r)
      with (if (r =? 0)%Z then loc_Exact
            else loc_Inexact match (2 * r + 1 ?= m2)%Z with
                             | Gt => Gt
                             | _ => Lt
                             end).
    destruct (Z.eqb_spec r 0%Z) as [->|Hnz]; [cbn [located]; ring|].
    assert (Hx' : 0 < IZR r) by (apply IZR_lt; lia).
    assert (Hodd : (2 * r <> m2)%Z).
    { intros <-. rewrite Z.even_mul in Ev. discriminate. }
    destruct (Z.compare_spec (2 * r + 1) m2) as [E|L|G]; cbn [located].
    + assert (L : (2 * r < m2)%Z) by lia.
      apply IZR_lt in L. rewrite mult_IZR in L. nra.
    + assert (L' : (2 * r < m2)%Z) by lia.
      apply IZR_lt in L'. rewrite mult_IZR in L'. nra.
    + assert (G' : (m2 < 2 * r)%Z) by lia.
      apply IZR_lt in G'. rewrite mult_IZR in G'. nra.
Qed.

(** The quotient and the remainder place the value of the division, with
    enough bits in the quotient for the rounding to follow. *)
Lemma div_core_located (m1 m2 : positive) (e1 e2 q e' : Z) (l : location) :
  SFdiv_core_binary prec emax (Z.pos m1) e1 (Z.pos m2) e2 = (q, e', l) ->
  (0 <= q)%Z
  /\ located (IZR (Z.pos m1) * bpow e1 / (IZR (Z.pos m2) * bpow e2)
              * bpow (- e')) q l
  /\ (e' <= fexp prec emax (Zdigits2 q + e'))%Z.
Proof.
  unfold SFdiv_core_binary. rewrite !fexp_32.
  cbn [Zdigits2].
  set (d1 := Z.pos (digits2_pos m1)). set (d2 := Z.pos (digits2_pos m2)).
  set (e0 := Z.min (Z.max (d1 + e1 - (d2 + e2) - 24) (-149)) (e1 - e2)).
  set (s := (e1 - e2 - e0)%Z).
  assert (Hs : (0 <= s)%Z) by lia.
  set (m' := match s with
             | 0%Z => Z.pos m1
             | Z.pos _ => Z.shiftl (Z.pos m1) s
             | Z.neg _ => 0%Z
             end).
  assert (Hm' : m' = (Z.pos m1 * 2 ^ s)%Z).
  { unfold m'. destruct s as [|p|p] eqn:Es; [simpl; lia | | lia].
    apply Z.shiftl_mul_pow2. lia. }
  clearbody m'.
  pose proof (Z_div_mod m' (Z.pos m2) ltac:(lia)) as D.
  destruct (Z.div_eucl m' (Z.pos m2)) as [q0 r0].
  destruct D as [D1 D2].
  intros E. injection E as <- <- <-.
  pose proof (digits2_pos_bounds m1) as [L1 U1].
  pose proof (digits2_pos_bounds m2) as [L2 U2].
  fold d1 in L1, U1. fold d2 in L2, U2.
  assert (Hq : (0 <= q0)%Z) by nia.
  split; [exact Hq|]. split.
  - replace (IZR (Z.pos m1) * bpow e1 / (IZR (Z.pos m2) * bpow e2)
             * bpow (- e0))
      with (IZR q0 + IZR r0 / IZR (Z.pos m2)).
    + apply new_location_located. exact D2.
    + assert (Hy : 0 < IZR (Z.pos m2)) by (apply IZR_lt; lia).
      pose proof (bpow_pos e2) as Hb2.
      assert (Em : IZR m' = IZR (Z.pos m1) * bpow s).
      { rewrite Hm', mult_IZR, <- bpow_IZR by lia. reflexivity. }
      assert (Ed : IZR m' = IZR (Z.pos m2) * IZR q0 + IZR r0).
      { rewrite D1, plus_IZR, mult_IZR. reflexivity. }
      assert (Eb : bpow e1 = bpow s * bpow e2 * bpow e0).
      { rewrite <- !bpow_add. f_equal. unfold s. lia. }
      rewrite Eb.
      replace (bpow (- e0)) with (/ bpow e0) by (symmetry; apply bpow_opp).
      pose proof (bpow_pos e0) as Hb0.
      transitivity (IZR m' / IZR (Z.pos m2)).
      * rewrite Ed. field. lra.
      * rewrite Em. field. repeat split; lra.
  - destruct (Z.le_gt_cases e0 (-149)) as [|Hbig]; [lia|].
    assert (Hsb : (24 - d1 + d2 <= s)%Z) by lia.
    assert (H23 : (2 ^ 23 <= q0)%Z).
    { assert (2 ^ (d1 - 1) * 2 ^ s <= m')%Z by nia.
      assert (2 ^ (d1 - 1 + s) <= m')%Z
        by (rewrite Z.pow_add_r by lia; assumption).
      assert (2 ^ (23 + d2) <= 2 ^ (d1 - 1 + s))%Z
        by (apply Z.pow_le_mono_r; lia).
      assert (E23 : (2 ^ (23 + d2) = 2 ^ 23 * 2 ^ d2)%Z)
        by (apply Z.pow_add_r; lia).
      destruct (Z.le_gt_cases (2 ^ 23) q0) as [|Hlt]; [assumption|].
      assert (q0 + 1 <= 2 ^ 23)%Z by lia.
      assert (m' < Z.pos m2 * (q0 + 1))%Z by lia.
      assert (Z.pos m2 * (q0 + 1) <= Z.pos m2 * 2 ^ 23)%Z by nia.
      nia. }
    pose proof (Zdigits2_upper q0 Hq) as Uq.
    assert (23 < Zdigits2 q0)%Z.
    { apply (Z.pow_lt_mono_r_iff 2); [lia | apply Zdigits2_nonneg | lia]. }
    lia.
Qed.

(** [a / b] in binary32, for a divisor that is finite and not zero: a
    finite result is the rounded quotient. *)
Lemma div_error (a b : float) :
  is_finite (div a b) = true -> F2R b <> 0 ->
  is_finite a = true
  /\ rounds_to (F2R (div a b)) (F2R a / F2R b).
Proof.
  unfold div.
  destruct b as [sb|sb| |sb mb eb]; intros H Hb;
    try (simpl in Hb; lra).
  destruct a as [sa|sa| |sa ma ea];
    try (simpl in H; discriminate H).
  - split; [reflexivity|].
    replace (F2R (S754_zero sa) / F2R (S754_finite sb mb eb)) with 0
      by (simpl; unfold Rdiv; ring).
    apply rounds_to_refl.
  - split; [reflexivity|]. cbn [SFdiv] in *.
    destruct (SFdiv_core_binary prec emax (Z.pos ma) ea (Z.pos mb) eb)
      as [[q e'] l] eqn:E.
    destruct (div_core_located _ _ _ _ _ _ _ E) as [Hq [Hl He]].
    pose proof (signed_round (xorb sa sb) q e' l _ Hq Hl (or_intror He) H)
      as B.
    replace (F2R (S754_finite sa ma ea) / F2R (S754_finite sb mb eb))
      with (if xorb sa sb
            then - (IZR (Z.pos ma) * bpow ea / (IZR (Z.pos mb) * bpow eb))
            else IZR (Z.pos ma) * bpow ea / (IZR (Z.pos mb) * bpow eb));
      [exact B|].
    assert (0 < IZR (Z.pos mb)) by (apply IZR_lt; lia).
    pose proof (bpow_pos eb).
    destruct sa, sb; simpl; field; split; lra.
Qed.

End Operations.

(** ** Frame2D: to global coordinates and back *)

Section FrameRoundTrip.

Local Open Scope R_scope.

Lemma Rabs_le_inv (x a : R) : Rabs x <= a -> - a <= x <= a.
Proof. intros H. unfold Rabs in H. destruct (Rcase_abs x); lra. Qed.

Lemma Rabs_mul_le (x y X Y : R) :
  Rabs x <= X -> Rabs y <= Y -> Rabs (x * y) <= X * Y.
Proof.
  intros Hx Hy. rewrite Rabs_mult.
  apply Rmult_le_compat; try assumption; apply Rabs_pos.
Qed.

Lemma rounding_step (M r v : R) :
  rounds_to r v -> Rabs r <= M -> Rabs (r - v) <= rounding M.
Proof.
  unfold rounds_to, rounding. intros H B. pose proof (bpow_pos (-24)).
  apply Rle_trans with (1 := H). apply Rplus_le_compat_r.
  apply Rmult_le_compat_l; lra.
Qed.

Lemma rounding_nonneg (M : R) : 0 <= M -> 0 <= rounding M.
Proof.
  intros H. unfold rounding.
  pose proof (bpow_pos (-24)). pose proof (bpow_pos (-150)). nra.
Qed.

Lemma mul_step (M : R) (a b r : float) :
  r = mul a b -> small M r ->
  Rabs (F2R r - F2R a * F2R b) <= rounding M
  /\ is_finite a = true /\ is_finite b = true.
Proof.
  intros -> [F B]. destruct (mul_error a b F) as [Fa [Fb H]].
  split; [apply rounding_step; assumption | split; assumption].
Qed.

Lemma add_step (M : R) (a b r : float) :
  r = add a b -> small M r -> Rabs (F2R r - (F2R a + F2R b)) <= rounding M.
Proof.
  intros -> [F B]. destruct (add_error a b F) as [_ [_ H]].
  apply rounding_step; assumption.
Qed.

Lemma sub_step (M : R) (a b r : float) :
  r = sub a b -> small M r -> Rabs (F2R r - (F2R a - F2R b)) <= rounding M.
Proof.
  intros -> [F B]. destruct (sub_error a b F) as [_ [_ H]].
  apply rounding_step; assumption.
Qed.

Lemma div_step (M : R) (a b r : float) :
  r = div a b -> F2R b <> 0 -> small M r ->
  Rabs (F2R r - F2R a / F2R b) <= rounding M.
Proof.
  intros -> Hb [F B]. destruct (div_error a b F Hb) as [_ H].
  apply rounding_step; assumption.
Qed.

(** The last step of a level: the division by the scale factor. *)
Lemma scale_back (v x s w B rho sigma : R) :
  Rabs (v - x * s) <= B -> Rabs (w - v / s) <= rho ->
  0 < sigma <= Rabs s ->
  Rabs (w - x) <= B / sigma + rho.
Proof.
  intros HB Hw [Hs1 Hs2].
  assert (Hs : s <> 0) by (intros ->; rewrite Rabs_R0 in Hs2; lra).
  assert (E : w - x = (w - v / s) + (v - x * s) * / s)
    by (field; exact Hs).
  rewrite E. eapply Rle_trans; [apply Rabs_triang|].
  rewrite Rabs_mult, Rabs_inv.
  assert (/ Rabs s <= / sigma) by (apply Rinv_le_contravar; lra).
  assert (0 < / Rabs s) by (apply Rinv_0_lt_compat; lra).
  assert (Rabs (v - x * s) * / Rabs s <= B * / sigma)
    by (apply Rmult_le_compat; try lra; apply Rabs_pos).
  unfold Rdiv. lra.
Qed.

(** One level, there and back: the point comes back within the tolerance
    of the level, when the parent gave back the translated point within
    [e]. *)
Lemma level_round_trip (T : Frame2D.trig) (M tau e : R) (d : Vector2D.t)
    (a : float) (s p q' : Vector2D.t) :
  F2R (Vector2D.x s) <> 0 -> F2R (Vector2D.y s) <> 0 ->
  Frame2D.accurate_at T tau a ->
  Forall (small M) (Frame2D.outward T d a s p) ->
  Forall (small M) (Frame2D.inward T d a s q') ->
  Rabs (F2R (Vector2D.x q')
        - F2R (Vector2D.x (Frame2D.translated d
                 (Frame2D.rotated T a (Frame2D.scaled s p))))) <= e ->
  Rabs (F2R (Vector2D.y q')
        - F2R (Vector2D.y (Frame2D.translated d
                 (Frame2D.rotated T a (Frame2D.scaled s p))))) <= e ->
  Frame2D.within
    ((2 * e + 14 * rounding M + 2 * tau * M)
     / Rmin (Rabs (F2R (Vector2D.x s))) (Rabs (F2R (Vector2D.y s)))
     + rounding M)
    (Frame2D.unscaled s
       (Frame2D.unrotated T a (Frame2D.untranslated d q'))) p.
Proof.
  destruct d as [dx dy], s as [sx sy], p as [px py], q' as [qx qy].
  unfold Frame2D.accurate_at, Frame2D.outward, Frame2D.inward,
    Frame2D.coordinates, Frame2D.products, Frame2D.unscaled,
    Frame2D.unrotated, Frame2D.untranslated, Frame2D.translated,
    Frame2D.rotated, Frame2D.scaled, Frame2D.within, Vector2D.plus,
    Vector2D.minus, Vector2D.is_finite.
  cbn [Vector2D.x Vector2D.y app].
  intros Hsx Hsy [Hc' [Hs' [Ht1 Ht2]]] Hout Hin Hqx Hqy.
  remember (Frame2D.cosine T a) as c eqn:Ec in *.
  remember (Frame2D.sine T a) as sn eqn:Esn in *.
  remember (Frame2D.cosine T (opp a)) as c' eqn:Ec' in *.
  remember (Frame2D.sine T (opp a)) as s' eqn:Es' in *.
  clear Ec Esn Ec' Es'.
  remember (mul px sx) as a1 eqn:Ea1 in *.
  remember (mul py sy) as a2 eqn:Ea2 in *.
  remember (mul a1 c) as m1 eqn:Em1 in *.
  remember (mul a2 sn) as m2 eqn:Em2 in *.
  remember (mul a1 sn) as m3 eqn:Em3 in *.
  remember (mul a2 c) as m4 eqn:Em4 in *.
  remember (sub m1 m2) as r1 eqn:Er1 in *.
  remember (add m3 m4) as r2 eqn:Er2 in *.
  remember (add r1 dx) as q1 eqn:Eq1 in *.
  remember (add r2 dy) as q2 eqn:Eq2 in *.
  remember (sub qx dx) as t1 eqn:Et1 in *.
  remember (sub qy dy) as t2 eqn:Et2 in *.
  remember (mul t1 c') as n1 eqn:En1 in *.
  remember (mul t2 s') as n2 eqn:En2 in *.
  remember (mul t1 s') as n3 eqn:En3 in *.
  remember (mul t2 c') as n4 eqn:En4 in *.
  remember (sub n1 n2) as v1 eqn:Ev1 in *.
  remember (add n3 n4) as v2 eqn:Ev2 in *.
  remember (div v1 sx) as w1 eqn:Ew1 in *.
  remember (div v2 sy) as w2 eqn:Ew2 in *.
  apply Forall_cons in Hout as [Sa1 Hout].
  apply Forall_cons in Hout as [Sa2 Hout].
  apply Forall_cons in Hout as [Sm1 Hout].
  apply Forall_cons in Hout as [Sm2 Hout].
  apply Forall_cons in Hout as [Sm3 Hout].
  apply Forall_cons in Hout as [Sm4 Hout].
  apply Forall_cons in Hout as [Sr1 Hout].
  apply Forall_cons in Hout as [Sr2 Hout].
  apply Forall_cons in Hout as [Sq1 Hout].
  apply Forall_cons in Hout as [Sq2 _].
  apply Forall_cons in Hin as [St1 Hin].
  apply Forall_cons in Hin as [St2 Hin].
  apply Forall_cons in Hin as [Sn1 Hin].
  apply Forall_cons in Hin as [Sn2 Hin].
  apply Forall_cons in Hin as [Sn3 Hin].
  apply Forall_cons in Hin as [Sn4 Hin].
  apply Forall_cons in Hin as [Sv1 Hin].
  apply Forall_cons in Hin as [Sv2 Hin].
  apply Forall_cons in Hin as [Sw1 Hin].
  apply Forall_cons in Hin as [Sw2 _].
  destruct (mul_step M px sx a1 Ea1 Sa1) as [Ra1 [Fpx _]].
  destruct (mul_step M py sy a2 Ea2 Sa2) as [Ra2 [Fpy _]].
  pose proof (proj1 (mul_step M a1 c m1 Em1 Sm1)) as Rm1.
  pose proof (proj1 (mul_step M a2 sn m2 Em2 Sm2)) as Rm2.
  pose proof (proj1 (mul_step M a1 sn m3 Em3 Sm3)) as Rm3.
  pose proof (proj1 (mul_step M a2 c m4 Em4 Sm4)) as Rm4.
  pose proof (sub_step M m1 m2 r1 Er1 Sr1) as Rr1.
  pose proof (add_step M m3 m4 r2 Er2 Sr2) as Rr2.
  pose proof (add_step M r1 dx q1 Eq1 Sq1) as Rq1.
  pose proof (add_step M r2 dy q2 Eq2 Sq2) as Rq2.
  pose proof (sub_step M qx dx t1 Et1 St1) as Rt1.
  pose proof (sub_step M qy dy t2 Et2 St2) as Rt2.
  pose proof (proj1 (mul_step M t1 c' n1 En1 Sn1)) as Rn1.
  pose proof (proj1 (mul_step M t2 s' n2 En2 Sn2)) as Rn2.
  pose proof (proj1 (mul_step M t1 s' n3 En3 Sn3)) as Rn3.
  pose proof (proj1 (mul_step M t2 c' n4 En4 Sn4)) as Rn4.
  pose proof (sub_step M n1 n2 v1 Ev1 Sv1) as Rv1.
  pose proof (add_step M n3 n4 v2 Ev2 Sv2) as Rv2.
  pose proof (div_step M v1 sx w1 Ew1 Hsx Sw1) as Rw1.
  pose proof (div_step M v2 sy w2 Ew2 Hsy Sw2) as Rw2.
  destruct Sa1 as [_ Ba1], Sa2 as [_ Ba2].
  destruct Sw1 as [Fw1 _], Sw2 as [Fw2 _].
  clear Ea1 Ea2 Em1 Em2 Em3 Em4 Er1 Er2 Eq1 Eq2 Et1 Et2 En1 En2 En3 En4
    Ev1 Ev2 Ew1 Ew2 Sm1 Sm2 Sm3 Sm4 Sr1 Sr2 Sq1 Sq2 St1 St2 Sn1 Sn2 Sn3
    Sn4 Sv1 Sv2.
  set (rho := rounding M) in *.
  apply Rabs_le_inv in Ra1, Ra2, Rm1, Rm2, Rm3, Rm4, Rr1, Rr2, Rq1, Rq2,
    Rt1, Rt2, Rn1, Rn2, Rn3, Rn4, Rv1, Rv2, Hqx, Hqy.
  assert (D1 : Rabs (F2R t1 - (F2R a1 * F2R c - F2R a2 * F2R sn))
               <= 5 * rho + e) by (apply Rabs_le; lra).
  assert (D2 : Rabs (F2R t2 - (F2R a1 * F2R sn + F2R a2 * F2R c))
               <= 5 * rho + e) by (apply Rabs_le; lra).
  pose proof (Rabs_mul_le _ _ _ _ D1 Hc') as P1.
  pose proof (Rabs_mul_le _ _ _ _ D2 Hs') as P2.
  pose proof (Rabs_mul_le _ _ _ _ D1 Hs') as P3.
  pose proof (Rabs_mul_le _ _ _ _ D2 Hc') as P4.
  pose proof (Rabs_mul_le _ _ _ _ Ba1 Ht1) as T1.
  pose proof (Rabs_mul_le _ _ _ _ Ba2 Ht2) as T2.
  pose proof (Rabs_mul_le _ _ _ _ Ba2 Ht1) as T3.
  pose proof (Rabs_mul_le _ _ _ _ Ba1 Ht2) as T4.
  apply Rabs_le_inv in P1, P2, P3, P4, T1, T2, T3, T4.
  assert (V1 : Rabs (F2R v1 - F2R px * F2R sx)
               <= 2 * e + 14 * rho + 2 * tau * M)
    by (apply Rabs_le; lra).
  assert (V2 : Rabs (F2R v2 - F2R py * F2R sy)
               <= 2 * e + 14 * rho + 2 * tau * M)
    by (apply Rabs_le; lra).
  assert (Hx0 : 0 < Rabs (F2R sx)) by (apply Rabs_pos_lt; exact Hsx).
  assert (Hy0 : 0 < Rabs (F2R sy)) by (apply Rabs_pos_lt; exact Hsy).
  assert (Hsig : 0 < Rmin (Rabs (F2R sx)) (Rabs (F2R sy)))
    by (apply Rmin_glb_lt; assumption).
  rewrite Fw1, Fw2, Fpx, Fpy.
  split; [reflexivity|]. split; [reflexivity|]. split.
  - apply (scale_back (F2R v1) (F2R px) (F2R sx)); [exact V1 | exact Rw1 |].
    split; [exact Hsig | apply Rmin_l].
  - apply (scale_back (F2R v2) (F2R py) (F2R sy)); [exact V2 | exact Rw2 |].
    split; [exact Hsig | apply Rmin_r].
Qed.

Lemma within_refl_zero (p q : Vector2D.t) :
  p = q ->
  Rabs (F2R (Vector2D.x p) - F2R (Vector2D.x q)) <= 0
  /\ Rabs (F2R (Vector2D.y p) - F2R (Vector2D.y q)) <= 0.
Proof.
  intros ->. unfold Rminus. rewrite !Rplus_opp_r, Rabs_R0. lra.
Qed.

End FrameRoundTrip.

Section Evaluation.

Local Open Scope R_scope.

Lemma bpow_neg_IZR (n : Z) : (0 <= n)%Z -> bpow (- n) = / IZR (2 ^ n).
Proof. intros H. rewrite bpow_opp, bpow_IZR by assumption. reflexivity. Qed.

(** The value of a [float] as a ratio of two integers. *)
Lemma F2R_ratio (a : float) :
  F2R a = IZR (fst (ratio a)) / IZR (snd (ratio a)).
Proof.
  destruct a as [s|s| |s m e]; try (simpl; lra).
  rewrite F2R_finite. unfold ratio.
  destruct (Z.leb_spec 0 e) as [H|H]; cbn [fst snd].
  - rewrite mult_IZR, <- bpow_IZR by assumption. field.
  - replace e with (- - e)%Z at 1 by lia.
    rewrite bpow_neg_IZR by lia. reflexivity.
Qed.

Lemma small_zero (M : R) (s : bool) : 0 <= M -> small M (S754_zero s).
Proof. intros H. split; [reflexivity|]. simpl. rewrite Rabs_R0. exact H. Qed.

(** A mantissa of [d] bits at the exponent [e] is below [2^(d+e)]. *)
Lemma small_digits (k : Z) (s : bool) (m : positive) (e : Z) :
  (Z.pos (digits2_pos m) + e <=? k)%Z = true ->
  small (bpow k) (S754_finite s m e).
Proof.
  intros H. apply Z.leb_le in H. split; [reflexivity|].
  pose proof (digits2_pos_bounds m) as [_ U].
  pose proof (bpow_pos e) as He.
  assert (Hm : 0 < IZR (Z.pos m)) by (apply IZR_lt; lia).
  assert (E : Rabs (F2R (S754_finite s m e)) = IZR (Z.pos m) * bpow e).
  { simpl. destruct s.
    - rewrite <- Ropp_mult_distr_l, Rabs_Ropp. apply Rabs_pos_eq. nra.
    - apply Rabs_pos_eq. nra. }
  rewrite E.
  apply Rle_trans with (bpow (Z.pos (digits2_pos m)) * bpow e).
  - apply Rmult_le_compat_r; [lra|].
    rewrite bpow_IZR by lia. apply IZR_le. lia.
  - rewrite <- bpow_add. apply bpow_le. exact H.
Qed.

End Evaluation.

Section Exact.

Local Open Scope R_scope.




End Exact.

(** Turns [F2R] of a closed [float] into a ratio of two integer literals. *)
Ltac real_of_floats :=
  repeat match goal with
         | |- context [F2R ?a] =>
             let q := eval vm_compute in (ratio a) in
             rewrite (F2R_ratio a); change (ratio a) with q; cbn [fst snd]
         end.

(** Proves that a closed list of [float]s is [small]. *)
Ltac all_small :=
  repeat first
    [ apply Forall_nil_2
    | apply Forall_cons_2;
      [ first [ apply small_zero, Rlt_le, bpow_pos
              | apply small_digits; reflexivity ] | ] ].

(** The tolerance of the sample chain, for values up to [2^7]. *)
Lemma chain3_tolerance :
  (Frame2D.tolerance (bpow 7) (bpow (-26)) Frame2D.chain3 <= 1 / 200)%R.
Proof.
  cbn [Frame2D.tolerance Frame2D.chain3 Vector2D.x Vector2D.y].
  unfold rounding.
  assert (E7 : bpow 7 = IZR 128) by (apply (bpow_IZR 7); lia).
  assert (E24 : bpow (-24) = (/ IZR 16777216)%R)
    by (apply (bpow_neg_IZR 24); lia).
  assert (E26 : bpow (-26) = (/ IZR 67108864)%R)
    by (apply (bpow_neg_IZR 26); lia).
  pose proof (bpow_pos (-150)) as L150.
  pose proof (bpow_le (-150) (-24) ltac:(lia)) as U150.
  rewrite E7, E26, E24 in *.
  set (b := bpow (-150)) in *. clearbody b.
  real_of_floats.
  repeat match goal with
         | |- context [Rabs ?x] =>
             first [ rewrite (Rabs_pos_eq x) by lra
                   | rewrite (Rabs_left1 x) by lra ]
         end.
  repeat match goal with
         | |- context [Rmin ?x ?y] =>
             first [ rewrite (Rmin_left x y) by lra
                   | rewrite (Rmin_right x y) by lra ]
         end.
  lra.
Qed.

(** C7, amended: for every point and every chain of nested frames, of any
    depth and with any positions and rotations, on which no scale factor
    is zero and no computed value overflows, converting the point to global
    coordinates and back returns the point within the tolerance of the
    chain.  That tolerance is not a fixed small number: at each level it
    is twice the tolerance of the parent, fourteen roundings of the largest
    magnitude [M] computed and the error [tau] of the library's cosine and
    sine, over the smaller scale factor, and one more rounding. *)
Theorem frame_round_trip (T : Frame2D.trig) (M tau : R) (f : Frame2D.t)
    (p : Vector2D.t) :
  Frame2D.nonzero_scales f ->
  Frame2D.accurate T tau f ->
  Frame2D.bounded_run T M f p ->
  Frame2D.within (Frame2D.tolerance M tau f)
    (Frame2D.toLocal T f (Frame2D.toGlobal T f p)) p.
Proof.
  unfold Frame2D.bounded_run. revert p.
  induction f as [d a s | g d a s IH] using Frame2D.chain_ind;
    intros p [Hsx [Hsy Hg]] [Ha Hag] Hrun;
    cbn [Frame2D.computed Frame2D.toLocal Frame2D.toGlobal
         Frame2D.tolerance] in *.
  - apply Forall_app in Hrun as [Hout Hin].
    destruct (within_refl_zero
                (Frame2D.translated d
                   (Frame2D.rotated T a (Frame2D.scaled s p))) _ eq_refl)
      as [Zx Zy].
    exact (level_round_trip T M tau 0 d a s p _ Hsx Hsy Ha Hout Hin Zx Zy).
  - apply Forall_app in Hrun as [Hout Hrun].
    apply Forall_app in Hrun as [Hmid Hin].
    destruct (IH _ Hg Hag Hmid) as [_ [_ [Bx By]]].
    exact (level_round_trip T M tau _ d a s p _ Hsx Hsy Ha Hout Hin Bx By).
Qed.

(** The theorem on a chain of three frames, with the library at small
    angles: no value computed exceeds [2^7], the rotations are undone up to
    [2^-26], and the point comes back within the tolerance of the chain,
    which is below [1/200]. *)
Lemma frame_round_trip_witness :
  Frame2D.depth Frame2D.chain3 = 3%nat
  /\ Frame2D.nonzero_scales Frame2D.chain3
  /\ Frame2D.accurate Frame2D.small_angle (bpow (-26)) Frame2D.chain3
  /\ Frame2D.bounded_run Frame2D.small_angle (bpow 7) Frame2D.chain3
       (vec 3 (-2))
  /\ Frame2D.within
       (Frame2D.tolerance (bpow 7) (bpow (-26)) Frame2D.chain3)
       (Frame2D.toLocal Frame2D.small_angle Frame2D.chain3
          (Frame2D.toGlobal Frame2D.small_angle Frame2D.chain3
             (vec 3 (-2))))
       (vec 3 (-2))
  /\ (Frame2D.tolerance (bpow 7) (bpow (-26)) Frame2D.chain3
      <= 1 / 200)%R.
Proof.
  assert (Hs : Frame2D.nonzero_scales Frame2D.chain3).
  { cbn [Frame2D.nonzero_scales Frame2D.chain3 Vector2D.x Vector2D.y].
    repeat split; real_of_floats; lra. }
  assert (Ha : Frame2D.accurate Frame2D.small_angle (bpow (-26))
                 Frame2D.chain3).
  { cbn [Frame2D.accurate Frame2D.chain3]. unfold Frame2D.accurate_at.
    cbn [Frame2D.cosine Frame2D.sine Frame2D.small_angle].
    assert (Et : bpow (-26) = (/ IZR 67108864)%R)
      by (apply (bpow_neg_IZR 26); lia).
    rewrite Et.
    repeat split; real_of_floats; apply Rabs_le; lra. }
  assert (Hr : Frame2D.bounded_run Frame2D.small_angle (bpow 7)
                 Frame2D.chain3 (vec 3 (-2))).
  { unfold Frame2D.bounded_run.
    let l := eval vm_compute in
               (Frame2D.computed Frame2D.small_angle Frame2D.chain3
                  (vec 3 (-2))) in
    change (Frame2D.computed Frame2D.small_angle Frame2D.chain3
              (vec 3 (-2))) with l.
    all_small. }
  split; [reflexivity|]. split; [exact Hs|]. split; [exact Ha|].
  split; [exact Hr|]. split; [|exact chain3_tolerance].
  exact (frame_round_trip Frame2D.small_angle (bpow 7) (bpow (-26))
           Frame2D.chain3 (vec 3 (-2)) Hs Ha Hr).
Defined.

(** C7 as stated fails in binary32 for frames with no zero scale factor.
    With the position [(1000, 0)] and the scale [0.01] the point
    [(777, 0)] comes back at [12730400 / 2^14 = 777 + 2^-9], beyond the
    tolerance [1e-4];
    with the position [(2^25, 0)] and the scale [1] the point [(1, 0)]
    comes back as [(0, 0)]. *)
Lemma frame_round_trip_beyond_tolerance :
  (Frame2D.toLocal Frame2D.small_angle Frame2D.far_frame
     (Frame2D.toGlobal Frame2D.small_angle Frame2D.far_frame (vec 777 0))
   = Vector2D.mk (S754_finite false 12730400 (-14)) pzero
   /\ ~ Frame2D.within (1 / 10000)
          (Frame2D.toLocal Frame2D.small_angle Frame2D.far_frame
             (Frame2D.toGlobal Frame2D.small_angle Frame2D.far_frame
                (vec 777 0)))
          (vec 777 0))
  /\ (Frame2D.toLocal Frame2D.small_angle Frame2D.remote_frame
        (Frame2D.toGlobal Frame2D.small_angle Frame2D.remote_frame
           (vec 1 0)) = Vector2D.zero
      /\ ~ Frame2D.within (1 / 2)
             (Frame2D.toLocal Frame2D.small_angle Frame2D.remote_frame
                (Frame2D.toGlobal Frame2D.small_angle Frame2D.remote_frame
                   (vec 1 0)))
             (vec 1 0)).
Proof.
  split; split; try (vm_compute; reflexivity).
  - intros [_ [_ [H _]]]. revert H. real_of_floats.
    unfold Rabs. destruct Rcase_abs; lra.
  - intros [_ [_ [H _]]]. revert H. real_of_floats.
    unfold Rabs. destruct Rcase_abs; lra.
Qed.

(** The same two round trips for every library whose cosine of a zero is
    [1] and whose sine of a zero is that zero. *)
Lemma round_trip_at_no_rotation (T : Frame2D.trig) (d s p : Vector2D.t) :
  Frame2D.cosine T pzero = of_int 1 ->
  Frame2D.sine T pzero = pzero ->
  Frame2D.cosine T (opp pzero) = of_int 1 ->
  Frame2D.sine T (opp pzero) = opp pzero ->
  Frame2D.toLocal T (Frame2D.Frame None d pzero s)
    (Frame2D.toGlobal T (Frame2D.Frame None d pzero s) p)
  = Frame2D.toLocal Frame2D.small_angle (Frame2D.Frame None d pzero s)
      (Frame2D.toGlobal Frame2D.small_angle
         (Frame2D.Frame None d pzero s) p).
Proof.
  intros H1 H2 H3 H4.
  cbn [Frame2D.toLocal Frame2D.toGlobal].
  unfold Frame2D.unrotated, Frame2D.rotated.
  cbn [Frame2D.cosine Frame2D.sine Frame2D.small_angle].
  rewrite H1, H2, H3, H4. reflexivity.
Qed.

(** A frame with a zero scale factor does not give the point back at all:
    the flattened coordinate is divided by zero on the way back. *)
Lemma frame_round_trip_zero_scale :
  Vector2D.x
    (Frame2D.toLocal Frame2D.small_angle Frame2D.flat_frame
       (Frame2D.toGlobal Frame2D.small_angle Frame2D.flat_frame (vec 1 0)))
  = S754_nan
  /\ forall tol : R,
       ~ Frame2D.within tol
           (Frame2D.toLocal Frame2D.small_angle Frame2D.flat_frame
              (Frame2D.toGlobal Frame2D.small_angle Frame2D.flat_frame
                 (vec 1 0)))
           (vec 1 0).
Proof.
  split; [vm_compute; reflexivity|].
  intros tol [H _]. vm_compute in H. discriminate H.
Qed.

(** * Further properties of the code *)

(** ** Arithmetic of binary32: values that are not finite *)

Section Float32Propagation.

Lemma add_nonfinite_l (a b : float) :
  Float32.is_finite a = false -> Float32.is_finite (add a b) = false.
Proof.
  destruct a as [s|s| |s m e]; try discriminate; intros _;
    destruct b as [s'|s'| |s' m' e']; try reflexivity;
    destruct s, s'; reflexivity.
Qed.

Lemma add_nonfinite_r (a b : float) :
  Float32.is_finite b = false -> Float32.is_finite (add a b) = false.
Proof.
  destruct b as [s'|s'| |s' m' e']; try discriminate; intros _;
    destruct a as [s|s| |s m e]; try reflexivity;
    destruct s, s'; reflexivity.
Qed.

Lemma mul_nonfinite_l (a b : float) :
  Float32.is_finite a = false -> Float32.is_finite (mul a b) = false.
Proof.
  destruct a as [s|s| |s m e]; try discriminate; intros _;
    destruct b as [s'|s'| |s' m' e']; reflexivity.
Qed.

(** A zero times an infinity or a NaN is a NaN. *)
Lemma mul_zero_nonfinite (z dt : float) :
  is_zero z = true -> Float32.is_finite dt = false -> mul z dt = S754_nan.
Proof.
  destruct z as [s|s| |s m e]; try discriminate; intros _.
  destruct dt as [s'|s'| |s' m' e']; try discriminate; reflexivity.
Qed.

(** Nothing divided by a zero is finite. *)
Lemma div_by_zero (f m : float) :
  is_zero m = true -> Float32.is_finite (div f m) = false.
Proof.
  destruct m as [s'|s'| |s' m' e']; try discriminate; intros _.
  destruct f as [s|s| |s m e]; reflexivity.
Qed.

Lemma add_nan_l (a : float) : add S754_nan a = S754_nan.
Proof. reflexivity. Qed.

Lemma add_nan_r (a : float) : add a S754_nan = S754_nan.
Proof. destruct a; reflexivity. Qed.

Lemma mul_nan_l (a : float) : mul S754_nan a = S754_nan.
Proof. reflexivity. Qed.

Lemma mul_nan_r (a : float) : mul a S754_nan = S754_nan.
Proof. destruct a; reflexivity. Qed.

Lemma sub_nan_l (a : float) : sub S754_nan a = S754_nan.
Proof. reflexivity. Qed.

Lemma sub_nan_r (a : float) : sub a S754_nan = S754_nan.
Proof. destruct a; reflexivity. Qed.

Lemma div_nan_l (a : float) : div S754_nan a = S754_nan.
Proof. reflexivity. Qed.

Lemma div_nan_r (a : float) : div a S754_nan = S754_nan.
Proof. destruct a; reflexivity. Qed.

(** Adding to a zero gives the number, up to the sign of a zero. *)
Lemma add_zero_l_same (z q : float) :
  is_zero z = true -> Float32.same (add z q) q.
Proof.
  destruct z as [s|s| |s m e]; try discriminate; intros _.
  destruct q as [s'|s'| |s' m' e']; try (left; reflexivity).
  right. split; [destruct s, s'|]; reflexivity.
Qed.

Lemma mul_same_l (a b c : float) :
  Float32.same a b -> Float32.same (mul a c) (mul b c).
Proof.
  intros [E | [Ha Hb]]; [rewrite E; apply same_refl|].
  destruct a as [s|s| |s m e]; try discriminate.
  destruct b as [s'|s'| |s' m' e']; try discriminate.
  destruct c as [sc|sc| |sc mc ec];
    first [left; reflexivity | right; split; reflexivity].
Qed.

Lemma add_same_r (p a b : float) :
  Float32.same a b -> Float32.same (add p a) (add p b).
Proof.
  intros [E | [Ha Hb]]; [rewrite E; apply same_refl|].
  apply add_zeros_same; assumption.
Qed.

(** The magnitude of a vector of zeros is the positive zero. *)
Lemma magnitude_of_zeros (v : Vector2D.t) :
  Vector2D.is_zero v = true -> Vector2D.magnitude v = pzero.
Proof.
  destruct v as [[sx|sx| |sx mx ex] [sy|sy| |sy my ey]];
    try discriminate; intros _.
  destruct sx, sy; reflexivity.
Qed.

End Float32Propagation.

(** ** Forces and steps on one body *)

Section BodyForces.

Lemma force_step_coordinate (p v a f m dt : float) :
  is_zero a = true ->
  Float32.same (add v (mul (add a (div f m)) dt)) (add v (mul (div f m) dt))
  /\ Float32.same
       (add p (mul (add v (mul (add a (div f m)) dt)) dt))
       (add p (mul (add v (mul (div f m) dt)) dt)).
Proof.
  intros Ha.
  pose proof (add_zero_l_same a (div f m) Ha) as H0.
  pose proof (add_same_r v _ _ (mul_same_l _ _ dt H0)) as H1.
  split; [exact H1|].
  apply add_same_r, mul_same_l. exact H1.
Qed.

Lemma lost_coordinate (p v a f m dt : float) :
  is_zero m = true ->
  Float32.is_finite (add a (div f m)) = false
  /\ Float32.is_finite (add v (mul (add a (div f m)) dt)) = false
  /\ Float32.is_finite
       (add p (mul (add v (mul (add a (div f m)) dt)) dt)) = false.
Proof.
  intros Hm.
  assert (Ha : Float32.is_finite (add a (div f m)) = false)
    by (apply add_nonfinite_r, div_by_zero; exact Hm).
  assert (Hv : Float32.is_finite (add v (mul (add a (div f m)) dt)) = false)
    by (apply add_nonfinite_r, mul_nonfinite_l; exact Ha).
  split; [exact Ha|]. split; [exact Hv|].
  apply add_nonfinite_r, mul_nonfinite_l. exact Hv.
Qed.

End BodyForces.

(** X1: a force on a body whose accumulated acceleration is zero, followed
    by a step: the velocity becomes [velocity + (force / mass) * dt], the
    position moves by that new velocity times [dt], and the accumulated
    acceleration is the zero vector again, for every force, mass and [dt],
    as floating-point values (a zero coordinate may differ in sign). *)
Theorem applyForce_then_update (b : PhysicsBody.t) (force : Vector2D.t)
    (dt : float) :
  Vector2D.is_zero (PhysicsBody.acceleration b) = true ->
  Vector2D.same
    (PhysicsBody.velocity
       (PhysicsBody.update (PhysicsBody.applyForce b force) dt))
    (Vector2D.plus (PhysicsBody.velocity b)
       (Vector2D.times (Vector2D.over force (PhysicsBody.mass b)) dt))
  /\ Vector2D.same
       (PhysicsBody.position
          (PhysicsBody.update (PhysicsBody.applyForce b force) dt))
       (Vector2D.plus (PhysicsBody.position b)
          (Vector2D.times
             (Vector2D.plus (PhysicsBody.velocity b)
                (Vector2D.times (Vector2D.over force (PhysicsBody.mass b))
                   dt)) dt))
  /\ PhysicsBody.acceleration
       (PhysicsBody.update (PhysicsBody.applyForce b force) dt)
     = Vector2D.zero
  /\ PhysicsBody.mass
       (PhysicsBody.update (PhysicsBody.applyForce b force) dt)
     = PhysicsBody.mass b.
Proof.
  intros Ha.
  destruct b as [[px py] [vx vy] [ax ay] m]. destruct force as [fx fy].
  apply andb_prop in Ha. simpl in Ha. destruct Ha as [Hax Hay].
  unfold Vector2D.same; simpl.
  destruct (force_step_coordinate px vx ax fx m dt Hax) as [Hvx Hpx].
  destruct (force_step_coordinate py vy ay fy m dt Hay) as [Hvy Hpy].
  repeat split; assumption.
Qed.

(** The theorem at the second body of [initWorld], the force [(0, 3)] and
    [dt = 2]. *)
Lemma applyForce_then_update_witness :
  Vector2D.is_zero (PhysicsBody.acceleration body_B) = true
  /\ Vector2D.same
       (PhysicsBody.velocity
          (PhysicsBody.update (PhysicsBody.applyForce body_B (vec 0 3))
             (of_int 2)))
       (Vector2D.plus (PhysicsBody.velocity body_B)
          (Vector2D.times (Vector2D.over (vec 0 3) (PhysicsBody.mass body_B))
             (of_int 2))).
Proof.
  split; [reflexivity|].
  exact (proj1 (applyForce_then_update body_B (vec 0 3) (of_int 2) eq_refl)).
Defined.

(** X2: a force on a body of mass zero, whatever the force, leaves both
    coordinates of the accumulated acceleration infinite or NaN, and after
    the next step, whatever [dt], both coordinates of the velocity and of
    the position are infinite or NaN. *)
Theorem zero_mass_body_is_lost (b : PhysicsBody.t) (force : Vector2D.t)
    (dt : float) :
  is_zero (PhysicsBody.mass b) = true ->
  (Float32.is_finite
     (Vector2D.x (PhysicsBody.acceleration (PhysicsBody.applyForce b force)))
   = false
   /\ Float32.is_finite
        (Vector2D.y
           (PhysicsBody.acceleration (PhysicsBody.applyForce b force)))
      = false)
  /\ (Float32.is_finite
        (Vector2D.x
           (PhysicsBody.velocity
              (PhysicsBody.update (PhysicsBody.applyForce b force) dt)))
      = false
      /\ Float32.is_finite
           (Vector2D.y
              (PhysicsBody.velocity
                 (PhysicsBody.update (PhysicsBody.applyForce b force) dt)))
         = false)
  /\ (Float32.is_finite
        (Vector2D.x
           (PhysicsBody.position
              (PhysicsBody.update (PhysicsBody.applyForce b force) dt)))
      = false
      /\ Float32.is_finite
           (Vector2D.y
              (PhysicsBody.position
                 (PhysicsBody.update (PhysicsBody.applyForce b force) dt)))
         = false).
Proof.
  intros Hm.
  destruct b as [[px py] [vx vy] [ax ay] m]. destruct force as [fx fy].
  simpl in *.
  destruct (lost_coordinate px vx ax fx m dt Hm) as [Hax [Hvx Hpx]].
  destruct (lost_coordinate py vy ay fy m dt Hm) as [Hay [Hvy Hpy]].
  repeat split; assumption.
Qed.

(** The theorem at the body built with mass zero. *)
Lemma zero_mass_body_is_lost_witness :
  is_zero (PhysicsBody.mass massless_body) = true
  /\ Float32.is_finite
       (Vector2D.x
          (PhysicsBody.position
             (PhysicsBody.update
                (PhysicsBody.applyForce massless_body (vec 1 0))
                (of_int 1)))) = false.
Proof.
  split; [reflexivity|].
  exact (proj1 (proj2 (proj2
    (zero_mass_body_is_lost massless_body (vec 1 0) (of_int 1) eq_refl)))).
Defined.

(** ** Worlds: what gravity, steps and clones keep *)

Section WorldFacts.

Lemma lookup_update (w : PhysicsWorld.t) (dt : float) (i : nat)
    (b : PhysicsBody.t) :
  PhysicsWorld.bodies w !! i = Some b ->
  PhysicsWorld.bodies (PhysicsWorld.update w dt) !! i
  = Some (PhysicsBody.update b dt).
Proof.
  intros H. rewrite update_bodies, list_lookup_fmap, H. reflexivity.
Qed.

Lemma lookup_same_kinematics (l1 l2 : list PhysicsBody.t) (i : nat)
    (b : PhysicsBody.t) :
  kinematics <$> l1 = kinematics <$> l2 ->
  l2 !! i = Some b ->
  exists b', l1 !! i = Some b' /\ kinematics b' = kinematics b.
Proof.
  intros E H.
  assert (H' : kinematics <$> (l1 !! i) = kinematics <$> (l2 !! i))
    by (rewrite <- !list_lookup_fmap, E; reflexivity).
  rewrite H in H'. destruct (l1 !! i) as [b'|]; [|discriminate].
  exists b'. split; [reflexivity|]. simpl in H'. congruence.
Qed.

Lemma lookup_gravity (s : float) (w : PhysicsWorld.t) (i : nat)
    (b : PhysicsBody.t) :
  PhysicsWorld.bodies w !! i = Some b ->
  exists b', PhysicsWorld.bodies (applyGravitationalForces s w) !! i = Some b'
             /\ kinematics b' = kinematics b.
Proof. apply lookup_same_kinematics, kinematics_gravity. Qed.

Lemma lookup_interact (s : float) (i j k : nat) (bs : list PhysicsBody.t)
    (b : PhysicsBody.t) :
  bs !! k = Some b ->
  exists b', interact s i j bs !! k = Some b'
             /\ kinematics b' = kinematics b.
Proof. apply lookup_same_kinematics, kinematics_interact. Qed.

(** A clone is made of the tick and of the kinematics alone. *)
Lemma clone_from_kinematics (w1 w2 : PhysicsWorld.t) :
  PhysicsWorld.ticks w1 = PhysicsWorld.ticks w2 ->
  kinematics <$> PhysicsWorld.bodies w1 = kinematics <$> PhysicsWorld.bodies w2 ->
  PhysicsWorld.clone w1 = PhysicsWorld.clone w2.
Proof.
  intros Ht Hk. rewrite !clone_spec, Ht. f_equal.
  assert (Hc : forall bs : list PhysicsBody.t,
            PhysicsBody.clone <$> bs
            = (fun k : Vector2D.t * Vector2D.t * float =>
                 PhysicsBody.make (fst (fst k)) (snd (fst k)) (snd k))
                <$> (kinematics <$> bs)).
  { intros bs. rewrite <- list_fmap_compose. apply list_fmap_ext.
    intros i b _. reflexivity. }
  rewrite !Hc, Hk. reflexivity.
Qed.

Lemma clone_of_kinematics (bs : list PhysicsBody.t) :
  PhysicsBody.clone <$> bs
  = (fun k : Vector2D.t * Vector2D.t * float =>
       PhysicsBody.make (fst (fst k)) (snd (fst k)) (snd k))
      <$> (kinematics <$> bs).
Proof.
  rewrite <- list_fmap_compose. apply list_fmap_ext. intros i b _.
  reflexivity.
Qed.

(** The points of the preview loop are made from the bodies of the copy. *)
Lemma preview_loop_of_bodies (sd s : float) (target horizon : nat)
    (c1 c2 : PhysicsWorld.t) :
  PhysicsWorld.bodies c1 = PhysicsWorld.bodies c2 ->
  snd (preview_loop sd s target horizon c1)
  = snd (preview_loop sd s target horizon c2).
Proof.
  revert c1 c2. induction horizon as [|h IH]; intros c1 c2 Hb;
    [reflexivity|].
  cbn [preview_loop].
  assert (Hnext : PhysicsWorld.bodies (fst (preview_step sd s target c1))
                  = PhysicsWorld.bodies (fst (preview_step sd s target c2))).
  { destruct c1 as [t1 b1], c2 as [t2 b2].
    cbn [PhysicsWorld.bodies] in Hb. subst b2. reflexivity. }
  assert (Hpoint : snd (preview_step sd s target c1)
                   = snd (preview_step sd s target c2)).
  { destruct c1 as [t1 b1], c2 as [t2 b2].
    cbn [PhysicsWorld.bodies] in Hb. subst b2. reflexivity. }
  destruct (preview_step sd s target c1) as [n1 p1].
  destruct (preview_step sd s target c2) as [n2 p2].
  cbn [fst snd] in Hnext, Hpoint. specialize (IH n1 n2 Hnext).
  destruct (preview_loop sd s target h n1) as [f1 ps1].
  destruct (preview_loop sd s target h n2) as [f2 ps2].
  cbn [snd] in *. congruence.
Qed.

End WorldFacts.

(** X3: [applyGravitationalForces] changes accumulated accelerations only:
    the tick, the number of bodies and, slot by slot, every position,
    velocity and mass are as before. *)
Theorem gravity_changes_accelerations_only (strength : float)
    (w : PhysicsWorld.t) :
  PhysicsWorld.ticks (applyGravitationalForces strength w)
    = PhysicsWorld.ticks w
  /\ length (PhysicsWorld.bodies (applyGravitationalForces strength w))
     = length (PhysicsWorld.bodies w)
  /\ PhysicsBody.position
       <$> PhysicsWorld.bodies (applyGravitationalForces strength w)
     = PhysicsBody.position <$> PhysicsWorld.bodies w
  /\ PhysicsBody.velocity
       <$> PhysicsWorld.bodies (applyGravitationalForces strength w)
     = PhysicsBody.velocity <$> PhysicsWorld.bodies w
  /\ PhysicsBody.mass
       <$> PhysicsWorld.bodies (applyGravitationalForces strength w)
     = PhysicsBody.mass <$> PhysicsWorld.bodies w.
Proof.
  pose proof (kinematics_gravity strength w) as H.
  split; [reflexivity|]. split.
  - rewrite <- (length_fmap kinematics), H. apply length_fmap.
  - assert (Hp : forall bs : list PhysicsBody.t,
              PhysicsBody.position <$> bs
              = (fun k : Vector2D.t * Vector2D.t * float => fst (fst k))
                  <$> (kinematics <$> bs))
      by (intros bs; rewrite <- list_fmap_compose; reflexivity).
    assert (Hv : forall bs : list PhysicsBody.t,
              PhysicsBody.velocity <$> bs
              = (fun k : Vector2D.t * Vector2D.t * float => snd (fst k))
                  <$> (kinematics <$> bs))
      by (intros bs; rewrite <- list_fmap_compose; reflexivity).
    assert (Hm : forall bs : list PhysicsBody.t,
              PhysicsBody.mass <$> bs
              = (fun k : Vector2D.t * Vector2D.t * float => snd k)
                  <$> (kinematics <$> bs))
      by (intros bs; rewrite <- list_fmap_compose; reflexivity).
    rewrite !Hp, !Hv, !Hm, H. repeat split.
Qed.

(** X4: on a world with no body or with one body the gravity routine has
    no pair to visit and returns the world as it was. *)
Theorem gravity_needs_two_bodies (strength : float) (w : PhysicsWorld.t) :
  (length (PhysicsWorld.bodies w) <= 1)%nat ->
  applyGravitationalForces strength w = w.
Proof.
  destruct w as [t [|b [|b' bs]]]; simpl; intros H;
    [reflexivity | reflexivity | lia].
Qed.

(** The theorem on a world of one body. *)
Lemma gravity_needs_two_bodies_witness :
  (length (PhysicsWorld.bodies massless_world) <= 1)%nat
  /\ applyGravitationalForces GRAVITATIONAL_CONSTANT massless_world
     = massless_world.
Proof.
  assert (H : (length (PhysicsWorld.bodies massless_world) <= 1)%nat)
    by (simpl; lia).
  split; [exact H|].
  exact (gravity_needs_two_bodies GRAVITATIONAL_CONSTANT massless_world H).
Defined.

(** X5: a clone does not carry accumulated accelerations: the clone taken
    after [applyGravitationalForces] is the clone taken before it, and
    cloning a clone changes nothing.  The preview depends on the positions,
    velocities and masses of the world alone: two worlds that agree on
    them, slot by slot, have the same preview, whatever their ticks and
    their accumulated accelerations; so the preview that [main] computes
    right after applying the forces is the one it would compute without
    them. *)
Theorem clone_forgets_forces (strength : float) (w : PhysicsWorld.t) :
  PhysicsWorld.clone (applyGravitationalForces strength w)
    = PhysicsWorld.clone w
  /\ (forall (w' : PhysicsWorld.t) (samplingDistance s : float)
             (target horizon : nat),
        kinematics <$> PhysicsWorld.bodies w'
        = kinematics <$> PhysicsWorld.bodies w ->
        preview samplingDistance s target horizon w'
        = preview samplingDistance s target horizon w)
  /\ PhysicsWorld.clone (PhysicsWorld.clone w) = PhysicsWorld.clone w.
Proof.
  split; [|split].
  - apply clone_from_kinematics; [reflexivity | apply kinematics_gravity].
  - intros w' sd s target horizon Hk. unfold preview.
    apply preview_loop_of_bodies. rewrite !clone_spec.
    cbn [PhysicsWorld.bodies]. rewrite !clone_of_kinematics, Hk.
    reflexivity.
  - apply clone_from_kinematics; [rewrite clone_spec; reflexivity|].
    apply clone_kinematics.
Qed.

(** The theorem on the world of [initWorld], against the same bodies after
    the forces were applied and with another tick. *)
Lemma clone_forgets_forces_witness :
  preview (of_int 20) GRAVITATIONAL_CONSTANT 1 3
    (PhysicsWorld.mk 7
       (PhysicsWorld.bodies
          (applyGravitationalForces GRAVITATIONAL_CONSTANT initWorld)))
  = preview (of_int 20) GRAVITATIONAL_CONSTANT 1 3 initWorld.
Proof.
  exact (proj1 (proj2
    (clone_forgets_forces GRAVITATIONAL_CONSTANT initWorld))
    (PhysicsWorld.mk 7
       (PhysicsWorld.bodies
          (applyGravitationalForces GRAVITATIONAL_CONSTANT initWorld)))
    (of_int 20) GRAVITATIONAL_CONSTANT 1%nat 3%nat
    (kinematics_gravity GRAVITATIONAL_CONSTANT initWorld)).
Defined.

(** X6: a step keeps the number of bodies and every mass, and leaves every
    body with the zero vector as accumulated acceleration, so that the
    total force read from a body of finite mass right after a step is zero
    in both coordinates. *)
Theorem update_resets_every_body (w : PhysicsWorld.t) (dt : float) :
  length (PhysicsWorld.bodies (PhysicsWorld.update w dt))
    = length (PhysicsWorld.bodies w)
  /\ PhysicsBody.mass <$> PhysicsWorld.bodies (PhysicsWorld.update w dt)
     = PhysicsBody.mass <$> PhysicsWorld.bodies w
  /\ (forall (i : nat) (b : PhysicsBody.t),
        PhysicsWorld.bodies (PhysicsWorld.update w dt) !! i = Some b ->
        PhysicsBody.getAcceleration b = Vector2D.zero
        /\ (Float32.is_finite (PhysicsBody.mass b) = true ->
            Vector2D.is_zero (getTotalForce b) = true)).
Proof.
  rewrite update_bodies. split; [apply length_fmap|]. split.
  - rewrite <- list_fmap_compose. apply list_fmap_ext. intros i b _.
    reflexivity.
  - intros i b H. rewrite list_lookup_fmap in H.
    destruct (PhysicsWorld.bodies w !! i) as [b0|]; [|discriminate].
    simpl in H. inversion H; subst b. split; [reflexivity|].
    intros Hm. unfold getTotalForce, Vector2D.is_zero.
    apply andb_true_intro.
    split; apply (mul_zero_finite pzero _ eq_refl Hm).
Qed.

(** The theorem on the world of [initWorld] after a step of [dt = 1]. *)
Lemma update_resets_every_body_witness :
  PhysicsWorld.bodies (PhysicsWorld.update initWorld (of_int 1)) !! 0%nat
    = Some (PhysicsBody.update body_A (of_int 1))
  /\ Float32.is_finite
       (PhysicsBody.mass (PhysicsBody.update body_A (of_int 1))) = true
  /\ Vector2D.is_zero
       (getTotalForce (PhysicsBody.update body_A (of_int 1))) = true.
Proof.
  split; [reflexivity|]. split; [reflexivity|].
  exact (proj2 (proj2 (proj2 (update_resets_every_body initWorld (of_int 1)))
                  0%nat (PhysicsBody.update body_A (of_int 1)) eq_refl)
           eq_refl).
Defined.

(** ** Values that are not finite do not come back *)

Section Lost.

Lemma vector_not_finite (v : Vector2D.t) :
  Vector2D.is_finite v = false <->
  Float32.is_finite (Vector2D.x v) = false
  \/ Float32.is_finite (Vector2D.y v) = false.
Proof. unfold Vector2D.is_finite. apply andb_false_iff. Qed.

Lemma update_velocity_not_finite (b : PhysicsBody.t) (dt : float) :
  Vector2D.is_finite (PhysicsBody.velocity b) = false ->
  Vector2D.is_finite (PhysicsBody.velocity (PhysicsBody.update b dt)) = false
  /\ Vector2D.is_finite (PhysicsBody.position (PhysicsBody.update b dt))
     = false.
Proof.
  rewrite !vector_not_finite. destruct b as [[px py] [vx vy] [ax ay] m].
  simpl. intros [H|H].
  - split; left; [|apply add_nonfinite_r, mul_nonfinite_l];
      apply add_nonfinite_l; exact H.
  - split; right; [|apply add_nonfinite_r, mul_nonfinite_l];
      apply add_nonfinite_l; exact H.
Qed.

Lemma update_position_not_finite (b : PhysicsBody.t) (dt : float) :
  Vector2D.is_finite (PhysicsBody.position b) = false ->
  Vector2D.is_finite (PhysicsBody.position (PhysicsBody.update b dt))
  = false.
Proof.
  rewrite !vector_not_finite. destruct b as [[px py] [vx vy] [ax ay] m].
  simpl. intros [H|H]; [left|right]; apply add_nonfinite_l; exact H.
Qed.

Lemma lookup_main_tick (w : PhysicsWorld.t) (dt : float) (i : nat)
    (b : PhysicsBody.t) :
  PhysicsWorld.bodies w !! i = Some b ->
  exists b', PhysicsWorld.bodies (main_tick w dt) !! i = Some b'
             /\ kinematics b' = kinematics (PhysicsBody.update b dt).
Proof.
  intros H. unfold main_tick. apply lookup_gravity, lookup_update, H.
Qed.

Lemma main_run_not_finite (dts : list float) (w : PhysicsWorld.t) (i : nat)
    (b : PhysicsBody.t) :
  PhysicsWorld.bodies w !! i = Some b ->
  Vector2D.is_finite (PhysicsBody.velocity b) = false ->
  exists b', PhysicsWorld.bodies (main_run w dts) !! i = Some b'
    /\ Vector2D.is_finite (PhysicsBody.velocity b') = false
    /\ (Vector2D.is_finite (PhysicsBody.position b) = false \/ dts <> [] ->
        Vector2D.is_finite (PhysicsBody.position b') = false).
Proof.
  revert w b. induction dts as [|dt dts IH]; intros w b Hb Hv.
  - exists b. split; [exact Hb|]. split; [exact Hv|].
    intros [H|H]; [exact H | congruence].
  - destruct (lookup_main_tick w dt i b Hb) as [b1 [Hb1 Hk]].
    destruct (update_velocity_not_finite b dt Hv) as [Hv1 Hp1].
    pose proof (f_equal (fun k => snd (fst k)) Hk) as Hvel.
    pose proof (f_equal (fun k => fst (fst k)) Hk) as Hpos.
    cbn [kinematics fst snd] in Hvel, Hpos.
    rewrite <- Hvel in Hv1. rewrite <- Hpos in Hp1.
    destruct (IH (main_tick w dt) b1 Hb1 Hv1) as [b' [Hb' [Hv' Hp']]].
    exists b'. split; [exact Hb'|]. split; [exact Hv'|].
    intros _. apply Hp'. left. exact Hp1.
Qed.

End Lost.

(** X7: a body whose velocity has a coordinate that is infinite or NaN
    keeps such a velocity through every pass of the live loop of [main]
    (step, then gravity), whatever the frame times, and from the first pass
    on its position has such a coordinate too: no step brings a body
    back. *)
Theorem lost_body_stays_lost (w : PhysicsWorld.t) (i : nat)
    (b : PhysicsBody.t) (deltaTimes : list float) :
  PhysicsWorld.bodies w !! i = Some b ->
  Vector2D.is_finite (PhysicsBody.velocity b) = false ->
  exists b' : PhysicsBody.t,
    PhysicsWorld.bodies (main_run w deltaTimes) !! i = Some b'
    /\ Vector2D.is_finite (PhysicsBody.velocity b') = false
    /\ (deltaTimes <> [] ->
        Vector2D.is_finite (PhysicsBody.position b') = false).
Proof.
  intros Hb Hv.
  destruct (main_run_not_finite deltaTimes w i b Hb Hv) as [b' [H1 [H2 H3]]].
  exists b'. split; [exact H1|]. split; [exact H2|].
  intros Hne. apply H3. right. exact Hne.
Qed.

(** The theorem on a world whose only body has an infinite velocity. *)
Lemma lost_body_stays_lost_witness :
  exists b' : PhysicsBody.t,
    PhysicsWorld.bodies
      (main_run
         (PhysicsWorld.mk 0
            [PhysicsBody.make (vec 0 0) (Vector2D.mk pinf pzero) (of_int 1)])
         [of_int 1; of_int 2]) !! 0%nat = Some b'
    /\ Vector2D.is_finite (PhysicsBody.velocity b') = false
    /\ ([of_int 1; of_int 2] <> [] ->
        Vector2D.is_finite (PhysicsBody.position b') = false).
Proof.
  exact (lost_body_stays_lost
           (PhysicsWorld.mk 0
              [PhysicsBody.make (vec 0 0) (Vector2D.mk pinf pzero)
                 (of_int 1)])
           0 (PhysicsBody.make (vec 0 0) (Vector2D.mk pinf pzero) (of_int 1))
           [of_int 1; of_int 2] eq_refl eq_refl).
Defined.

(** ** A NaN position spreads through gravity *)

Section Contagion.

Lemma force_of_nan_position (s : float) (b1 b2 : PhysicsBody.t) :
  has_nan (PhysicsBody.position b1) \/ has_nan (PhysicsBody.position b2) ->
  gravitational_force s b1 b2 = nan_vector.
Proof.
  unfold gravitational_force, PhysicsBody.getPosition, has_nan.
  destruct (PhysicsBody.position b1) as [x1 y1].
  destruct (PhysicsBody.position b2) as [x2 y2]. simpl.
  assert (Hmag : forall dx dy : float,
            dx = S754_nan \/ dy = S754_nan ->
            Vector2D.magnitude (Vector2D.mk dx dy) = S754_nan).
  { intros dx dy [E|E]; subst; unfold Vector2D.magnitude;
      cbn [Vector2D.x Vector2D.y].
    - rewrite mul_nan_l, add_nan_l. reflexivity.
    - rewrite mul_nan_l, add_nan_r. reflexivity. }
  intros H.
  assert (Hd : sub x2 x1 = S754_nan \/ sub y2 y1 = S754_nan).
  { destruct H as [[E|E]|[E|E]]; subst;
      [left; apply sub_nan_r | right; apply sub_nan_r
      | left; apply sub_nan_l | right; apply sub_nan_l]. }
  unfold Vector2D.normalized, Vector2D.minus, Vector2D.over, Vector2D.times.
  cbn [Vector2D.x Vector2D.y]. rewrite (Hmag _ _ Hd).
  rewrite !div_nan_r, !mul_nan_l. reflexivity.
Qed.

Lemma applyForce_nan (b : PhysicsBody.t) :
  PhysicsBody.acceleration (PhysicsBody.applyForce b nan_vector) = nan_vector
  /\ PhysicsBody.acceleration
       (PhysicsBody.applyForce b (Vector2D.neg nan_vector)) = nan_vector.
Proof.
  destruct b as [p v [ax ay] m].
  unfold nan_vector, PhysicsBody.applyForce, Vector2D.plus, Vector2D.over,
    Vector2D.neg.
  cbn [PhysicsBody.acceleration PhysicsBody.mass Vector2D.x Vector2D.y opp
       SFopp].
  rewrite !div_nan_l, !add_nan_r. split; reflexivity.
Qed.

Lemma applyForce_keeps_nan (b : PhysicsBody.t) (f : Vector2D.t) :
  PhysicsBody.acceleration b = nan_vector ->
  PhysicsBody.acceleration (PhysicsBody.applyForce b f) = nan_vector.
Proof. destruct b as [p v a m]. simpl. intros ->. reflexivity. Qed.

Lemma alter_keeps_nan (f : PhysicsBody.t -> PhysicsBody.t) (k m : nat)
    (bs : list PhysicsBody.t) (b : PhysicsBody.t) :
  (forall c, PhysicsBody.acceleration c = nan_vector ->
             PhysicsBody.acceleration (f c) = nan_vector) ->
  bs !! m = Some b -> PhysicsBody.acceleration b = nan_vector ->
  exists b', alter f k bs !! m = Some b'
             /\ PhysicsBody.acceleration b' = nan_vector.
Proof.
  intros Hf Hb Ha. destruct (decide (k = m)) as [->|Hne].
  - exists (f b). rewrite list_lookup_alter_eq, Hb. split; [reflexivity|].
    apply Hf, Ha.
  - exists b. rewrite list_lookup_alter_ne by exact Hne. split; assumption.
Qed.

Lemma interact_keeps_nan (s : float) (i j m : nat) (bs : list PhysicsBody.t)
    (b : PhysicsBody.t) :
  bs !! m = Some b -> PhysicsBody.acceleration b = nan_vector ->
  exists b', interact s i j bs !! m = Some b'
             /\ PhysicsBody.acceleration b' = nan_vector.
Proof.
  intros Hb Ha. unfold interact.
  destruct (alter_keeps_nan
              (fun c => PhysicsBody.applyForce c
                 (gravitational_force s (bs !!! i) (bs !!! j)))
              i m bs b) as [b1 [Hb1 Ha1]];
    [intros c; apply applyForce_keeps_nan | exact Hb | exact Ha |].
  apply (alter_keeps_nan _ j m _ b1);
    [intros c; apply applyForce_keeps_nan | exact Hb1 | exact Ha1].
Qed.

Lemma fold_keeps_nan (s : float) (ps : list (nat * nat)) (m : nat)
    (bs : list PhysicsBody.t) (b : PhysicsBody.t) :
  bs !! m = Some b -> PhysicsBody.acceleration b = nan_vector ->
  exists b',
    foldl (fun acc p => interact s (fst p) (snd p) acc) bs ps !! m = Some b'
    /\ PhysicsBody.acceleration b' = nan_vector.
Proof.
  revert bs b. induction ps as [|p ps IH]; intros bs b Hb Ha.
  - exists b. split; assumption.
  - cbn [foldl].
    destruct (interact_keeps_nan s (fst p) (snd p) m bs b Hb Ha)
      as [b1 [Hb1 Ha1]].
    exact (IH _ b1 Hb1 Ha1).
Qed.

Lemma fold_infects (s : float) (ps : list (nat * nat)) (i j : nat)
    (bs : list PhysicsBody.t) (b1 b2 : PhysicsBody.t) :
  In (i, j) ps -> i <> j ->
  bs !! i = Some b1 -> bs !! j = Some b2 ->
  has_nan (PhysicsBody.position b1) \/ has_nan (PhysicsBody.position b2) ->
  (exists b',
     foldl (fun acc p => interact s (fst p) (snd p) acc) bs ps !! i = Some b'
     /\ PhysicsBody.acceleration b' = nan_vector)
  /\ (exists b',
        foldl (fun acc p => interact s (fst p) (snd p) acc) bs ps !! j
        = Some b'
        /\ PhysicsBody.acceleration b' = nan_vector).
Proof.
  revert bs b1 b2.
  induction ps as [|p ps IH]; intros bs b1 b2 Hin Hij H1 H2 Hnan;
    [destruct Hin|].
  cbn [foldl]. destruct Hin as [Hp|Hin].
  - subst p. cbn [fst snd].
    pose proof (interact_first s i j bs b1 b2 Hij H1 H2) as Hi.
    pose proof (interact_second s i j bs b1 b2 Hij H1 H2) as Hj.
    rewrite (force_of_nan_position s b1 b2 Hnan) in Hi, Hj.
    split; eapply fold_keeps_nan; eauto; apply applyForce_nan.
  - destruct (lookup_interact s (fst p) (snd p) i bs b1 H1) as [c1 [Hc1 K1]].
    destruct (lookup_interact s (fst p) (snd p) j bs b2 H2) as [c2 [Hc2 K2]].
    apply (IH _ c1 c2 Hin Hij Hc1 Hc2).
    pose proof (f_equal (fun k => fst (fst k)) K1) as P1.
    pose proof (f_equal (fun k => fst (fst k)) K2) as P2.
    cbn [kinematics fst snd] in P1, P2.
    rewrite P1, P2. exact Hnan.
Qed.

Lemma update_of_nan_acceleration (b : PhysicsBody.t) (dt : float) :
  PhysicsBody.acceleration b = nan_vector ->
  PhysicsBody.velocity (PhysicsBody.update b dt) = nan_vector
  /\ PhysicsBody.position (PhysicsBody.update b dt) = nan_vector.
Proof.
  destruct b as [[px py] [vx vy] a m]. cbn [PhysicsBody.acceleration].
  intros ->.
  unfold PhysicsBody.update, Vector2D.plus, Vector2D.times, nan_vector.
  cbn [PhysicsBody.acceleration PhysicsBody.velocity PhysicsBody.position
       Vector2D.x Vector2D.y].
  rewrite !mul_nan_l, !add_nan_r, ?mul_nan_l, ?add_nan_r.
  split; reflexivity.
Qed.

End Contagion.

(** X8: in a world of two bodies or more, if the position of one body has
    a NaN coordinate, [applyGravitationalForces] leaves every body of the
    world with NaN as accumulated acceleration in both coordinates, and the
    next step, whatever [dt], turns every velocity and every position into
    NaN. *)
Theorem nan_position_spreads (strength : float) (w : PhysicsWorld.t)
    (k : nat) (lost : PhysicsBody.t) (dt : float) :
  (2 <= length (PhysicsWorld.bodies w))%nat ->
  PhysicsWorld.bodies w !! k = Some lost ->
  has_nan (PhysicsBody.position lost) ->
  forall i : nat, (i < length (PhysicsWorld.bodies w))%nat ->
    (exists b : PhysicsBody.t,
       PhysicsWorld.bodies (applyGravitationalForces strength w) !! i
       = Some b
       /\ PhysicsBody.getAcceleration b = nan_vector)
    /\ (exists b : PhysicsBody.t,
          PhysicsWorld.bodies
            (PhysicsWorld.update (applyGravitationalForces strength w) dt)
            !! i = Some b
          /\ PhysicsBody.getVelocity b = nan_vector
          /\ PhysicsBody.getPosition b = nan_vector).
Proof.
  intros Hlen Hk Hnan i Hi.
  assert (Hacc : exists b : PhysicsBody.t,
            PhysicsWorld.bodies (applyGravitationalForces strength w) !! i
            = Some b
            /\ PhysicsBody.acceleration b = nan_vector).
  { rewrite applyGravitationalForces_pairs.
    pose proof (lookup_lt_Some _ _ _ Hk) as Hklt.
    assert (Hother : exists m : nat,
              m <> k /\ (m < length (PhysicsWorld.bodies w))%nat
              /\ (i = k \/ i = m)).
    { destruct (decide (i = k)) as [->|Hne].
      - destruct k as [|k'];
          [exists 1%nat | exists 0%nat]; repeat split; auto; lia.
      - exists i. auto. }
    destruct Hother as [m [Hmk [Hmlt Him]]].
    destruct (lookup_lt_is_Some_2 _ _ Hmlt) as [bm Hbm].
    destruct (Nat.lt_total m k) as [Hlt|[Heq|Hgt]]; [|contradiction|].
    - assert (Hin : In (m, k)
                (index_pairs (length (PhysicsWorld.bodies w))))
        by (apply index_pairs_spec; lia).
      destruct (fold_infects strength _ m k _ bm lost Hin Hmk Hbm Hk
                  (or_intror Hnan)) as [Hm' Hk'].
      destruct Him as [->| ->]; assumption.
    - assert (Hin : In (k, m)
                (index_pairs (length (PhysicsWorld.bodies w))))
        by (apply index_pairs_spec; lia).
      destruct (fold_infects strength _ k m _ lost bm Hin
                  (not_eq_sym Hmk) Hk Hbm (or_introl Hnan)) as [Hk' Hm'].
      destruct Him as [->| ->]; assumption. }
  split; [exact Hacc|].
  destruct Hacc as [b [Hb Ha]].
  exists (PhysicsBody.update b dt).
  split; [apply lookup_update, Hb|].
  apply update_of_nan_acceleration, Ha.
Qed.

(** The theorem on a world of two bodies, the second at a NaN abscissa. *)
Lemma nan_position_spreads_witness :
  exists b : PhysicsBody.t,
    PhysicsWorld.bodies
      (applyGravitationalForces GRAVITATIONAL_CONSTANT
         (PhysicsWorld.mk 0
            [body_A;
             PhysicsBody.make (Vector2D.mk S754_nan pzero) (vec 0 0)
               (of_int 1)])) !! 0%nat = Some b
    /\ PhysicsBody.getAcceleration b = nan_vector.
Proof.
  refine (proj1 (nan_position_spreads GRAVITATIONAL_CONSTANT
    (PhysicsWorld.mk 0
       [body_A;
        PhysicsBody.make (Vector2D.mk S754_nan pzero) (vec 0 0) (of_int 1)])
    1%nat
    (PhysicsBody.make (Vector2D.mk S754_nan pzero) (vec 0 0) (of_int 1))
    (of_int 1) _ eq_refl (or_introl eq_refl) 0%nat _)); simpl; lia.
Defined.

(** ** The preview of a body at rest *)

Section PreviewAtRest.

Lemma update_of_body_at_rest (b : PhysicsBody.t) (dt : float) :
  Float32.is_finite dt = false ->
  Vector2D.is_zero (PhysicsBody.acceleration b) = true ->
  PhysicsBody.velocity (PhysicsBody.update b dt) = nan_vector
  /\ PhysicsBody.position (PhysicsBody.update b dt) = nan_vector.
Proof.
  intros Hdt Ha. destruct b as [[px py] [vx vy] [ax ay] m].
  apply andb_prop in Ha. cbn [PhysicsBody.acceleration Vector2D.x Vector2D.y]
    in Ha. destruct Ha as [Hax Hay].
  unfold PhysicsBody.update, Vector2D.plus, Vector2D.times, nan_vector.
  cbn [PhysicsBody.acceleration PhysicsBody.velocity PhysicsBody.position
       Vector2D.x Vector2D.y].
  rewrite (mul_zero_nonfinite ax dt Hax Hdt).
  rewrite (mul_zero_nonfinite ay dt Hay Hdt).
  rewrite !add_nan_r, ?mul_nan_l, ?add_nan_r. split; reflexivity.
Qed.

Lemma update_of_lost_body (b : PhysicsBody.t) (dt : float) :
  PhysicsBody.velocity b = nan_vector ->
  PhysicsBody.position b = nan_vector ->
  PhysicsBody.velocity (PhysicsBody.update b dt) = nan_vector
  /\ PhysicsBody.position (PhysicsBody.update b dt) = nan_vector.
Proof.
  destruct b as [p v a m]. cbn [PhysicsBody.velocity PhysicsBody.position].
  intros -> ->. split; reflexivity.
Qed.

Lemma pass_of_doomed_body (sd st : float) (target : nat)
    (w : PhysicsWorld.t) (b : PhysicsBody.t) :
  PhysicsWorld.bodies w !! target = Some b ->
  (PhysicsBody.velocity b = nan_vector
   /\ PhysicsBody.position b = nan_vector)
  \/ (Vector2D.is_zero (PhysicsBody.velocity b) = true
      /\ Vector2D.is_zero (PhysicsBody.acceleration b) = true) ->
  snd (preview_step sd st target w) = nan_vector
  /\ exists b',
       PhysicsWorld.bodies (fst (preview_step sd st target w)) !! target
       = Some b'
       /\ PhysicsBody.velocity b' = nan_vector
       /\ PhysicsBody.position b' = nan_vector.
Proof.
  intros Hb Hcase. unfold preview_step.
  rewrite (list_lookup_total_correct _ _ _ Hb).
  set (dt := div sd (Vector2D.magnitude (PhysicsBody.getVelocity b))).
  assert (Hup : PhysicsBody.velocity (PhysicsBody.update b dt) = nan_vector
                /\ PhysicsBody.position (PhysicsBody.update b dt)
                   = nan_vector).
  { destruct Hcase as [[Hv Hp] | [Hv Ha]].
    - apply update_of_lost_body; assumption.
    - apply update_of_body_at_rest; [|exact Ha].
      unfold dt, PhysicsBody.getVelocity.
      rewrite (magnitude_of_zeros _ Hv). apply div_by_zero. reflexivity. }
  destruct Hup as [Hv' Hp'].
  destruct (lookup_gravity st (PhysicsWorld.update w dt) target
              (PhysicsBody.update b dt) (lookup_update w dt target b Hb))
    as [b' [Hb' Hk]].
  pose proof (f_equal (fun k => snd (fst k)) Hk) as Hvel.
  pose proof (f_equal (fun k => fst (fst k)) Hk) as Hpos.
  cbn [kinematics fst snd] in Hvel, Hpos.
  cbn [fst snd]. rewrite (list_lookup_total_correct _ _ _ Hb').
  unfold PhysicsBody.getPosition. split; [congruence|].
  exists b'. split; [exact Hb'|]. split; congruence.
Qed.

Lemma loop_of_doomed_body (sd st : float) (target horizon : nat)
    (w : PhysicsWorld.t) (b : PhysicsBody.t) :
  PhysicsWorld.bodies w !! target = Some b ->
  (PhysicsBody.velocity b = nan_vector
   /\ PhysicsBody.position b = nan_vector)
  \/ (Vector2D.is_zero (PhysicsBody.velocity b) = true
      /\ Vector2D.is_zero (PhysicsBody.acceleration b) = true) ->
  Forall (fun p => p = nan_vector) (snd (preview_loop sd st target horizon w)).
Proof.
  revert w b. induction horizon as [|h IH]; intros w b Hb Hcase.
  - constructor.
  - cbn [preview_loop].
    destruct (pass_of_doomed_body sd st target w b Hb Hcase)
      as [Hpoint [b' [Hb' [Hv' Hp']]]].
    destruct (preview_step sd st target w) as [next point].
    cbn [fst snd] in *.
    specialize (IH next b' Hb' (or_introl (conj Hv' Hp'))).
    destruct (preview_loop sd st target h next) as [final points].
    cbn [snd] in *. constructor; assumption.
Qed.

End PreviewAtRest.

(** X9: when the body that the preview follows is at rest (both
    coordinates of its velocity are zero), the step size of the first pass
    is the sampling distance over zero, which is not finite, and every
    point of the preview is NaN in both coordinates, whatever the sampling
    distance, the strength, the horizon and the other bodies. *)
Theorem preview_of_body_at_rest (samplingDistance strength : float)
    (target horizon : nat) (world : PhysicsWorld.t) (b : PhysicsBody.t) :
  PhysicsWorld.bodies world !! target = Some b ->
  Vector2D.is_zero (PhysicsBody.getVelocity b) = true ->
  Float32.is_finite
    (div samplingDistance
       (Vector2D.magnitude (PhysicsBody.getVelocity b))) = false
  /\ length (preview samplingDistance strength target horizon world)
     = horizon
  /\ Forall (fun p => p = nan_vector)
       (preview samplingDistance strength target horizon world).
Proof.
  intros Hb Hv. split; [|split].
  - rewrite (magnitude_of_zeros _ Hv). apply div_by_zero. reflexivity.
  - apply preview_loop_points.
  - unfold preview.
    apply (loop_of_doomed_body _ _ _ _ _ (PhysicsBody.clone b)).
    + rewrite clone_spec. cbn [PhysicsWorld.bodies].
      rewrite list_lookup_fmap, Hb. reflexivity.
    + right. split; [exact Hv | reflexivity].
Qed.

(** The theorem on the world of [initWorld] with its second body stopped:
    the hundred points of [main] are all NaN. *)
Lemma preview_of_body_at_rest_witness :
  Forall (fun p => p = nan_vector)
    (preview (of_int 20) GRAVITATIONAL_CONSTANT 1 100
       (PhysicsWorld.mk 0
          [body_A; PhysicsBody.setVelocity body_B Vector2D.zero])).
Proof.
  exact (proj2 (proj2
    (preview_of_body_at_rest (of_int 20) GRAVITATIONAL_CONSTANT 1 100
       (PhysicsWorld.mk 0
          [body_A; PhysicsBody.setVelocity body_B Vector2D.zero])
       (PhysicsBody.setVelocity body_B Vector2D.zero) eq_refl eq_refl))).
Defined.

(** ** The pool of drawables *)

Section Pool.

Lemma addDrawable_loop_skips (depth : nat -> Z) (d n : nat)
    (mid pre tail : list nat) :
  Forall (fun p => depth p <= depth d) mid ->
  Camera.addDrawable_loop depth d (length mid + n) (length pre)
    (pre ++ mid ++ tail)
  = Camera.addDrawable_loop depth d n (length pre + length mid)
      (pre ++ mid ++ tail).
Proof.
  revert pre. induction mid as [|p mid IH]; intros pre Hmid.
  - simpl. rewrite Nat.add_0_r. reflexivity.
  - apply Forall_cons in Hmid. destruct Hmid as [Hp Hmid].
    cbn [length Nat.add Camera.addDrawable_loop app].
    rewrite (list_lookup_total_middle pre (mid ++ tail) p) by reflexivity.
    destruct (Z.gtb_spec (depth p) (depth d)) as [Hgt|_]; [lia|].
    specialize (IH (pre ++ [p]) Hmid).
    rewrite length_app in IH. cbn [length] in IH.
    rewrite <- !app_assoc in IH. cbn [app] in IH.
    replace (length pre + 1)%nat with (S (length pre)) in IH by lia.
    rewrite IH. f_equal. lia.
Qed.

Lemma addDrawable_loop_none (depth : nat -> Z) (d : nat) (ds : list nat) :
  Forall (fun p => depth p <= depth d) ds ->
  Camera.addDrawable_loop depth d (length ds) 0 ds = ds.
Proof.
  intros H.
  pose proof (addDrawable_loop_skips depth d 0 ds [] [] H) as E.
  rewrite app_nil_r, Nat.add_0_r in E. simpl in E. exact E.
Qed.

Lemma addDrawable_loop_first (depth : nat -> Z) (d q : nat)
    (pre post : list nat) :
  Forall (fun p => depth p <= depth d) pre ->
  depth d < depth q ->
  Camera.addDrawable_loop depth d (length (pre ++ q :: post)) 0
    (pre ++ q :: post)
  = pre ++ d :: q :: post.
Proof.
  intros Hpre Hq.
  pose proof (addDrawable_loop_skips depth d (S (length post)) pre []
                (q :: post) Hpre) as E.
  simpl in E. rewrite length_app. cbn [length]. rewrite E.
  rewrite (list_lookup_total_middle pre post q) by reflexivity.
  destruct (Z.gtb_spec (depth q) (depth d)) as [_|Hle]; [|lia].
  rewrite take_app_length, drop_app_length. reflexivity.
Qed.

(** Either nothing in the pool is deeper than [d], or there is a first
    drawable that is. *)
Lemma first_deeper (depth : nat -> Z) (d : nat) (ds : list nat) :
  Forall (fun p => depth p <= depth d) ds
  \/ exists pre q post,
       ds = pre ++ q :: post
       /\ Forall (fun p => depth p <= depth d) pre
       /\ depth d < depth q.
Proof.
  induction ds as [|p ds IH]; [left; constructor|].
  destruct (Z.lt_ge_cases (depth d) (depth p)) as [Hlt|Hge].
  - right. exists [], p, ds. repeat split; [constructor | exact Hlt].
  - destruct IH as [Hall | [pre [q [post [E [Hpre Hq]]]]]].
    + left. constructor; assumption.
    + right. exists (p :: pre), q, post. subst ds.
      repeat split; [constructor; assumption | exact Hq].
Qed.

Lemma depth_sorted_insert (depth : nat -> Z) (d q : nat)
    (pre post : list nat) :
  Forall (fun p => depth p <= depth d) pre ->
  depth d < depth q ->
  Camera.depth_sorted depth (pre ++ q :: post) ->
  Camera.depth_sorted depth (pre ++ d :: q :: post).
Proof.
  intros Hpre Hq. induction pre as [|p pre IH]; cbn [app Camera.depth_sorted].
  - intros [Hpost Hs]. split; [|split; assumption].
    constructor; [lia|].
    eapply Forall_impl; [exact Hpost|]. intros x Hx. simpl in Hx. lia.
  - apply Forall_cons in Hpre. destruct Hpre as [Hp Hpre].
    intros [Hall Hs]. split; [|apply IH; assumption].
    apply Forall_app in Hall. destruct Hall as [H1 H2].
    apply Forall_app. split; [exact H1|]. constructor; assumption.
Qed.

Lemma removeDrawable_loop_skips (d n : nat) (mid pre tail : list nat) :
  d ∉ mid ->
  Camera.removeDrawable_loop d (length mid + n) (length pre)
    (pre ++ mid ++ tail)
  = Camera.removeDrawable_loop d n (length pre + length mid)
      (pre ++ mid ++ tail).
Proof.
  revert pre. induction mid as [|p mid IH]; intros pre Hmid.
  - simpl. rewrite Nat.add_0_r. reflexivity.
  - apply not_elem_of_cons in Hmid. destruct Hmid as [Hp Hmid].
    cbn [length Nat.add Camera.removeDrawable_loop app].
    rewrite (list_lookup_total_middle pre (mid ++ tail) p) by reflexivity.
    destruct (Nat.eqb_spec p d) as [E|_]; [congruence|].
    specialize (IH (pre ++ [p]) Hmid).
    rewrite length_app in IH. cbn [length] in IH.
    rewrite <- !app_assoc in IH. cbn [app] in IH.
    replace (length pre + 1)%nat with (S (length pre)) in IH by lia.
    rewrite IH. f_equal. lia.
Qed.

Lemma removeDrawable_absent (d : nat) (ds : list nat) :
  d ∉ ds -> Camera.removeDrawable ds d = ds.
Proof.
  intros H. unfold Camera.removeDrawable.
  pose proof (removeDrawable_loop_skips d 0 ds [] [] H) as E.
  rewrite app_nil_r, Nat.add_0_r in E. simpl in E. exact E.
Qed.

Lemma removeDrawable_first (d : nat) (pre post : list nat) :
  d ∉ pre ->
  Camera.removeDrawable (pre ++ d :: post) d = pre ++ post.
Proof.
  intros H. unfold Camera.removeDrawable.
  pose proof (removeDrawable_loop_skips d (S (length post)) pre []
                (d :: post) H) as E.
  simpl in E. rewrite length_app. cbn [length]. rewrite E.
  rewrite (list_lookup_total_middle pre post d) by reflexivity.
  rewrite Nat.eqb_refl. apply delete_middle.
Qed.

Lemma addDrawable_empty (depth : nat -> Z) (d : nat) :
  Camera.addDrawable depth [] d = [d].
Proof.
  unfold Camera.addDrawable. simpl.
  destruct (Z.gtb_spec (depth d) (depth d)); [lia | reflexivity].
Qed.

Lemma addDrawable_nonempty (depth : nat -> Z) (d : nat) (ds : list nat) :
  ds <> [] ->
  Camera.addDrawable depth ds d
  = Camera.addDrawable_loop depth d (length ds) 0 ds.
Proof.
  intros H. unfold Camera.addDrawable.
  destruct ds as [|p ds]; [congruence | reflexivity].
Qed.

End Pool.

(** X10: [Camera::addDrawable] puts a drawable into an empty pool; into a
    pool that is not empty it inserts the drawable just before the first
    drawable that is strictly deeper, and when no drawable of the pool is
    strictly deeper it leaves the pool as it was: the drawable is not
    added. *)
Theorem addDrawable_cases (depth : nat -> Z) (d : nat) :
  Camera.addDrawable depth [] d = [d]
  /\ (forall ds : list nat,
        ds <> [] ->
        Forall (fun p => depth p <= depth d) ds ->
        Camera.addDrawable depth ds d = ds)
  /\ (forall (pre post : list nat) (q : nat),
        Forall (fun p => depth p <= depth d) pre ->
        depth d < depth q ->
        Camera.addDrawable depth (pre ++ q :: post) d
        = pre ++ d :: q :: post).
Proof.
  split; [apply addDrawable_empty|]. split.
  - intros ds Hne Hall. rewrite addDrawable_nonempty by exact Hne.
    apply addDrawable_loop_none, Hall.
  - intros pre post q Hpre Hq.
    rewrite addDrawable_nonempty by (destruct pre; discriminate).
    apply addDrawable_loop_first; assumption.
Qed.

(** X11: [Camera::addDrawable] keeps a pool that is in non-decreasing order
    of depth in that order, and the pool grows by one drawable at most. *)
Theorem addDrawable_keeps_order (depth : nat -> Z) (ds : list nat)
    (d : nat) :
  Camera.depth_sorted depth ds ->
  Camera.depth_sorted depth (Camera.addDrawable depth ds d)
  /\ (length ds <= length (Camera.addDrawable depth ds d)
      <= S (length ds))%nat.
Proof.
  intros Hs. destruct ds as [|p0 ds0].
  - rewrite addDrawable_empty. simpl. repeat split; [constructor | lia | lia].
  - rewrite addDrawable_nonempty by discriminate.
    destruct (first_deeper depth d (p0 :: ds0))
      as [Hall | [pre [q [post [E [Hpre Hq]]]]]].
    + rewrite addDrawable_loop_none by exact Hall. split; [exact Hs | lia].
    + rewrite E. rewrite addDrawable_loop_first by assumption.
      rewrite E in Hs. split.
      * apply depth_sorted_insert; assumption.
      * rewrite !length_app. cbn [length]. lia.
Qed.

(** The theorem on a pool of two drawables of depths 1 and 10 and a new
    drawable of depth 4. *)
Lemma addDrawable_keeps_order_witness :
  Camera.depth_sorted (fun p => nth p [1; 10; 4] 0) [0%nat; 1%nat]
  /\ Camera.addDrawable (fun p => nth p [1; 10; 4] 0) [0%nat; 1%nat] 2
     = [0%nat; 2%nat; 1%nat]
  /\ Camera.depth_sorted (fun p => nth p [1; 10; 4] 0)
       (Camera.addDrawable (fun p => nth p [1; 10; 4] 0) [0%nat; 1%nat] 2).
Proof.
  assert (H : Camera.depth_sorted (fun p => nth p [1; 10; 4] 0)
                [0%nat; 1%nat]).
  { simpl. repeat split; repeat constructor. lia. }
  split; [exact H|]. split; [reflexivity|].
  exact (proj1 (addDrawable_keeps_order _ _ 2%nat H)).
Defined.

(** X12: [Camera::removeDrawable] leaves a pool that does not hold the
    drawable as it was, removes the first occurrence of the drawable
    otherwise, and undoes [addDrawable]: for a drawable that is not in the
    pool, adding it and then removing it gives the pool back, whether the
    drawable had been added or not. *)
Theorem removeDrawable_cases (ds : list nat) (d : nat) :
  (d ∉ ds -> Camera.removeDrawable ds d = ds)
  /\ (forall pre post : list nat,
        ds = pre ++ d :: post -> d ∉ pre ->
        Camera.removeDrawable ds d = pre ++ post)
  /\ (forall depth : nat -> Z,
        d ∉ ds ->
        Camera.removeDrawable (Camera.addDrawable depth ds d) d = ds).
Proof.
  split; [apply removeDrawable_absent|]. split.
  - intros pre post -> H. apply removeDrawable_first, H.
  - intros depth Hd. destruct ds as [|p0 ds0].
    + rewrite addDrawable_empty.
      apply (removeDrawable_first d [] []). apply not_elem_of_nil.
    + rewrite addDrawable_nonempty by discriminate.
      destruct (first_deeper depth d (p0 :: ds0))
        as [Hall | [pre [q [post [E [Hpre Hq]]]]]].
      * rewrite addDrawable_loop_none by exact Hall.
        apply removeDrawable_absent, Hd.
      * rewrite E. rewrite addDrawable_loop_first by assumption.
        rewrite E in Hd. apply not_elem_of_app in Hd.
        apply removeDrawable_first, Hd.
Qed.

(** The theorem on a pool of two drawables and a third one. *)
Lemma removeDrawable_cases_witness :
  (2%nat ∉ [0%nat; 1%nat])
  /\ Camera.removeDrawable
       (Camera.addDrawable (fun p => nth p [1; 10; 4] 0) [0%nat; 1%nat] 2) 2
     = [0%nat; 1%nat].
Proof.
  assert (H : 2%nat ∉ [0%nat; 1%nat]).
  { intros Hin. apply elem_of_cons in Hin. destruct Hin as [E|Hin];
      [discriminate|].
    apply elem_of_cons in Hin. destruct Hin as [E|Hin]; [discriminate|].
    apply elem_of_nil in Hin. exact Hin. }
  split; [exact H|].
  exact (proj2 (proj2 (removeDrawable_cases [0%nat; 1%nat] 2%nat))
           (fun p => nth p [1; 10; 4] 0) H).
Defined.

Section Construction.

Lemma set_depth_other (this p : nat) (d : Z) (depth : nat -> Z) :
  p <> this -> Camera.set_depth this d depth p = depth p.
Proof.
  intros H. unfold Camera.set_depth.
  destruct (Nat.eqb_spec p this); [contradiction | reflexivity].
Qed.

Lemma set_depth_same (this : nat) (d : Z) (depth : nat -> Z) :
  Camera.set_depth this d depth this = d.
Proof. unfold Camera.set_depth. rewrite Nat.eqb_refl. reflexivity. Qed.

Lemma Forall_set_depth (this : nat) (depth : nat -> Z) (ds : list nat) :
  this ∉ ds ->
  Forall (fun p => depth p <= 0) ds ->
  Forall (fun p => Camera.set_depth this 0 depth p
                   <= Camera.set_depth this 0 depth this) ds.
Proof.
  intros Hin Hall. rewrite set_depth_same.
  induction ds as [|p ds IH]; [constructor|].
  apply not_elem_of_cons in Hin. destruct Hin as [Hp Hin].
  apply Forall_cons in Hall. destruct Hall as [H1 H2].
  constructor; [|apply IH; assumption].
  rewrite set_depth_other by congruence. exact H1.
Qed.

End Construction.

(** X13: a drawable is put in the pool by the base constructor, while its
    depth is still the initial [0], and the depth of its class is assigned
    afterwards: whatever that depth, a new drawable goes alone into an
    empty pool, goes just before the first drawable of the pool whose
    depth is above [0], and is not put in the pool at all when the pool is
    not empty and holds no drawable of depth above [0]. *)
Theorem constructor_registers_at_depth_zero (class_depth : Z) (this : nat)
    (R : Camera.registry) :
  this ∉ Camera.pool R ->
  Camera.depth_of (Camera.derived_constructor class_depth this R) this
    = class_depth
  /\ (Camera.pool R = [] ->
      Camera.pool (Camera.derived_constructor class_depth this R) = [this])
  /\ (Camera.pool R <> [] ->
      Forall (fun p => Camera.depth_of R p <= 0) (Camera.pool R) ->
      Camera.pool (Camera.derived_constructor class_depth this R)
      = Camera.pool R)
  /\ (forall (pre post : list nat) (q : nat),
        Camera.pool R = pre ++ q :: post ->
        Forall (fun p => Camera.depth_of R p <= 0) pre ->
        0 < Camera.depth_of R q ->
        Camera.pool (Camera.derived_constructor class_depth this R)
        = pre ++ this :: q :: post).
Proof.
  intros Hfresh. destruct R as [depth ds]. cbn [Camera.pool Camera.depth_of]
    in *.
  unfold Camera.derived_constructor, Camera.Drawable_constructor.
  cbn [Camera.pool Camera.depth_of].
  split; [apply set_depth_same|]. split; [|split].
  - intros ->. apply addDrawable_empty.
  - intros Hne Hall. rewrite addDrawable_nonempty by exact Hne.
    apply addDrawable_loop_none, Forall_set_depth; assumption.
  - intros pre post q -> Hpre Hq.
    apply not_elem_of_app in Hfresh. destruct Hfresh as [Hf1 Hf2].
    apply not_elem_of_cons in Hf2. destruct Hf2 as [Hq' _].
    rewrite addDrawable_nonempty by (destruct pre; discriminate).
    apply addDrawable_loop_first.
    + apply Forall_set_depth; assumption.
    + rewrite set_depth_same, set_depth_other by congruence. exact Hq.
Qed.

(** The theorem on the four drawables of [main], built in the order of
    their declarations with the depths 1, 1, 10 and 4 of their classes:
    after the first three are built the pool is grid, second body, first
    body, and the trajectory, of depth 4, goes before the grid, of depth
    10. *)
Lemma constructor_registers_at_depth_zero_witness :
  (4%nat ∉ Camera.pool
     (Camera.derived_constructor 10 3
        (Camera.derived_constructor 1 2
           (Camera.derived_constructor 1 1
              (Camera.mkRegistry (fun _ => 0) [])))))
  /\ Camera.pool
       (Camera.derived_constructor 10 3
          (Camera.derived_constructor 1 2
             (Camera.derived_constructor 1 1
                (Camera.mkRegistry (fun _ => 0) []))))
     = [3%nat; 2%nat; 1%nat]
  /\ Camera.pool
       (Camera.derived_constructor 4 4
          (Camera.derived_constructor 10 3
             (Camera.derived_constructor 1 2
                (Camera.derived_constructor 1 1
                   (Camera.mkRegistry (fun _ => 0) [])))))
     = [4%nat; 3%nat; 2%nat; 1%nat].
Proof.
  assert (H : 4%nat ∉ Camera.pool
     (Camera.derived_constructor 10 3
        (Camera.derived_constructor 1 2
           (Camera.derived_constructor 1 1
              (Camera.mkRegistry (fun _ => 0) []))))).
  { change (4%nat ∉ [3%nat; 2%nat; 1%nat]). intros Hin.
    repeat (apply elem_of_cons in Hin; destruct Hin as [E|Hin];
            [discriminate|]).
    apply elem_of_nil in Hin. exact Hin. }
  split; [exact H|]. split; [reflexivity|].
  refine (proj2 (proj2 (proj2
    (constructor_registers_at_depth_zero 4 4%nat _ H))) [] [2%nat; 1%nat]
    3%nat eq_refl _ _).
  - constructor.
  - vm_compute. reflexivity.
Defined.

(** ** TrajectoryDrawable *)

Section Trajectory.

Lemma draw_loop_segments (rest pre : list Vector2D.t) (p : Vector2D.t) :
  TrajectoryDrawable.draw_loop (length rest) (length pre)
    (pre ++ p :: rest)
  = zip_with DrawLine (p :: rest) rest.
Proof.
  revert pre p. induction rest as [|q rest IH]; intros pre p; [reflexivity|].
  cbn [length TrajectoryDrawable.draw_loop zip_with].
  rewrite (list_lookup_total_middle pre (q :: rest) p) by reflexivity.
  replace (pre ++ p :: q :: rest) with ((pre ++ [p]) ++ q :: rest)
    by (rewrite <- app_assoc; reflexivity).
  rewrite (list_lookup_total_middle (pre ++ [p]) rest q)
    by (rewrite length_app; simpl; lia).
  f_equal.
  replace (S (length pre)) with (length (pre ++ [p]))
    by (rewrite length_app; simpl; lia).
  apply IH.
Qed.

Lemma foldl_addPoint (points acc : list Vector2D.t) :
  foldl TrajectoryDrawable.addPoint acc points = acc ++ points.
Proof.
  revert acc. induction points as [|p points IH]; intros acc.
  - simpl. rewrite app_nil_r. reflexivity.
  - cbn [foldl]. rewrite IH. unfold TrajectoryDrawable.addPoint.
    rewrite <- app_assoc. reflexivity.
Qed.

Lemma trajectory_refill (old points : list Vector2D.t) :
  foldl TrajectoryDrawable.addPoint (TrajectoryDrawable.clear old) points
  = points
  /\ length
       (TrajectoryDrawable.draw
          (foldl TrajectoryDrawable.addPoint (TrajectoryDrawable.clear old)
             points))
     = S (length points - 1).
Proof.
  assert (E : foldl TrajectoryDrawable.addPoint
                (TrajectoryDrawable.clear old) points = points)
    by (unfold TrajectoryDrawable.clear; apply (foldl_addPoint points [])).
  split; [exact E|]. rewrite E.
  assert (Hn : forall (n i : nat) (ps : list Vector2D.t),
            length (TrajectoryDrawable.draw_loop n i ps) = n).
  { induction n as [|n IH]; intros i ps; [reflexivity|].
    cbn [TrajectoryDrawable.draw_loop length]. rewrite IH. reflexivity. }
  unfold TrajectoryDrawable.draw. cbn [length]. f_equal.
  destruct (length points <? 2)%nat eqn:Hlt.
  - apply Nat.ltb_lt in Hlt. simpl. lia.
  - apply Hn.
Qed.

Lemma preview_length (sd s : float) (target horizon : nat)
    (w : PhysicsWorld.t) :
  length (preview sd s target horizon w) = horizon.
Proof. unfold preview. apply preview_loop_points. Qed.

End Trajectory.

(** X14: [TrajectoryDrawable::draw] sets the colour to gray and then draws
    one line from each point to the next, in order: nothing for no point
    or one point, and [n - 1] lines for [n] points, each starting where
    the one before ended. *)
Theorem trajectory_draw_segments (points : list Vector2D.t) :
  TrajectoryDrawable.draw points
  = SetDrawColor Color.gray :: zip_with DrawLine points (drop 1 points)
  /\ length (TrajectoryDrawable.draw points)
     = S (length points - 1).
Proof.
  assert (E : TrajectoryDrawable.draw points
              = SetDrawColor Color.gray
                :: zip_with DrawLine points (drop 1 points)).
  { unfold TrajectoryDrawable.draw. f_equal.
    destruct points as [|p [|q rest]]; [reflexivity | reflexivity|].
    cbn [length Nat.ltb Nat.leb drop].
    replace (S (S (length rest)) - 1)%nat with (length (q :: rest))
      by (simpl; lia).
    apply (draw_loop_segments (q :: rest) [] p). }
  split; [exact E|]. rewrite E. cbn [length]. f_equal.
  rewrite length_zip_with, length_drop. lia.
Qed.

(** X15: each pass of the loop of [main] clears the trajectory before it
    adds the points of the preview, so whatever the trajectory held, it
    then holds exactly the hundred points of the preview of that pass, in
    order, and is drawn as ninety-nine lines. *)
Theorem main_trajectory_is_the_preview (old : list Vector2D.t)
    (world : PhysicsWorld.t) :
  main_trajectory old world = main_preview world
  /\ length (main_trajectory old world) = 100%nat
  /\ length (TrajectoryDrawable.draw (main_trajectory old world))
     = 100%nat.
Proof.
  assert (L : length (main_preview world) = 100%nat)
    by (unfold main_preview; apply preview_length).
  unfold main_trajectory.
  destruct (trajectory_refill old (main_preview world)) as [E D].
  rewrite D, E, L. repeat split.
Qed.

(** ** The drawing routines *)

Section Drawing.

Lemma minus_self (p : Vector2D.t) :
  Vector2D.is_finite p = true -> Vector2D.minus p p = Vector2D.zero.
Proof.
  destruct p as [px py]. unfold Vector2D.is_finite, Vector2D.minus.
  cbn [Vector2D.x Vector2D.y]. intros H. apply andb_prop in H.
  destruct H as [Hx Hy]. rewrite !sub_diag_finite by assumption.
  reflexivity.
Qed.

Lemma minus_nan_r (p : Vector2D.t) : Vector2D.minus p nan_vector = nan_vector.
Proof.
  destruct p as [px py]. unfold Vector2D.minus, nan_vector.
  cbn [Vector2D.x Vector2D.y]. rewrite !sub_nan_r. reflexivity.
Qed.





(** The sum of a large coordinate of the centre and an offset is rounded:
    the first point of the circle of radius 1 around [(16777218, 0)] is
    drawn at [16777220], two away from the centre. *)
Lemma circle_point_rounded :
  option_map (take 1) (draw.circle 3 (vec 16777218 0) (of_int 1))
  = Some [RenderDrawPoint (of_int 16777220) pzero].
Proof. vm_compute. reflexivity. Qed.

Lemma vertical_lines_run (width height spacing : Z) (fuel : nat) (x : Z) :
  0 < spacing -> width + spacing <= PhysicsWorld.INT_MAX ->
  PhysicsWorld.INT_MIN <= x ->
  (Z.to_nat ((width - x + spacing - 1) / spacing) < fuel)%nat ->
  GridDrawable.vertical_lines fuel width height spacing x
  = Some ((fun k : nat =>
             DrawLine (vec (x + Z.of_nat k * spacing) 0)
               (vec (x + Z.of_nat k * spacing) height))
            <$> seq 0 (Z.to_nat ((width - x + spacing - 1) / spacing))).
Proof.
  intros Hs Hw. revert x. induction fuel as [|f IH]; intros x Hx Hf; [lia|].
  cbn [GridDrawable.vertical_lines].
  destruct (Z.ltb_spec x width) as [Hlt|Hge].
  - rewrite int_wrap_in_range
      by (unfold PhysicsWorld.INT_MIN, PhysicsWorld.INT_MAX in *; lia).
    assert (Hc : (width - x + spacing - 1) / spacing
                 = (width - (x + spacing) + spacing - 1) / spacing + 1).
    { replace (width - x + spacing - 1)
        with ((width - (x + spacing) + spacing - 1) + 1 * spacing) by ring.
      rewrite Z.div_add by lia. reflexivity. }
    assert (Hq : 0 <= (width - (x + spacing) + spacing - 1) / spacing)
      by (apply Z.div_pos; lia).
    rewrite Hc in *. rewrite Z2Nat.inj_add in * by lia.
    change (Z.to_nat 1) with 1%nat in *.
    rewrite Nat.add_1_r in *.
    rewrite IH by (unfold PhysicsWorld.INT_MIN in *; lia).
    cbn [option_map seq fmap list_fmap]. f_equal. f_equal.
    + rewrite Z.mul_0_l, Z.add_0_r. reflexivity.
    + rewrite <- fmap_S_seq, <- list_fmap_compose.
      apply list_fmap_ext. intros i k _. cbn [compose].
      replace (x + Z.of_nat (S k) * spacing)
        with (x + spacing + Z.of_nat k * spacing) by lia.
      reflexivity.
  - assert (Hz : (width - x + spacing - 1) / spacing <= 0).
    { apply Z.lt_succ_r. apply Z.div_lt_upper_bound; lia. }
    replace (Z.to_nat ((width - x + spacing - 1) / spacing)) with 0%nat
      by lia.
    reflexivity.
Qed.

Lemma horizontal_lines_run (width height spacing : Z) (fuel : nat) (y : Z) :
  0 < spacing -> height + spacing <= PhysicsWorld.INT_MAX ->
  PhysicsWorld.INT_MIN <= y ->
  (Z.to_nat ((height - y + spacing - 1) / spacing) < fuel)%nat ->
  GridDrawable.horizontal_lines fuel width height spacing y
  = Some ((fun k : nat =>
             DrawLine (vec 0 (y + Z.of_nat k * spacing))
               (vec width (y + Z.of_nat k * spacing)))
            <$> seq 0 (Z.to_nat ((height - y + spacing - 1) / spacing))).
Proof.
  intros Hs Hw. revert y. induction fuel as [|f IH]; intros y Hy Hf; [lia|].
  cbn [GridDrawable.horizontal_lines].
  destruct (Z.ltb_spec y height) as [Hlt|Hge].
  - rewrite int_wrap_in_range
      by (unfold PhysicsWorld.INT_MIN, PhysicsWorld.INT_MAX in *; lia).
    assert (Hc : (height - y + spacing - 1) / spacing
                 = (height - (y + spacing) + spacing - 1) / spacing + 1).
    { replace (height - y + spacing - 1)
        with ((height - (y + spacing) + spacing - 1) + 1 * spacing) by ring.
      rewrite Z.div_add by lia. reflexivity. }
    assert (Hq : 0 <= (height - (y + spacing) + spacing - 1) / spacing)
      by (apply Z.div_pos; lia).
    rewrite Hc in *. rewrite Z2Nat.inj_add in * by lia.
    change (Z.to_nat 1) with 1%nat in *.
    rewrite Nat.add_1_r in *.
    rewrite IH by (unfold PhysicsWorld.INT_MIN in *; lia).
    cbn [option_map seq fmap list_fmap]. f_equal. f_equal.
    + rewrite Z.mul_0_l, Z.add_0_r. reflexivity.
    + rewrite <- fmap_S_seq, <- list_fmap_compose.
      apply list_fmap_ext. intros i k _. cbn [compose].
      replace (y + Z.of_nat (S k) * spacing)
        with (y + spacing + Z.of_nat k * spacing) by lia.
      reflexivity.
  - assert (Hz : (height - y + spacing - 1) / spacing <= 0).
    { apply Z.lt_succ_r. apply Z.div_lt_upper_bound; lia. }
    replace (Z.to_nat ((height - y + spacing - 1) / spacing)) with 0%nat
      by lia.
    reflexivity.
Qed.

Lemma vertical_lines_stuck (width height : Z) (fuel : nat) :
  0 < width -> GridDrawable.vertical_lines fuel width height 0 0 = None.
Proof.
  intros H. induction fuel as [|f IH]; [reflexivity|].
  cbn [GridDrawable.vertical_lines].
  destruct (Z.ltb_spec 0 width); [|lia].
  change (PhysicsWorld.int_wrap (0 + 0)) with 0. rewrite IH. reflexivity.
Qed.

Lemma horizontal_lines_stuck (width height : Z) (fuel : nat) :
  0 < height -> GridDrawable.horizontal_lines fuel width height 0 0 = None.
Proof.
  intros H. induction fuel as [|f IH]; [reflexivity|].
  cbn [GridDrawable.horizontal_lines].
  destruct (Z.ltb_spec 0 height); [|lia].
  change (PhysicsWorld.int_wrap (0 + 0)) with 0. rewrite IH. reflexivity.
Qed.

End Drawing.



(** X17: [draw::arrow] between two equal finite points divides the zero
    direction by its zero length: the shaft is drawn from the point to
    itself and both strokes of the head end at NaN coordinates, whatever
    the perpendicular is. *)
Theorem arrow_of_no_length (perpendicular : Vector2D.t -> Vector2D.t)
    (p : Vector2D.t) :
  Vector2D.is_finite p = true ->
  draw.arrow perpendicular p p
  = [draw.line p p; draw.line p nan_vector; draw.line p nan_vector].
Proof.
  intros Hp. unfold draw.arrow. rewrite (minus_self p Hp).
  change (Vector2D.over Vector2D.zero (Vector2D.magnitude Vector2D.zero))
    with nan_vector.
  change (Vector2D.times nan_vector (of_int 10)) with nan_vector.
  rewrite (minus_nan_r p). reflexivity.
Qed.

(** The theorem at the position of the first body of [main]. *)
Lemma arrow_of_no_length_witness :
  Vector2D.is_finite (vec 320 240) = true
  /\ draw.arrow (fun v => v) (vec 320 240) (vec 320 240)
     = [draw.line (vec 320 240) (vec 320 240);
        draw.line (vec 320 240) nan_vector;
        draw.line (vec 320 240) nan_vector].
Proof.
  split; [reflexivity|].
  exact (arrow_of_no_length (fun v => v) (vec 320 240) eq_refl).
Defined.

(** X18: [GridDrawable::draw] with a positive spacing sets the colour to
    dark gray, then draws the vertical lines at [x = 0, spacing,
    2 * spacing, ...] below [width], from top [0] to [height], and then the
    horizontal lines at [y = 0, spacing, ...] below [height], in that
    order; both loops end (the sizes being such that [x + spacing] stays
    in the range of [int]). *)
Theorem grid_draws_multiples_of_spacing (fuel : nat)
    (width height spacing : Z) :
  0 < spacing ->
  width + spacing <= PhysicsWorld.INT_MAX ->
  height + spacing <= PhysicsWorld.INT_MAX ->
  (GridDrawable.line_count width spacing < fuel)%nat ->
  (GridDrawable.line_count height spacing < fuel)%nat ->
  GridDrawable.draw fuel width height spacing
  = Some
      (SetDrawColor Color.darkGray
       :: ((fun k : nat =>
              DrawLine (vec (Z.of_nat k * spacing) 0)
                (vec (Z.of_nat k * spacing) height))
             <$> seq 0 (GridDrawable.line_count width spacing))
       ++ ((fun k : nat =>
              DrawLine (vec 0 (Z.of_nat k * spacing))
                (vec width (Z.of_nat k * spacing)))
             <$> seq 0 (GridDrawable.line_count height spacing))).
Proof.
  unfold GridDrawable.line_count. intros Hs Hw Hh Hfw Hfh.
  unfold GridDrawable.draw.
  rewrite (vertical_lines_run width height spacing fuel 0 Hs Hw)
    by (rewrite ?Z.sub_0_r;
        first [exact Hfw | unfold PhysicsWorld.INT_MIN; lia]).
  rewrite (horizontal_lines_run width height spacing fuel 0 Hs Hh)
    by (rewrite ?Z.sub_0_r;
        first [exact Hfh | unfold PhysicsWorld.INT_MIN; lia]).
  rewrite !Z.sub_0_r. reflexivity.
Qed.

(** The theorem at the grid of [main], 1000 by 1000 with spacing 100: ten
    lines each way. *)
Lemma grid_draws_multiples_of_spacing_witness :
  GridDrawable.line_count 1000 100 = 10%nat
  /\ option_map length (GridDrawable.draw 11 1000 1000 100) = Some 21%nat.
Proof.
  split; [reflexivity|].
  rewrite (grid_draws_multiples_of_spacing 11 1000 1000 100);
    [reflexivity | lia | vm_compute; congruence | vm_compute; congruence
    | vm_compute; lia | vm_compute; lia].
Defined.

(** X19: [GridDrawable::draw] with spacing [0] never returns when the width
    or the height is positive: the loop variable stays at [0], below the
    bound, however many passes are made. *)
Theorem grid_with_no_spacing_never_ends (fuel : nat) (width height : Z) :
  0 < width \/ 0 < height ->
  GridDrawable.draw fuel width height 0 = None.
Proof.
  intros [H|H]; unfold GridDrawable.draw.
  - rewrite vertical_lines_stuck by exact H. reflexivity.
  - rewrite horizontal_lines_stuck by exact H.
    destruct (GridDrawable.vertical_lines fuel width height 0 0);
      reflexivity.
Qed.

(** The theorem at a grid 1000 by 1000 after a thousand passes. *)
Lemma grid_with_no_spacing_never_ends_witness :
  (0 < 1000 \/ 0 < 1000)
  /\ GridDrawable.draw 1000 1000 1000 0 = None.
Proof.
  assert (H : 0 < 1000 \/ 0 < 1000) by (left; lia).
  split; [exact H|].
  exact (grid_with_no_spacing_never_ends 1000 1000 1000 H).
Defined.

(** ** Building a world *)

(** X20: [addBody] keeps the insertion order: adding bodies one after the
    other to a world leaves the bodies it had in their slots, puts the new
    ones behind them in the order they were added, and does not touch the
    tick; a body added to a world of [n] bodies is read back from slot
    [n]. *)
Theorem addBody_keeps_insertion_order (w : PhysicsWorld.t)
    (bs : list PhysicsBody.t) :
  PhysicsWorld.bodies (foldl PhysicsWorld.addBody w bs)
    = PhysicsWorld.bodies w ++ bs
  /\ PhysicsWorld.ticks (foldl PhysicsWorld.addBody w bs)
     = PhysicsWorld.ticks w
  /\ (forall b : PhysicsBody.t,
        PhysicsWorld.bodies (PhysicsWorld.addBody w b)
          !! length (PhysicsWorld.bodies w) = Some b
        /\ forall i : nat,
             (i < length (PhysicsWorld.bodies w))%nat ->
             PhysicsWorld.bodies (PhysicsWorld.addBody w b) !! i
             = PhysicsWorld.bodies w !! i).
Proof.
  split; [|split].
  - revert w. induction bs as [|b bs IH]; intros w.
    + simpl. rewrite app_nil_r. reflexivity.
    + cbn [foldl]. rewrite IH. cbn [PhysicsWorld.addBody PhysicsWorld.bodies].
      rewrite <- app_assoc. reflexivity.
  - revert w. induction bs as [|b bs IH]; intros w; [reflexivity|].
    cbn [foldl]. rewrite IH. reflexivity.
  - intros b. cbn [PhysicsWorld.addBody PhysicsWorld.bodies]. split.
    + apply list_lookup_middle. reflexivity.
    + intros i Hi. apply lookup_app_l. exact Hi.
Qed.
